(** * Registry, service node and itinerant client of CSSE2310 assignment 4

    A shallow embedding of [src/ass4]: [util.c], [port.c], [error.c],
    [mapper2310.c] (the registry), [control2310.c] (the service node) and
    [roc2310.c] (the itinerant client), followed by the properties of the
    specification that were checked against them and by further properties
    of the code.

    Conventions of the embedding.
    - A C string is a [string]: the bytes before the terminating NUL.
    - [strcmp] returns a [comparison]: the C standard fixes only the sign.
    - A [char] array of fixed size that receives a [strcpy] is a value of
      type [string]; the copy is defined only when the source fits (length
      strictly below the array size).  Where it does not fit the function
      returns [MemoryFault]: the C program has no defined behaviour there.
    - The heap arrays of the two servers are lists of their allocated
      length; the slots at and after the entry count hold whatever the
      allocator left there.  A write outside the block is a [MemoryFault].
    - A socket stream being read is the list of the results of the
      successive [fgets] calls on it; [fgets] fails when the list is empty.
    - What the peers and the kernel decide is given to the client as a
      [Roc.Network]: which connections succeed and what they yield, for
      which texts [getaddrinfo] finds no service, and how many writes a
      connection still takes after its peer has closed it.  A write after
      those is a [BrokenPipe]: the process is killed by [SIGPIPE]. *)

From Stdlib Require Import ZArith String Ascii Lia.
From stdpp Require Import base list strings sorting pretty.

(** ** Outcomes of code that can leave defined behaviour *)

(** [MemoryFault]: an access outside an allocation, or through a null or
    uninitialised pointer.  [BrokenPipe]: a write to a connection that the
    peer has closed; it raises [SIGPIPE], which no program here handles,
    and the process is killed. *)
Inductive outcome (A : Type) : Type :=
| Done (a : A)
| MemoryFault
| BrokenPipe.
Arguments Done {A} a.
Arguments MemoryFault {A}.
Arguments BrokenPipe {A}.

Definition bind {A B : Type} (o : outcome A) (k : A -> outcome B) : outcome B :=
  match o with
  | Done a => k a
  | MemoryFault => MemoryFault
  | BrokenPipe => BrokenPipe
  end.

Notation "'let!' x ':=' c 'in' k" := (bind c (fun x => k))
  (at level 10, x name, c at level 100, k at level 200).

(** ** libc functions used by the sources *)

Module Libc.

Definition LF : ascii := "010"%char.
Definition CR : ascii := "013"%char.
Definition TAB : ascii := "009"%char.

Definition strlen (s : string) : nat := String.length s.

(** [strcmp] compares bytes as [unsigned char]; only the sign is kept. *)
Fixpoint strcmp (a b : string) : comparison :=
  match a, b with
  | EmptyString, EmptyString => Eq
  | EmptyString, String _ _ => Lt
  | String _ _, EmptyString => Gt
  | String x a', String y b' =>
      match N.compare (N_of_ascii x) (N_of_ascii y) with
      | Eq => strcmp a' b'
      | c => c
      end
  end.

(** [isdigit] in the C locale. *)
Definition isdigit (c : ascii) : bool :=
  ((48 <=? N_of_ascii c) && (N_of_ascii c <=? 57))%N.

Definition LONG_MAX : Z := 2 ^ 63 - 1.
Definition USHRT_MAX : Z := 65535.

(** The value of the leading run of decimal digits. *)
Fixpoint digits_value (acc : Z) (s : string) : Z :=
  match s with
  | EmptyString => acc
  | String c rest =>
      if isdigit c
      then digits_value (10 * acc + (Z.of_N (N_of_ascii c) - 48)) rest
      else acc
  end.

(** Conversion of a [long] to [int] on an LP64 two's complement machine. *)
Definition long_to_int (z : Z) : Z :=
  (z + 2 ^ 31) mod 2 ^ 32 - 2 ^ 31.

(** [atoi], on the strings that reach it here: the sources call it only
    behind [is_numeric], so neither white space nor a sign occurs.  It is
    [(int) strtol (s, NULL, 10)]: [strtol] saturates at [LONG_MAX] and
    the result is then cut to an [int].  The C standard leaves the result
    open when the value does not fit an [int]; below that bound the model
    is the exact decimal value. *)
Definition atoi (s : string) : Z :=
  long_to_int (Z.min LONG_MAX (digits_value 0 s)).

(** [strtok (s, delimiter)] with one delimiter byte.  The hidden static
    pointer of [strtok] is returned explicitly: the result is the token
    and the text from which the next call [strtok (NULL, _)] resumes. *)
Fixpoint skip_delimiters (d : ascii) (s : string) : string :=
  match s with
  | EmptyString => EmptyString
  | String c rest => if Ascii.eqb c d then skip_delimiters d rest else s
  end.

Fixpoint token_end (d : ascii) (s : string) : string * string :=
  match s with
  | EmptyString => (EmptyString, EmptyString)
  | String c rest =>
      if Ascii.eqb c d then (EmptyString, rest)
      else let '(tok, saved) := token_end d rest in (String c tok, saved)
  end.

Definition strtok (d : ascii) (s : string) : option (string * string) :=
  match skip_delimiters d s with
  | EmptyString => None
  | String c rest => Some (token_end d (String c rest))
  end.

(** [strcpy] into an array of [size] bytes. *)
Definition strcpy (size : nat) (src : string) : outcome string :=
  if (strlen src <? size)%nat then Done src else MemoryFault.

(** [snprintf (buffer, size, "%d", n)] for [n >= 0]: the decimal digits
    of [n], cut to the [size - 1] bytes that fit before the NUL. *)
Definition snprintf_d (size : nat) (n : N) : string :=
  String.substring 0 (size - 1) (pretty n).

(** One [fgets] on a stream given as the list of its future results. *)
Definition fgets (stream : list string) : option (string * list string) :=
  match stream with
  | [] => None
  | line :: rest => Some (line, rest)
  end.

End Libc.

(** ** util.c *)

Module Util.
Import Libc.

Definition PORT_NUMBER_LENGTH : nat := 6.

(** Inner loop of [count_occurrences]: how many bytes of [occurrences]
    equal [c]. *)
Fixpoint count_char (c : ascii) (occurrences : string) : nat :=
  match occurrences with
  | EmptyString => 0
  | String o rest => (if Ascii.eqb c o then 1 else 0) + count_char c rest
  end.

Fixpoint count_occurrences (s occurrences : string) : nat :=
  match s with
  | EmptyString => 0
  | String c rest => count_char c occurrences + count_occurrences rest occurrences
  end.

Fixpoint is_numeric (s : string) : bool :=
  match s with
  | EmptyString => true
  | String c rest => if negb (isdigit c) then false else is_numeric rest
  end.

(** Cuts the string at its first line feed. *)
Fixpoint trim_newline (s : string) : string :=
  match s with
  | EmptyString => EmptyString
  | String c rest => if Ascii.eqb c LF then EmptyString else String c (trim_newline rest)
  end.

Definition is_unsigned_short (s : string) : bool :=
  if negb (is_numeric s) then false
  else if (atoi s <=? 0)%Z || (atoi s >? USHRT_MAX)%Z then false
  else true.

Definition string_or_port_size (s : string) : nat :=
  if (PORT_NUMBER_LENGTH <=? strlen s)%nat then strlen s else PORT_NUMBER_LENGTH.

End Util.

(** ** port.c *)

Module Port.
Import Libc Util.

(** [get_port_from_socket]: [port] is the port that [getsockname]
    reports for the socket, in host byte order; [ntohs] returns a
    [uint16_t]. *)
Definition get_port_from_socket (port : N) : string :=
  snprintf_d PORT_NUMBER_LENGTH (port mod 2 ^ 16).

End Port.

(** ** The exchange sort shared by [sort_mapping] and [sort_visitors]

    Both functions are the same two nested loops over the first [n] slots
    of an array, ordered by a string field:
<<
    for (int i = 0; i < n; i++)
        for (int j = i + 1; j < n; j++)
            if (strcmp(a[i].key, a[j].key) > 0) { exchange a[i] and a[j] }
>>
    Every index read or written is below [n], which the callers keep
    within the allocated block. *)

Section ExchangeSort.
Context {A : Type} (key : A -> string).

Definition exchange_step (i j : nat) (a : list A) : list A :=
  match a !! i, a !! j with
  | Some greater, Some lesser =>
      match Libc.strcmp (key greater) (key lesser) with
      | Gt => <[j := greater]> (<[i := lesser]> a)
      | _ => a
      end
  | _, _ => a
  end.

Definition inner_loop (n i : nat) (a : list A) : list A :=
  foldl (fun a j => exchange_step i j a) a (seq (S i) (n - S i)).

Definition exchange_sort (n : nat) (a : list A) : list A :=
  foldl (fun a i => inner_loop n i a) a (seq 0 n).

End ExchangeSort.

(** ** mapper2310.c: the registry *)

Module Mapper.
Import Libc Util.

Definition MAX_AIRPORT_ID_LENGTH : nat := 490.
Definition COMMAND_BUFFER_SIZE : nat := 500.
Definition MAX_MAP_ENTRIES : nat := 1000.
Definition ENTRY_NOT_FOUND : Z := -1.

Record MapEntry := { airportName : string; portNumber : string }.

Record Mapping := { entryCount : nat; entries : list MapEntry }.

Inductive Command :=
| UNKNOWN_COMMAND
| LIST_MAPPINGS
| QUERY_MAPPING
| ADD_MAPPING.

(** [s[i]]; the byte at index [strlen s] is the terminating NUL. *)
Definition char_at (s : string) (i : nat) : ascii :=
  match String.get i s with
  | Some c => c
  | None => "000"%char
  end.

(** [commandString++]: the text after the first byte, the command
    character. *)
Definition skip_keyword (s : string) : outcome string :=
  match s with
  | EmptyString => MemoryFault
  | String _ rest => Done rest
  end.

(** [command_lexer] trims the caller's buffer in place: the buffer after
    the call is the second component.  The conjunction of the source stops
    at its first false operand; the operands below are total and have the
    value of the source wherever the source evaluates them. *)
Definition command_lexer (commandString : string) : Command * string :=
  let commandString := trim_newline commandString in
  (if bool_decide (strcmp commandString "@" = Eq) then LIST_MAPPINGS
   else if Ascii.eqb (char_at commandString 0) "?" then QUERY_MAPPING
   else if Ascii.eqb (char_at commandString 0) "!"
           && (count_occurrences commandString ":" =? 1)%nat
           && (3 <? strlen commandString)%nat
           && negb (Ascii.eqb (char_at commandString 1) ":")
           && negb (Ascii.eqb (char_at commandString (strlen commandString - 1)) ":")
           && (count_occurrences commandString (String CR (String LF EmptyString)) =? 0)%nat
        then ADD_MAPPING
   else UNKNOWN_COMMAND,
   commandString).

(** The loop of [name_index_in_mapping] over the slots [i .. entryCount). *)
Fixpoint find_name (name : string) (slots : list MapEntry) (i : nat) : Z :=
  match slots with
  | [] => ENTRY_NOT_FOUND
  | e :: rest =>
      if bool_decide (strcmp name (airportName e) = Eq) then Z.of_nat i
      else find_name name rest (S i)
  end.

Definition name_index_in_mapping (mapping : Mapping) (name : string) : Z :=
  find_name name (take (entryCount mapping) (entries mapping)) 0.

Definition add_map_entry (mapping : Mapping) (commandString : string)
  : outcome Mapping :=
  let! commandString := skip_keyword commandString in
  match strtok ":" commandString with
  | None => MemoryFault (* is_unsigned_short (NULL) *)
  | Some (name, saved) =>
      match strtok ":" saved with
      | None => MemoryFault (* is_unsigned_short (NULL) *)
      | Some (port, _) =>
          if negb (is_unsigned_short port) then Done mapping
          else
            let! newName := strcpy MAX_AIRPORT_ID_LENGTH name in
            let! newPort := strcpy PORT_NUMBER_LENGTH port in
            let newEntry := {| airportName := newName; portNumber := newPort |} in
            if (name_index_in_mapping mapping name =? ENTRY_NOT_FOUND)%Z then
              if (entryCount mapping <? length (entries mapping))%nat then
                Done {| entryCount := S (entryCount mapping);
                        entries := <[entryCount mapping := newEntry]> (entries mapping) |}
              else MemoryFault (* write past the allocated block *)
            else Done mapping
      end
  end.

(** The bytes written to the client's stream. *)
Definition print_queried_mapping (mapping : Mapping) (commandString : string)
  : outcome string :=
  let! commandString := skip_keyword commandString in
  let entryIndex := name_index_in_mapping mapping commandString in
  if negb (entryIndex =? ENTRY_NOT_FOUND)%Z then
    match entries mapping !! Z.to_nat entryIndex with
    | Some e => Done (portNumber e +:+ String LF EmptyString)
    | None => MemoryFault
    end
  else Done (String ";" (String LF EmptyString)).

Definition sort_mapping (mapping : Mapping) : Mapping :=
  {| entryCount := entryCount mapping;
     entries := exchange_sort airportName (entryCount mapping) (entries mapping) |}.

(** One [fprintf (stream, "%s:%s\n", ...)]. *)
Definition mapping_line (entry : MapEntry) : string :=
  airportName entry +:+ ":" +:+ portNumber entry +:+ String LF EmptyString.

Fixpoint print_lines {A : Type} (line : A -> string) (slots : list A) : string :=
  match slots with
  | [] => EmptyString
  | e :: rest => line e +:+ print_lines line rest
  end.

(** The mapping after the call (sorted in place) and the bytes written. *)
Definition print_mappings (mapping : Mapping) : Mapping * string :=
  let mapping := sort_mapping mapping in
  (mapping, print_lines mapping_line (take (entryCount mapping) (entries mapping))).

(** The body of the loop of [command_listener] between taking and
    releasing the lock: the mapping afterwards and the bytes sent back. *)
Definition dispatch (mapping : Mapping) (clientMessage : string)
  : outcome (Mapping * string) :=
  let '(commandType, clientMessage) := command_lexer clientMessage in
  match commandType with
  | LIST_MAPPINGS => Done (print_mappings mapping)
  | QUERY_MAPPING =>
      let! sent := print_queried_mapping mapping clientMessage in
      Done (mapping, sent)
  | ADD_MAPPING =>
      let! mapping := add_map_entry mapping clientMessage in
      Done (mapping, EmptyString)
  | UNKNOWN_COMMAND => Done (mapping, EmptyString)
  end.

(** [command_listener] on one connection whose stream yields
    [receiveStream]: the mapping when the peer has closed and everything
    sent to it. *)
Fixpoint command_listener (mapping : Mapping) (receiveStream : list string)
  : outcome (Mapping * string) :=
  match receiveStream with
  | [] => Done (mapping, EmptyString)
  | clientMessage :: rest =>
      let! step := dispatch mapping clientMessage in
      let! tail := command_listener step.1 rest in
      Done (tail.1, step.2 +:+ tail.2)
  end.

(** The mapping built by [handle_connections]: no entry, and the block
    that [malloc] returned for [MAX_MAP_ENTRIES] entries.  [garbage i] is
    whatever slot [i] of the fresh block holds. *)
Definition handle_connections (garbage : nat -> MapEntry) : Mapping :=
  {| entryCount := 0; entries := garbage <$> seq 0 MAX_MAP_ENTRIES |}.

(** The messages of all the workers in the order in which their
    dispatches took the lock: the final mapping and the reply to each. *)
Fixpoint serve (mapping : Mapping) (messages : list string)
  : outcome (Mapping * list string) :=
  match messages with
  | [] => Done (mapping, [])
  | clientMessage :: rest =>
      let! step := dispatch mapping clientMessage in
      let! tail := serve step.1 rest in
      Done (tail.1, step.2 :: tail.2)
  end.

(** [main] up to the call of [handle_connections]: what it has printed
    on [stdout] when the socket is bound to [port]. *)
Definition main (port : N) : string :=
  Port.get_port_from_socket port +:+ String LF EmptyString.

End Mapper.

(** ** control2310.c: the service node *)

Module Control.
Import Libc Util.

Definition MAX_AIRCRAFT_NAME_LENGTH : nat := 500.
Definition COMMAND_BUFFER_SIZE : nat := 500.
Definition MAX_VISITOR_ENTRIES : nat := 1000.

Record VisitorEntry := { aircraftID : string }.

Record Visitors := { visitorCount : nat; entries : list VisitorEntry }.

Inductive Command :=
| LOG_COMMAND
| RECORD_VISIT_SEND_INFO.

Definition command_lexer (commandString : string) : Command * string :=
  let commandString := trim_newline commandString in
  (if bool_decide (strcmp commandString "log" = Eq) then LOG_COMMAND
   else RECORD_VISIT_SEND_INFO,
   commandString).

Definition sort_visitors (visitors : Visitors) : Visitors :=
  {| visitorCount := visitorCount visitors;
     entries := exchange_sort aircraftID (visitorCount visitors) (entries visitors) |}.

(** One [fprintf (stream, "%s\n", ...)]. *)
Definition visitor_line (entry : VisitorEntry) : string :=
  aircraftID entry +:+ String LF EmptyString.

(** The visitors after the call (sorted in place) and the bytes written. *)
Definition print_all_visitors (visitors : Visitors) : Visitors * string :=
  let visitors := sort_visitors visitors in
  (visitors,
   Mapper.print_lines visitor_line (take (visitorCount visitors) (entries visitors))
   +:+ String "." (String LF EmptyString)).

Definition record_visit (visitors : Visitors) (commandString : string)
  : outcome Visitors :=
  let! newID := strcpy MAX_AIRCRAFT_NAME_LENGTH commandString in
  let newVisitor := {| aircraftID := newID |} in
  if (visitorCount visitors <? length (entries visitors))%nat then
    Done {| visitorCount := S (visitorCount visitors);
            entries := <[visitorCount visitors := newVisitor]> (entries visitors) |}
  else MemoryFault (* write past the allocated block *).

(** The body of the loop of [command_listener] between taking and
    releasing the lock. *)
Definition dispatch (airportInfo : string) (visitors : Visitors)
    (clientMessage : string) : outcome (Visitors * string) :=
  let '(commandType, clientMessage) := command_lexer clientMessage in
  match commandType with
  | LOG_COMMAND => Done (print_all_visitors visitors)
  | RECORD_VISIT_SEND_INFO =>
      let! visitors := record_visit visitors clientMessage in
      Done (visitors, airportInfo +:+ String LF EmptyString)
  end.

Fixpoint command_listener (airportInfo : string) (visitors : Visitors)
    (receiveStream : list string) : outcome (Visitors * string) :=
  match receiveStream with
  | [] => Done (visitors, EmptyString)
  | clientMessage :: rest =>
      let! step := dispatch airportInfo visitors clientMessage in
      let! tail := command_listener airportInfo step.1 rest in
      Done (tail.1, step.2 +:+ tail.2)
  end.

(** The visitors built by [handle_connections]: none, and the block that
    [malloc] returned for [MAX_VISITOR_ENTRIES] entries. *)
Definition handle_connections (garbage : nat -> VisitorEntry) : Visitors :=
  {| visitorCount := 0; entries := garbage <$> seq 0 MAX_VISITOR_ENTRIES |}.

(** The messages of all the workers in the order in which their
    dispatches took the lock. *)
Fixpoint serve (airportInfo : string) (visitors : Visitors)
    (messages : list string) : outcome (Visitors * list string) :=
  match messages with
  | [] => Done (visitors, [])
  | clientMessage :: rest =>
      let! step := dispatch airportInfo visitors clientMessage in
      let! tail := serve airportInfo step.1 rest in
      Done (tail.1, step.2 :: tail.2)
  end.

(** error.c, [control_error]: the text written to [stderr] and the value
    returned. *)
Inductive ControlError :=
| CONTROL_NORMAL_EXIT
| CONTROL_INVALID_ARG_COUNT
| CONTROL_INVALID_INFO_OR_ID
| CONTROL_INVALID_PORT_NUMBER
| CONTROL_ERROR_CONNECTING_MAPPER.

Definition control_error (errorType : ControlError) : string * ControlError :=
  let line (errorMessage : string) :=
    (errorMessage +:+ String LF EmptyString, errorType) in
  match errorType with
  | CONTROL_INVALID_ARG_COUNT => line "Usage: control2310 id info [mapper]"
  | CONTROL_INVALID_INFO_OR_ID => line "Invalid char in parameter"
  | CONTROL_INVALID_PORT_NUMBER => line "Invalid port"
  | CONTROL_ERROR_CONNECTING_MAPPER => line "Can not connect to map"
  | CONTROL_NORMAL_EXIT => (EmptyString, CONTROL_NORMAL_EXIT)
  end.

(** [report_to_mapper]: the value returned and the bytes sent to the
    mapper.  [connect_to_port port] says whether the connection to [port]
    succeeds. *)
Definition report_to_mapper (connect_to_port : string -> bool)
    (mapperPort controlPort airportID : string) : bool * option string :=
  if negb (connect_to_port mapperPort) then (false, None)
  else (true,
        Some ("!" +:+ airportID +:+ ":" +:+ controlPort +:+ String LF EmptyString)).

(** Where [main] is when it has done everything before the accept loop:
    it has returned, or it is inside [handle_connections]. *)
Inductive Phase :=
| Exited (status : ControlError)
| Serving (airportInfo : string).

Record Launch := {
  phase : Phase;
  stdout : string;
  stderr : string;
  reported : option string
}.

Definition exit_with (e : ControlError) (out : string) : Launch :=
  {| phase := Exited (control_error e).2; stdout := out;
     stderr := (control_error e).1; reported := None |}.

(** [main]; [argv] includes the program name, and [port] is the free port
    that [bind_to_free_port] obtained. *)
Definition main (connect_to_port : string -> bool) (port : N)
    (argv : list string) : Launch :=
  let illegal := String LF (String CR (String ":" EmptyString)) in
  let body (airportID airportInfo : string) (mapperPort : option string) :=
    if negb (count_occurrences airportID illegal =? 0)%nat
       || negb (count_occurrences airportInfo illegal =? 0)%nat
    then exit_with CONTROL_INVALID_INFO_OR_ID EmptyString
    else if match mapperPort with
            | Some mapperPort => negb (is_unsigned_short mapperPort)
            | None => false
            end
    then exit_with CONTROL_INVALID_PORT_NUMBER EmptyString
    else
      let controlPort := Port.get_port_from_socket port in
      let printed := controlPort +:+ String LF EmptyString in
      match mapperPort with
      | Some mapperPort =>
          let report :=
            report_to_mapper connect_to_port mapperPort controlPort airportID in
          if negb report.1 then exit_with CONTROL_ERROR_CONNECTING_MAPPER printed
          else {| phase := Serving airportInfo; stdout := printed;
                  stderr := EmptyString; reported := report.2 |}
      | None =>
          {| phase := Serving airportInfo; stdout := printed;
             stderr := EmptyString; reported := None |}
      end in
  match argv with
  | [_; airportID; airportInfo] => body airportID airportInfo None
  | [_; airportID; airportInfo; mapperPort] =>
      body airportID airportInfo (Some mapperPort)
  | _ => exit_with CONTROL_INVALID_ARG_COUNT EmptyString
  end.

End Control.

(** ** error.c and roc2310.c: the itinerant client *)

Module Roc.
Import Libc Util.

Definition MAX_DEST_INFO_LENGTH : nat := 500.
Definition RESPONSE_BUFFER_SIZE : nat := 500.

Inductive RocError :=
| ROC_NORMAL_OPERATION
| ROC_INVALID_ARG_COUNT
| ROC_INVALID_MAPPER_PORT
| ROC_REQUIRE_MAPPER
| ROC_ERROR_CONNECTING_MAPPER
| ROC_CANNOT_RESOLVE_PORT
| ROC_FAILED_TO_CONNECT.

(** [roc_error]: the text written to [stderr] and the value returned. *)
Definition roc_error (errorType : RocError) : string * RocError :=
  let line (errorMessage : string) :=
    (errorMessage +:+ String LF EmptyString, errorType) in
  match errorType with
  | ROC_INVALID_ARG_COUNT => line "Usage: roc2310 id mapper {airports}"
  | ROC_INVALID_MAPPER_PORT => line "Invalid mapper port"
  | ROC_REQUIRE_MAPPER => line "Mapper required"
  | ROC_ERROR_CONNECTING_MAPPER => line "Failed to connect to mapper"
  | ROC_CANNOT_RESOLVE_PORT => line "No map entry for destination"
  | ROC_FAILED_TO_CONNECT => line "Failed to connect to at least one destination"
  | ROC_NORMAL_OPERATION => (EmptyString, ROC_NORMAL_OPERATION)
  end.

(** The peers of one run.  The client connects once to the mapper, and
    once for the destination in slot [i] of the itinerary; a connection
    either fails or gives a stream, and what the stream will yield is the
    peer's choice.  [unknown_service]: the texts for which [getaddrinfo]
    finds no service.  A port number is always found; the field is
    consulted for other texts only.  [writes_after_close]: how many writes
    the mapper's connection still takes once the mapper has closed it,
    before the kernel has learnt that the peer is gone; the write after
    those raises [SIGPIPE]. *)
Record Network := {
  mapper_connection : string -> option (list string);
  control_connection : nat -> string -> option (list string);
  unknown_service : string -> bool;
  writes_after_close : nat
}.

(** What the client does on the network, in order. *)
Inductive event :=
| Connected (port : string)
| ConnectFailed (port : string)
| Sent (port : string) (line : string).

(** A [char*] destination: the size of its allocation and its text. *)
Record Destination := { size : nat; text : string }.

Definition print_destination_info (destinationInfo : list (option string))
  : string :=
  Mapper.print_lines (fun info => info +:+ String LF EmptyString)
    (omap id destinationInfo).

(** [connect_to_port] of [port.c], for the peer that [connection] stands
    for.  When [getaddrinfo] fails the function notes the failure and goes
    on: it passes the null result to [freeaddrinfo] and reads [ai->ai_addr]
    through it. *)
Definition connect_to_port (net : Network)
    (connection : string -> option (list string)) (port : string)
  : outcome (option (list string)) :=
  if negb (is_unsigned_short port) && unknown_service net port
  then MemoryFault
  else Done (connection port).

(** The loop of [visit_destinations] from slot [i] on.  [controlResponse]
    is the local buffer: [None] until the first successful [fgets], then
    the last line read.  A failed [fgets] leaves it as it was, and the
    [strcpy] that follows copies that older content. *)
Fixpoint visit_loop (net : Network) (aircraftID : string) (i : nat)
    (destinations : list Destination) (controlResponse : option string)
    (visitingSuccess : bool)
  : outcome (bool * list (option string) * list event) :=
  match destinations with
  | [] => Done (visitingSuccess, [], [])
  | d :: rest =>
      let! connection := connect_to_port net (control_connection net i) (text d) in
      match connection with
      | None =>
          let! r := visit_loop net aircraftID (S i) rest controlResponse false in
          Done (r.1.1, None :: r.1.2, ConnectFailed (text d) :: r.2)
      | Some receiveStream =>
          let controlResponse :=
            match fgets receiveStream with
            | Some (line, _) => Some line
            | None => controlResponse
            end in
          match controlResponse with
          | None => MemoryFault (* strcpy from the uninitialised buffer *)
          | Some response =>
              let! info := strcpy MAX_DEST_INFO_LENGTH response in
              let! r := visit_loop net aircraftID (S i) rest controlResponse
                          visitingSuccess in
              Done (r.1.1, Some (trim_newline info) :: r.1.2,
                    Connected (text d)
                    :: Sent (text d) (aircraftID +:+ String LF EmptyString)
                    :: r.2)
          end
      end
  end.

Definition visit_destinations (net : Network) (destinations : list Destination)
    (aircraftID : string)
  : outcome (bool * list (option string) * list event) :=
  visit_loop net aircraftID 0 destinations None true.

(** The loop of [resolve_destinations]: the destinations afterwards,
    [allResolved] and the queries sent.  [closed] is [None] while no
    [fgets] on the connection has failed.  After a failed [fgets] the
    mapper is gone, and the loop still writes the query of every later
    name: [closed] is then [Some n], where the connection takes [n] more
    writes before one raises [SIGPIPE]. *)
Fixpoint resolve_loop (net : Network) (mapperPort : string)
    (destinations : list Destination) (receiveStream : list string)
    (closed : option nat) (allResolved : bool)
  : outcome (list Destination * bool * list event) :=
  match destinations with
  | [] => Done ([], allResolved, [])
  | d :: rest =>
      if negb (is_unsigned_short (text d)) then
        match closed with
        | Some 0 => BrokenPipe
        | _ =>
            let query :=
              Sent mapperPort ("?" +:+ text d +:+ String LF EmptyString) in
            match fgets receiveStream with
            | Some (mapperResponse, receiveStream) =>
                let! resolved := strcpy (size d) (trim_newline mapperResponse) in
                let allResolved :=
                  if bool_decide (strcmp resolved ";" = Eq) then false
                  else allResolved in
                let! r := resolve_loop net mapperPort rest receiveStream closed
                            allResolved in
                Done ({| size := size d; text := resolved |} :: r.1.1, r.1.2,
                      query :: r.2)
            | None =>
                let closed :=
                  match closed with
                  | None => Some (writes_after_close net)
                  | Some n => Some (pred n)
                  end in
                let! r := resolve_loop net mapperPort rest receiveStream closed
                            false in
                Done (d :: r.1.1, r.1.2, query :: r.2)
            end
        end
      else
        let! r := resolve_loop net mapperPort rest receiveStream closed
                    allResolved in
        Done (d :: r.1.1, r.1.2, r.2)
  end.

Definition resolve_destinations (net : Network) (destinations : list Destination)
    (mapperPort : string)
  : outcome (RocError * list Destination * list event) :=
  let! connection := connect_to_port net (mapper_connection net) mapperPort in
  match connection with
  | None =>
      Done (ROC_ERROR_CONNECTING_MAPPER, destinations, [ConnectFailed mapperPort])
  | Some receiveStream =>
      let! r := resolve_loop net mapperPort destinations receiveStream None true in
      Done (if r.1.2 then ROC_NORMAL_OPERATION else ROC_CANNOT_RESOLVE_PORT,
            r.1.1, Connected mapperPort :: r.2)
  end.

(** What one run of the client leaves behind. *)
Record Run := {
  status : RocError;
  stdout : string;
  stderr : string;
  trace : list event
}.

Definition exit_with (e : RocError) (out : string) (tr : list event) : Run :=
  {| status := (roc_error e).2; stdout := out; stderr := (roc_error e).1;
     trace := tr |}.

(** The copy of [argv[3 ..]] made by [main]. *)
Fixpoint copy_destinations (args : list string) : outcome (list Destination) :=
  match args with
  | [] => Done []
  | arg :: rest =>
      let! copy := strcpy (string_or_port_size arg) arg in
      let! copies := copy_destinations rest in
      Done ({| size := string_or_port_size arg; text := copy |} :: copies)
  end.

(** [main]; [argv] includes the program name. *)
Definition main (net : Network) (argv : list string) : outcome Run :=
  match argv with
  | _ :: aircraftID :: mapperPort :: args =>
      let mapperSpecified := negb (bool_decide (strcmp mapperPort "-" = Eq)) in
      let! destinations := copy_destinations args in
      let mapperRequired := existsb (fun arg => negb (is_unsigned_short arg)) args in
      if mapperSpecified && negb (is_unsigned_short mapperPort) then
        Done (exit_with ROC_INVALID_MAPPER_PORT EmptyString [])
      else if negb mapperSpecified && mapperRequired then
        Done (exit_with ROC_REQUIRE_MAPPER EmptyString [])
      else
        let! resolution :=
          if mapperRequired then resolve_destinations net destinations mapperPort
          else Done (ROC_NORMAL_OPERATION, destinations, []) in
        let '(resolveStatus, destinations, queries) := resolution in
        match resolveStatus with
        | ROC_NORMAL_OPERATION =>
            let! visit := visit_destinations net destinations aircraftID in
            let '(visitingSuccess, destinationInfo, visits) := visit in
            Done (exit_with
                    (if visitingSuccess then ROC_NORMAL_OPERATION
                     else ROC_FAILED_TO_CONNECT)
                    (print_destination_info destinationInfo)
                    (queries ++ visits))
        | _ => Done (exit_with resolveStatus EmptyString queries)
        end
  | _ => Done (exit_with ROC_INVALID_ARG_COUNT EmptyString [])
  end.

End Roc.

(** ** The worker threads and the lock

    [command_listener] is the body of every worker thread of both servers:
<<
    while (!feof(receiveStream)) {
        if (fgets(clientMessage, COMMAND_BUFFER_SIZE, receiveStream)) {
            pthread_mutex_lock(lock);
            ... command_lexer and the dispatch on the shared structure ...
            pthread_mutex_unlock(lock);
        }
    }
>>
    A worker is at one of the points of this loop.  The dispatch works on
    the shared structure in many reads and writes; it is cut here into the
    moment it first looks at the structure and the moment its result is in
    place, so that workers that were in it together would overwrite each
    other.  [pthread_mutex_lock] returns only when no worker holds the
    lock.  One step of the process is one step of one worker. *)

Section Workers.
Context {T : Type} (dispatch : T -> string -> outcome (T * string)).

Inductive worker : Type :=
| Reading (receiveStream : list string)
| Waiting (clientMessage : string) (receiveStream : list string)
| Entered (clientMessage : string) (receiveStream : list string)
| Working (seen : T) (clientMessage : string) (receiveStream : list string)
| Leaving (receiveStream : list string)
| Closed.

Record process : Type := {
  shared : T;
  mutex : option nat;
  workers : list worker;
  history : list (nat * string)
}.

(** The process when [handle_connections] has created one worker for
    each connection and none has run yet. *)
Definition start (structure : T) (streams : list (list string)) : process :=
  {| shared := structure; mutex := None;
     workers := Reading <$> streams; history := [] |}.

Definition move (p : process) (i : nat) (w : worker) : process :=
  {| shared := shared p; mutex := mutex p;
     workers := <[i := w]> (workers p); history := history p |}.

(** The next step of worker [i], when it can take one. *)
Definition advance (i : nat) (p : process) : process :=
  match workers p !! i with
  | Some (Reading []) => move p i Closed
  | Some (Reading (clientMessage :: rest)) => move p i (Waiting clientMessage rest)
  | Some (Waiting clientMessage rest) =>
      match mutex p with
      | None =>
          {| shared := shared p; mutex := Some i;
             workers := <[i := Entered clientMessage rest]> (workers p);
             history := history p |}
      | Some _ => p
      end
  | Some (Entered clientMessage rest) =>
      move p i (Working (shared p) clientMessage rest)
  | Some (Working seen clientMessage rest) =>
      match dispatch seen clientMessage with
      | Done (structure, _) =>
          {| shared := structure; mutex := mutex p;
             workers := <[i := Leaving rest]> (workers p);
             history := history p ++ [(i, clientMessage)] |}
      | MemoryFault | BrokenPipe => p
      end
  | Some (Leaving rest) =>
      {| shared := shared p; mutex := None;
         workers := <[i := Reading rest]> (workers p);
         history := history p |}
  | Some Closed | None => p
  end.

Inductive reachable (origin : process) : process -> Prop :=
| reachable_origin : reachable origin origin
| reachable_advance p i : reachable origin p -> reachable origin (advance i p).

(** The workers run in the order of a schedule. *)
Definition run_schedule (schedule : list nat) (p : process) : process :=
  foldl (fun p i => advance i p) p schedule.

(** The dispatches of a list of messages one after the other. *)
Fixpoint run_serially (structure : T) (messages : list string) : outcome T :=
  match messages with
  | [] => Done structure
  | clientMessage :: rest =>
      let! r := dispatch structure clientMessage in run_serially r.1 rest
  end.

End Workers.

Arguments worker : clear implicits.
Arguments process : clear implicits.

(** * Vocabulary of the properties *)

(** ** The order of [strcmp] *)

Module Order.
Import Libc.

(** The order in which the two sorts leave their arrays: [a] does not
    come after [b]. *)
Definition str_le (a b : string) : Prop := strcmp a b <> Gt.
Definition str_lt (a b : string) : Prop := strcmp a b = Lt.

End Order.

(** ** What the exchange sort establishes, round by round *)

Section SortOrder.
Import Order.
Context {A : Type} (key : A -> string).

Definition key_le (x y : A) : Prop := str_le (key x) (key y).
Definition key_lt (x y : A) : Prop := str_lt (key x) (key y).

(** [b] differs from [a] only inside the slots [lo .. hi), and every
    value found there in [b] was there in [a]. *)
Definition within (lo hi : nat) (a b : list A) : Prop :=
  length b = length a /\
  (forall q, q < lo \/ hi <= q -> b !! q = a !! q) /\
  (forall q y, lo <= q < hi -> b !! q = Some y ->
               exists q', lo <= q' < hi /\ a !! q' = Some y).

(** After the inner loop has compared slot [i] with the slots up to
    [m], slot [i] holds a least key among them. *)
Definition least_upto (i m : nat) (b : list A) : Prop :=
  forall q x y, i < q < m -> b !! i = Some x -> b !! q = Some y -> key_le x y.

(** After [k] rounds of the outer loop the first [k] slots are in their
    final place: each holds a key not above any later one below [n]. *)
Definition settled (k n : nat) (b : list A) : Prop :=
  forall p q x y, p < k -> p < q < n ->
                  b !! p = Some x -> b !! q = Some y -> key_le x y.

End SortOrder.

(** ** Bytes of a command and port numbers *)

Module Bytes.
Import Libc Util.

(** [contains c s]: the byte [c] occurs in [s]. *)
Fixpoint contains (c : ascii) (s : string) : bool :=
  match s with
  | EmptyString => false
  | String x rest => Ascii.eqb x c || contains c rest
  end.

(** The specification's "syntactically valid port number": decimal
    digits whose value is in (0, 65535]. *)
Definition valid_port (s : string) : Prop :=
  is_numeric s = true /\ (0 < digits_value 0 s <= 65535)%Z.

End Bytes.

(** ** The registry *)

Module Registry.
Import Libc Util Mapper Bytes.

(** The entries in use: the first [entryCount] slots of the block. *)
Definition live (m : Mapping) : list MapEntry :=
  take (entryCount m) (entries m).

Definition absent (m : Mapping) (name : string) : Prop :=
  name_index_in_mapping m name = ENTRY_NOT_FOUND.

(** The mapping with one more entry, written at slot [entryCount]. *)
Definition push (m : Mapping) (name port : string) : Mapping :=
  {| entryCount := S (entryCount m);
     entries := <[entryCount m := {| airportName := name; portNumber := port |}]>
                  (entries m) |}.

(** The trimmed text [t] is an add command for [name] and [port] in the
    grammar that [command_lexer] accepts. *)
Definition add_command (t name port : string) : Prop :=
  t = String "!" (name +:+ String ":" port) /\
  name <> EmptyString /\ port <> EmptyString /\
  contains ":" name = false /\ contains ":" port = false /\
  contains CR t = false.

Definition named (name : string) (e : MapEntry) : Prop := airportName e = name.

#[export] Instance named_dec (name : string) (e : MapEntry) : Decision (named name e).
Proof. unfold named. apply _. Defined.

#[export] Instance absent_dec (m : Mapping) (name : string) : Decision (absent m name).
Proof. unfold absent. apply _. Defined.

(** The reply that the specification gives to a query. *)
Definition query_reply (m : Mapping) (name : string) : string :=
  match list_find (named name) (live m) with
  | Some (_, e) => portNumber e +:+ String LF EmptyString
  | None => String ";" (String LF EmptyString)
  end.

(** Every way in which one dispatch can end without a fault. *)
Inductive step (m : Mapping) (line : string) : Mapping -> string -> Prop :=
| step_list :
    trim_newline line = "@" ->
    step m line (sort_mapping m) (print_mappings m).2
| step_query name :
    trim_newline line = String "?" name ->
    step m line m (query_reply m name)
| step_add_new name port :
    add_command (trim_newline line) name port ->
    is_unsigned_short port = true ->
    strlen name < MAX_AIRPORT_ID_LENGTH ->
    strlen port < PORT_NUMBER_LENGTH ->
    absent m name ->
    entryCount m < length (entries m) ->
    step m line (push m name port) EmptyString
| step_add_known name port :
    add_command (trim_newline line) name port ->
    is_unsigned_short port = true ->
    strlen name < MAX_AIRPORT_ID_LENGTH ->
    strlen port < PORT_NUMBER_LENGTH ->
    ~ absent m name ->
    step m line m EmptyString
| step_add_bad_port name port :
    add_command (trim_newline line) name port ->
    is_unsigned_short port = false ->
    step m line m EmptyString
| step_unknown :
    (command_lexer line).1 = UNKNOWN_COMMAND ->
    step m line m EmptyString.

(** The names in use are pairwise distinct. *)
Definition unique_names (m : Mapping) : Prop := NoDup (airportName <$> live m).

(** [(name, port)] is in use and no other entry in use has that name. *)
Definition registered (m : Mapping) (name port : string) : Prop :=
  {| airportName := name; portNumber := port |} ∈ live m /\
  forall e, e ∈ live m -> airportName e = name ->
            e = {| airportName := name; portNumber := port |}.

(** What [command_lexer] and [add_map_entry] let into the table: a name
    that is not empty, holds no colon, carriage return or line feed and
    fits its field, and a port that is a valid port number and fits its
    field. *)
Definition well_formed (e : MapEntry) : Prop :=
  airportName e <> EmptyString /\
  contains ":" (airportName e) = false /\
  contains CR (airportName e) = false /\
  contains LF (airportName e) = false /\
  strlen (airportName e) < MAX_AIRPORT_ID_LENGTH /\
  valid_port (portNumber e) /\
  strlen (portNumber e) < PORT_NUMBER_LENGTH.

(** The add line for [name] and [port]: what [report_to_mapper] sends,
    and a line of a listing behind an exclamation mark. *)
Definition registration (name port : string) : string :=
  "!" +:+ name +:+ ":" +:+ port +:+ String LF EmptyString.

(** The lines of a run that [command_lexer] takes for add commands. *)
Definition is_add (line : string) : bool :=
  match (command_lexer line).1 with
  | ADD_MAPPING => true
  | _ => false
  end.

Definition add_lines (messages : list string) : list string :=
  filter (fun line => is_add line = true) messages.

(** The parts of an add command fit the fields of an entry. *)
Definition fits_entry (line : string) : Prop :=
  forall name port,
    add_command (trim_newline line) name port ->
    strlen name < MAX_AIRPORT_ID_LENGTH /\ strlen port < PORT_NUMBER_LENGTH.

(** [line] is an add command for [name] and [port] that passes the port
    check of [add_map_entry]. *)
Definition valid_add (line name port : string) : Prop :=
  add_command (trim_newline line) name port /\ is_unsigned_short port = true.

(** The specification's "accepted mutation": among [messages], in their
    order, the first valid add command for [name] is the one for [port]. *)
Definition accepted_add (messages : list string) (name port : string) : Prop :=
  exists before line after,
    messages = before ++ line :: after /\
    valid_add line name port /\
    forall earlier port', earlier ∈ before -> ~ valid_add earlier name port'.

(** Two tables that differ at most in the slots that are not in use. *)
Definition same_table (m m' : Mapping) : Prop :=
  entryCount m = entryCount m' /\
  live m = live m' /\
  length (entries m) = length (entries m').

End Registry.

(** ** The service node *)

Module Node.
Import Libc Util Control Bytes.

(** The visits recorded: the first [visitorCount] slots of the block. *)
Definition live (v : Visitors) : list VisitorEntry :=
  take (visitorCount v) (entries v).

(** The visitors with one more record, written at slot [visitorCount]. *)
Definition push (v : Visitors) (id : string) : Visitors :=
  {| visitorCount := S (visitorCount v);
     entries := <[visitorCount v := {| aircraftID := id |}]> (entries v) |}.

(** Every way in which one dispatch can end without a fault. *)
Inductive step (info : string) (v : Visitors) (line : string)
  : Visitors -> string -> Prop :=
| step_log :
    trim_newline line = "log" ->
    step info v line (sort_visitors v) (print_all_visitors v).2
| step_visit :
    trim_newline line <> "log" ->
    strlen (trim_newline line) < MAX_AIRCRAFT_NAME_LENGTH ->
    visitorCount v < length (entries v) ->
    step info v line (push v (trim_newline line)) (info +:+ String LF EmptyString).

(** An identity as a client sends it: no line feed inside, not the word
    [log], and short enough for one [fgets] to return it together with
    the line feed that ends its line. *)
Definition identity (id : string) : Prop :=
  contains LF id = false /\ id <> "log" /\ S (strlen id) < COMMAND_BUFFER_SIZE.

Definition visit_line (id : string) : string := id +:+ String LF EmptyString.

(** The specification's "one per line": every text followed by one line
    feed, in the order of the list. *)
Fixpoint lines (texts : list string) : string :=
  match texts with
  | [] => EmptyString
  | t :: texts => t +:+ String LF (lines texts)
  end.

(** The identities that a run of messages records: the trimmed text of
    every message that is not the log command, in order. *)
Definition visits_of (messages : list string) : list string :=
  filter (fun t => t <> "log") (trim_newline <$> messages).

(** Two logs that differ at most in the slots that are not in use. *)
Definition same_log (v v' : Visitors) : Prop :=
  visitorCount v = visitorCount v' /\
  live v = live v' /\
  length (entries v) = length (entries v').

(** The bytes that [main] refuses in the identity and the information
    of the node. *)
Definition illegal : string := String LF (String CR (String ":" EmptyString)).

End Node.

(** ** The itinerant client *)

Module Client.
Import Libc Util Roc.

(** The destinations that need the mapper, in itinerary order. *)
Definition names_of (texts : list string) : list string :=
  filter (fun t => is_unsigned_short t = false) texts.

(** The query sent for one name. *)
Definition query (mapperPort name : string) : event :=
  Sent mapperPort ("?" +:+ name +:+ String LF EmptyString).

(** Every name got a reply and none of the replies is [;]: reply [k] of
    the stream answers name [k]. *)
Fixpoint all_resolved (names stream : list string) : bool :=
  match names, stream with
  | [], _ => true
  | _ :: _, [] => false
  | _ :: names, reply :: stream =>
      negb (bool_decide (trim_newline reply = ";")) && all_resolved names stream
  end.

(** What [visit_destinations] records for slot [i]: the first line of
    the connection, trimmed, or nothing when the connection failed. *)
Definition visit_result (net : Network) (i : nat) (d : Destination)
  : option string :=
  match control_connection net i (text d) with
  | Some (reply :: _) => Some (trim_newline reply)
  | _ => None
  end.

Definition visit_events (net : Network) (aircraftID : string) (i : nat)
    (d : Destination) : list event :=
  match control_connection net i (text d) with
  | Some _ => [Connected (text d);
               Sent (text d) (aircraftID +:+ String LF EmptyString)]
  | None => [ConnectFailed (text d)]
  end.

Definition connected (net : Network) (i : nat) (d : Destination) : bool :=
  bool_decide (is_Some (control_connection net i (text d))).

(** The text of the destination names a service, and every peer that
    accepts the connection answers with a line that one [fgets] into the
    response buffer returns whole. *)
Definition answers (net : Network) (i : nat) (d : Destination) : Prop :=
  negb (is_unsigned_short (text d)) && unknown_service net (text d) = false /\
  match control_connection net i (text d) with
  | Some (reply :: _) => strlen reply < RESPONSE_BUFFER_SIZE
  | Some [] => False
  | None => True
  end.

Fixpoint itinerary {X : Type} (f : nat -> Destination -> X) (i : nat)
    (destinations : list Destination) : list X :=
  match destinations with
  | [] => []
  | d :: rest => f i d :: itinerary f (S i) rest
  end.

(** The itinerary after resolution: every name is replaced by the next
    reply of the mapper, trimmed; ports are left alone, and so is a name
    for which no reply is left. *)
Fixpoint resolved (texts stream : list string) : list string :=
  match texts with
  | [] => []
  | t :: texts =>
      if is_unsigned_short t then t :: resolved texts stream
      else match stream with
           | reply :: stream => trim_newline reply :: resolved texts stream
           | [] => t :: resolved texts []
           end
  end.

(** A destination in the allocation that [main] gives to an argument
    shorter than a port. *)
Definition destination (t : string) : Destination :=
  {| size := PORT_NUMBER_LENGTH; text := t |}.

(** The line of the query sent for one name. *)
Definition query_line (name : string) : string :=
  "?" +:+ name +:+ String LF EmptyString.

End Client.

(** ** The workers of a server *)

Section Serialization.
Context {T : Type} (dispatch : T -> string -> outcome (T * string)).

(** The worker is between taking and releasing the lock. *)
Definition inside (w : worker T) : Prop :=
  match w with
  | Entered _ _ | Working _ _ _ | Leaving _ => True
  | _ => False
  end.

(** The messages of its stream that a worker has not dispatched yet. *)
Definition pending (w : worker T) : list string :=
  match w with
  | Reading rest | Leaving rest => rest
  | Waiting clientMessage rest | Entered clientMessage rest
  | Working _ clientMessage rest => clientMessage :: rest
  | Closed => []
  end.

(** The messages that worker [i] has dispatched, in order. *)
Definition dispatched_by (i : nat) (p : process T) : list string :=
  snd <$> filter (fun e => e.1 = i) (history p).

Record invariant (structure : T) (streams : list (list string)) (p : process T)
  : Prop := {
  inv_holder : forall i w, workers p !! i = Some w -> inside w -> mutex p = Some i;
  inv_seen : forall i seen clientMessage rest,
      workers p !! i = Some (Working seen clientMessage rest) -> seen = shared p;
  inv_serial : run_serially dispatch structure (snd <$> history p) = Done (shared p);
  inv_streams : forall i w,
      workers p !! i = Some w ->
      streams !! i = Some (dispatched_by i p ++ pending w);
  inv_owner : forall i, mutex p = Some i ->
                         exists w, workers p !! i = Some w /\ inside w
}.


End Serialization.

(** What the lock gives in every state that a server process reaches. *)
Definition serialized {T : Type} (serve : T -> list string -> outcome (T * list string))
    (structure : T) (streams : list (list string)) (p : process T) : Prop :=
  (forall i w, workers p !! i = Some w -> inside w -> mutex p = Some i) /\
  (forall i, mutex p = Some i -> exists w, workers p !! i = Some w /\ inside w) /\
  (forall i j wi wj,
      workers p !! i = Some wi -> workers p !! j = Some wj ->
      inside wi -> inside wj -> i = j) /\
  (exists replies, serve structure (snd <$> history p) = Done (shared p, replies)) /\
  (forall i w, workers p !! i = Some w ->
               streams !! i = Some (dispatched_by i p ++ pending w)) /\
  (forall i stream, workers p !! i = Some Closed -> streams !! i = Some stream ->
                    dispatched_by i p = stream).

(** ** Concrete runs *)

Module Examples.
Import Libc.

Definition line (text : string) : string := text +:+ String LF EmptyString.

(** A fresh registry whose block holds arbitrary old bytes. *)
Definition fresh_registry : Mapper.Mapping :=
  Mapper.handle_connections
    (fun _ => {| Mapper.airportName := "stale"; Mapper.portNumber := "1" |}).

(** The registry after [!BNE:8080] was accepted. *)
Definition registry_bne : Mapper.Mapping := Registry.push fresh_registry "BNE" "8080".

Definition later_messages : list string :=
  [line "@"; line "!BNE:9090"; line "!AKL:7070"; line "@"; line "?AKL"].

(** The mapping that a run ends in, or [fallback] when it faults. *)
Definition final {A R : Type} (run : outcome (A * R)) (fallback : A) : A :=
  match run with
  | Done r => r.1
  | MemoryFault | BrokenPipe => fallback
  end.

Definition replies_of {A R : Type} (run : outcome (A * list R)) : list R :=
  match run with
  | Done r => r.2
  | MemoryFault | BrokenPipe => []
  end.

Definition registry_later : Mapper.Mapping :=
  Eval vm_compute in final (Mapper.serve registry_bne later_messages) registry_bne.

(** A fresh service node, and the node after the visits QF2, NZ1, QF2. *)
Definition fresh_node : Control.Visitors :=
  Control.handle_connections (fun _ => {| Control.aircraftID := "stale" |}).

Definition node_three_visits : Control.Visitors :=
  Node.push (Node.push (Node.push fresh_node "QF2") "NZ1") "QF2".

(** The add commands [!0:80], [!1:80], ... for [n] distinct names. *)
Definition add_message (i : nat) : string := line ("!" +:+ pretty i +:+ ":80").

Definition add_messages (n : nat) : list string := add_message <$> seq 0 n.

(** The registry after a thousand accepted adds. *)
Definition full_registry : Mapper.Mapping :=
  Eval vm_compute in
    final (Mapper.serve fresh_registry (add_messages Mapper.MAX_MAP_ENTRIES))
      fresh_registry.

(** A service node whose log is full. *)
Definition full_node : Control.Visitors :=
  {| Control.visitorCount := Control.MAX_VISITOR_ENTRIES;
     Control.entries := Control.entries fresh_node |}.

(** A network in which the mapper on port 3000 knows no name, and the
    service node on port 8080 answers every visitor. *)
Definition network_unresolved : Roc.Network :=
  {| Roc.mapper_connection := fun port =>
       if bool_decide (port = "3000") then Some [line ";"] else None;
     Roc.control_connection := fun _ port =>
       if bool_decide (port = "8080") then Some [line "Brisbane"] else None;
     Roc.unknown_service := fun _ => true;
     Roc.writes_after_close := 0 |}.

(** A network in which the nodes on ports 8080 and 8082 answer and
    nothing listens on port 8081. *)
Definition network_partial : Roc.Network :=
  {| Roc.mapper_connection := fun _ => None;
     Roc.control_connection := fun _ port =>
       if bool_decide (port = "8080") then Some [line "Brisbane"]
       else if bool_decide (port = "8082") then Some [line "Sydney"]
       else None;
     Roc.unknown_service := fun _ => true;
     Roc.writes_after_close := 0 |}.

(** Two connections: one registers BNE and asks for AKL, the other
    registers AKL.  The schedule lets both workers read their line before
    either takes the lock, and makes worker 0 try the lock while worker 1
    holds it. *)
Definition two_streams : list (list string) :=
  [[line "!BNE:8080"; line "?AKL"]; [line "!AKL:7070"]].

Definition two_workers_schedule : list nat :=
  [0; 1; 1; 0; 1; 0; 1; 0; 1; 1; 0; 0; 0; 0; 0; 0; 0; 0; 0; 0].

Definition two_workers_end : process Mapper.Mapping :=
  run_schedule Mapper.dispatch two_workers_schedule
    (start fresh_registry two_streams).

(** The same two workers when [pthread_mutex_lock] lets a worker in
    although another one holds the lock: both look at the empty table,
    and the entry written first is overwritten by the second. *)
Definition advance_without_lock (i : nat) (p : process Mapper.Mapping)
  : process Mapper.Mapping :=
  advance Mapper.dispatch i
    {| shared := shared p; mutex := None; workers := workers p;
       history := history p |}.

(** A network in which the node on port 8080 answers and the node on
    port 8081 accepts the connection and closes it without a reply. *)
Definition network_silent : Roc.Network :=
  {| Roc.mapper_connection := fun _ => None;
     Roc.control_connection := fun _ port =>
       if bool_decide (port = "8080") then Some [line "Brisbane"]
       else if bool_decide (port = "8081") then Some []
       else None;
     Roc.unknown_service := fun _ => true;
     Roc.writes_after_close := 0 |}.

(** A network in which the mapper on port 3000 answers its first query
    with 8080, and the node on port 8080 answers every visitor. *)
Definition network_resolving : Roc.Network :=
  {| Roc.mapper_connection := fun port =>
       if bool_decide (port = "3000") then Some [line "8080"] else None;
     Roc.control_connection := fun _ port =>
       if bool_decide (port = "8080") then Some [line "Brisbane"] else None;
     Roc.unknown_service := fun _ => true;
     Roc.writes_after_close := 0 |}.

(** A network in which the mapper on port 3000 answers its first query
    with a text that is no port and names no service. *)
Definition network_misdirecting : Roc.Network :=
  {| Roc.mapper_connection := fun port =>
       if bool_decide (port = "3000") then Some [line "north"] else None;
     Roc.control_connection := fun _ _ => None;
     Roc.unknown_service := fun _ => true;
     Roc.writes_after_close := 0 |}.

(** The registry and the service node as their processes start them. *)
Definition stale_entry (i : nat) : Mapper.MapEntry :=
  {| Mapper.airportName := "stale"; Mapper.portNumber := "1" |}.

Definition numbered_entry (i : nat) : Mapper.MapEntry :=
  {| Mapper.airportName := pretty i; Mapper.portNumber := "80" |}.

(** The registry after [!SYD:2] and [!AKL:1]. *)
Definition registry_syd_akl : Mapper.Mapping :=
  Registry.push (Registry.push fresh_registry "SYD" "2") "AKL" "1".

(** Two connections to a service node: QF2 visits and asks for the log,
    NZ1 visits.  The workers run in the schedule of the two registry
    workers above. *)
Definition node_streams : list (list string) :=
  [[line "QF2"; line "log"]; [line "NZ1"]].

Definition node_workers_end : process Control.Visitors :=
  run_schedule (Control.dispatch "Brisbane") two_workers_schedule
    (start fresh_node node_streams).

End Examples.

(** * Lemmas *)

(** ** Facts about the libc model *)

Module LibcFacts.
Import Libc Order.

Lemma strcmp_refl (a : string) : strcmp a a = Eq.
Proof.
  induction a as [|x a IH]; simpl; [reflexivity|].
  by rewrite N.compare_refl.
Qed.

Lemma strcmp_eq (a b : string) : strcmp a b = Eq -> a = b.
Proof.
  revert b; induction a as [|x a IH]; intros [|y b]; simpl; try done.
  destruct (N.compare_spec (N_of_ascii x) (N_of_ascii y)) as [E| |]; try done.
  intros H. apply IH in H as ->.
  f_equal. rewrite <- (ascii_N_embedding x), <- (ascii_N_embedding y).
  by rewrite E.
Qed.

Lemma strcmp_eq_iff (a b : string) : strcmp a b = Eq <-> a = b.
Proof. split; [apply strcmp_eq | intros ->; apply strcmp_refl]. Qed.

Lemma strcmp_antisym (a b : string) : strcmp b a = CompOpp (strcmp a b).
Proof.
  revert b; induction a as [|x a IH]; intros [|y b]; simpl; try done.
  rewrite (N.compare_antisym (N_of_ascii x) (N_of_ascii y)).
  destruct (N.compare (N_of_ascii x) (N_of_ascii y)); simpl; auto.
Qed.

Lemma strcmp_gt_lt (a b : string) : strcmp a b = Gt <-> strcmp b a = Lt.
Proof.
  rewrite (strcmp_antisym a b). destruct (strcmp a b); simpl; split; congruence.
Qed.

Lemma strcmp_lt_trans (a b c : string) :
  strcmp a b = Lt -> strcmp b c = Lt -> strcmp a c = Lt.
Proof.
  revert b c; induction a as [|x a IH]; intros [|y b] [|z c]; simpl; try done.
  destruct (N.compare_spec (N_of_ascii x) (N_of_ascii y)) as [E1|L1|G1];
    destruct (N.compare_spec (N_of_ascii y) (N_of_ascii z)) as [E2|L2|G2];
    try done; intros H1 H2.
  - rewrite E1, E2, N.compare_refl. eauto.
  - rewrite E1. by apply N.compare_lt_iff in L2 as ->.
  - rewrite <- E2. by apply N.compare_lt_iff in L1 as ->.
  - assert (N_of_ascii x < N_of_ascii z)%N as L by lia.
    by apply N.compare_lt_iff in L as ->.
Qed.

Lemma str_le_alt (a b : string) : str_le a b <-> str_lt a b \/ a = b.
Proof.
  unfold str_le, str_lt. rewrite <- strcmp_eq_iff.
  destruct (strcmp a b); intuition congruence.
Qed.

Lemma str_le_trans (a b c : string) : str_le a b -> str_le b c -> str_le a c.
Proof.
  rewrite !str_le_alt. intros [H1| ->] [H2| ->]; auto.
  left. eapply strcmp_lt_trans; eauto.
Qed.

Lemma str_gt_le (a b : string) : strcmp a b = Gt -> str_le b a.
Proof. intros H%strcmp_gt_lt. unfold str_le. congruence. Qed.


End LibcFacts.

(** ** The exchange sort sorts the first [n] slots and only permutes them *)

Section ExchangeSortFacts.
Import Libc Order LibcFacts.
Context {A : Type} (key : A -> string).

Lemma key_le_trans (x y z : A) : key_le key x y -> key_le key y z -> key_le key x z.
Proof. apply str_le_trans. Qed.

(** Writing back two slots of a list exchanged is a permutation. *)
Lemma insert_head_perm (l : list A) (j : nat) (x y : A) :
  l !! j = Some y -> y :: <[j := x]> l ≡ₚ x :: l.
Proof.
  revert j; induction l as [|z l IH]; intros [|j] H; simplify_eq/=.
  - apply Permutation_swap.
  - rewrite (Permutation_swap z y), (IH _ H). apply Permutation_swap.
Qed.

Lemma exchange_perm (l : list A) (i j : nat) (x y : A) :
  l !! i = Some x -> l !! j = Some y ->
  <[j := x]> (<[i := y]> l) ≡ₚ l.
Proof.
  revert i j; induction l as [|z l IH]; intros [|i] [|j] Hi Hj; simplify_eq/=.
  - done.
  - by apply insert_head_perm.
  - symmetry. rewrite <- (insert_head_perm l i y x Hi). done.
  - f_equiv. by apply IH.
Qed.

Lemma exchange_step_perm (i j : nat) (a : list A) : exchange_step key i j a ≡ₚ a.
Proof.
  unfold exchange_step.
  destruct (a !! i) as [x|] eqn:Hi; [|done].
  destruct (a !! j) as [y|] eqn:Hj; [|done].
  destruct (strcmp (key x) (key y)); try done.
  by apply exchange_perm.
Qed.

Lemma exchange_step_length (i j : nat) (a : list A) :
  length (exchange_step key i j a) = length a.
Proof. apply Permutation_length, exchange_step_perm. Qed.

(** The slots that one step leaves alone. *)
Lemma exchange_step_other (i j q : nat) (a : list A) :
  q <> i -> q <> j -> exchange_step key i j a !! q = a !! q.
Proof.
  intros Hqi Hqj. unfold exchange_step.
  destruct (a !! i) as [x|]; [|done].
  destruct (a !! j) as [y|]; [|done].
  destruct (strcmp (key x) (key y)); try done.
  rewrite !list_lookup_insert_ne; auto.
Qed.

(** What one step leaves in the two slots it compares. *)
Lemma exchange_step_pair (i j : nat) (a : list A) (x y : A) :
  i <> j -> a !! i = Some x -> a !! j = Some y ->
  exists x' y',
    exchange_step key i j a !! i = Some x' /\
    exchange_step key i j a !! j = Some y' /\
    key_le key x' y' /\
    ((x' = x /\ y' = y) \/ (x' = y /\ y' = x /\ key_lt key y x)).
Proof.
  intros Hij Hi Hj. unfold exchange_step. rewrite Hi, Hj.
  destruct (strcmp (key x) (key y)) eqn:Hc.
  - exists x, y. repeat split; auto. unfold key_le, str_le. congruence.
  - exists x, y. repeat split; auto. unfold key_le, str_le. congruence.
  - exists y, x.
    assert (i < length a) by (by eapply lookup_lt_Some).
    assert (j < length a) by (by eapply lookup_lt_Some).
    rewrite list_lookup_insert_ne by auto.
    rewrite list_lookup_insert_eq by auto.
    rewrite list_lookup_insert_eq by (by rewrite length_insert).
    repeat split; auto.
    + by apply str_gt_le.
    + right. repeat split. by apply strcmp_gt_lt.
Qed.

Lemma within_refl (lo hi : nat) (a : list A) : within lo hi a a.
Proof. repeat split; eauto. Qed.

Lemma within_trans (lo hi : nat) (a b c : list A) :
  within lo hi a b -> within lo hi b c -> within lo hi a c.
Proof.
  intros (L1 & O1 & I1) (L2 & O2 & I2). repeat split.
  - congruence.
  - intros q Hq. rewrite O2, O1; auto.
  - intros q y Hq Hy.
    destruct (I2 q y Hq Hy) as (q' & Hq' & Hy'). eauto.
Qed.

Lemma exchange_step_within (lo hi i j : nat) (a : list A) :
  lo <= i < hi -> lo <= j < hi -> within lo hi a (exchange_step key i j a).
Proof.
  intros Hi Hj. repeat split.
  - apply exchange_step_length.
  - intros q Hq. apply exchange_step_other; lia.
  - intros q y Hq Hy.
    destruct (decide (q = i)) as [->|Hqi]; [|destruct (decide (q = j)) as [->|Hqj]].
    + revert Hy. unfold exchange_step.
      destruct (a !! i) as [x|] eqn:Ei; [|by eauto].
      destruct (a !! j) as [z|] eqn:Ej; [|intros ?; exists i; split; congruence].
      destruct (strcmp (key x) (key z)); try by eauto.
      intros Hy. apply list_lookup_insert_Some in Hy as [(-> & <- & _)|(Hne & Hy)].
      * eauto.
      * apply list_lookup_insert_Some in Hy as [(_ & <- & _)|(? & _)]; [eauto|done].
    + revert Hy. unfold exchange_step.
      destruct (a !! i) as [x|] eqn:Ei; [|by eauto].
      destruct (a !! j) as [z|] eqn:Ej; [|by eauto].
      destruct (strcmp (key x) (key z)); try by eauto.
      intros Hy. apply list_lookup_insert_Some in Hy as [(_ & <- & _)|(? & _)]; [eauto|done].
    + rewrite exchange_step_other in Hy by auto. eauto.
Qed.

Lemma inner_loop_steps (n i len : nat) (a : list A) :
  S i + len <= n ->
  let b := foldl (fun a j => exchange_step key i j a) a (seq (S i) len) in
  within i n a b /\ least_upto key i (S i + len) b.
Proof.
  cbv zeta. induction len as [|len IH]; intros Hn.
  - split; [apply within_refl|]. intros q x y Hq. lia.
  - rewrite seq_S, foldl_snoc.
    destruct IH as [Hw Hl]; [lia|].
    set (b := foldl _ a (seq (S i) len)) in *.
    set (j := S i + len) in *.
    assert (within i n b (exchange_step key i j b)) as Hstep
      by (apply exchange_step_within; lia).
    split; [by eapply within_trans|].
    intros q x' y' Hq Hx' Hy'.
    destruct (b !! i) as [x|] eqn:Ei; cycle 1.
    { destruct Hstep as (_ & _ & Hin).
      assert (exchange_step key i j b = b) as Hid by (unfold exchange_step; by rewrite Ei).
      rewrite Hid in Hx'. congruence. }
    destruct (b !! j) as [y|] eqn:Ej; cycle 1.
    { assert (exchange_step key i j b = b) as Hid by (unfold exchange_step; by rewrite Ei, Ej).
      rewrite Hid in Hx', Hy'.
      destruct (decide (q = j)) as [->|]; [congruence|].
      apply (Hl q x' y'); auto. unfold j in *; lia. }
    destruct (exchange_step_pair i j b x y) as (x1 & y1 & H1 & H2 & Hle & Hcase);
      [unfold j; lia|done|done|].
    rewrite H1 in Hx'. injection Hx' as <-.
    destruct (decide (q = j)) as [->|Hqj].
    + rewrite H2 in Hy'. by injection Hy' as <-.
    + rewrite exchange_step_other in Hy' by lia.
      assert (key_le key x y') as Hxy by (apply (Hl q x y'); auto; unfold j in *; lia).
      destruct Hcase as [(-> & _)|(-> & _ & Hlt)]; [done|].
      eapply key_le_trans; [|exact Hxy].
      apply str_le_alt. by left.
Qed.

Lemma inner_loop_spec (n i : nat) (a : list A) :
  i < n ->
  within i n a (inner_loop key n i a) /\ least_upto key i n (inner_loop key n i a).
Proof.
  intros Hi. unfold inner_loop.
  destruct (inner_loop_steps n i (n - S i) a) as [Hw Hl]; [lia|].
  split; [done|]. replace n with (S i + (n - S i)) at 1 by lia. done.
Qed.

Lemma outer_loop_steps (n k : nat) (a : list A) :
  k <= n ->
  let b := foldl (fun a i => inner_loop key n i a) a (seq 0 k) in
  within 0 n a b /\ settled key k n b.
Proof.
  cbv zeta. induction k as [|k IH]; intros Hk.
  - split; [apply within_refl|]. intros p q x y Hp. lia.
  - rewrite seq_S, foldl_snoc. simpl "+".
    destruct IH as [Hw Hs]; [lia|].
    set (b := foldl _ a (seq 0 k)) in *.
    destruct (inner_loop_spec n k b) as [Hw' Hl]; [lia|].
    split.
    + eapply within_trans; [exact Hw|].
      destruct Hw' as (L & O & I). repeat split; auto.
      * intros q Hq. apply O. lia.
      * intros q y Hq Hy.
        destruct (decide (q < k)) as [Hlt|Hge].
        -- exists q. split; [lia|]. rewrite <- O; auto.
        -- destruct (I q y) as (q' & Hq' & Hy'); [lia|done|].
           exists q'. split; [lia|done].
    + intros p q x y Hp Hq Hx Hy.
      destruct Hw' as (L & O & I).
      destruct (decide (p = k)) as [->|Hpk].
      * by apply (Hl q x y).
      * rewrite O in Hx by lia.
        destruct (decide (q < k)) as [Hlt|Hge].
        -- rewrite O in Hy by lia. apply (Hs p q x y); auto; lia.
        -- destruct (I q y) as (q' & Hq' & Hy'); [lia|done|].
           apply (Hs p q' x y); auto; lia.
Qed.

Lemma exchange_sort_perm (n : nat) (a : list A) : exchange_sort key n a ≡ₚ a.
Proof.
  unfold exchange_sort. generalize (seq 0 n) as rounds.
  intros rounds; revert a; induction rounds as [|i rounds IH]; intros a; simpl; [done|].
  rewrite IH. unfold inner_loop. generalize (seq (S i) (n - S i)) as js.
  intros js; revert a; induction js as [|j js IHj]; intros a; simpl; [done|].
  rewrite IHj. apply exchange_step_perm.
Qed.

Lemma exchange_sort_length (n : nat) (a : list A) :
  length (exchange_sort key n a) = length a.
Proof. apply Permutation_length, exchange_sort_perm. Qed.

Lemma exchange_sort_within (n : nat) (a : list A) :
  within 0 n a (exchange_sort key n a).
Proof. by destruct (outer_loop_steps n n a). Qed.

(** The slots at and after [n] are not touched. *)
Lemma exchange_sort_drop (n : nat) (a : list A) :
  drop n (exchange_sort key n a) = drop n a.
Proof.
  destruct (exchange_sort_within n a) as (L & O & _).
  apply list_eq. intros q. rewrite !lookup_drop. apply O. lia.
Qed.

(** The first [n] slots are a permutation of what they held. *)
Lemma exchange_sort_take_perm (n : nat) (a : list A) :
  take n (exchange_sort key n a) ≡ₚ take n a.
Proof.
  apply (Permutation_app_inv_r (drop n a)).
  rewrite <- (exchange_sort_drop n a) at 1.
  rewrite !take_drop. apply exchange_sort_perm.
Qed.

Lemma settled_sorted (R : A -> A -> Prop) (l : list A) :
  (forall p q x y, p < q -> l !! p = Some x -> l !! q = Some y -> R x y) ->
  StronglySorted R l.
Proof.
  induction l as [|z l IH]; intros H; constructor.
  - apply IH. intros p q x y Hpq Hx Hy. apply (H (S p) (S q)); auto; lia.
  - apply Forall_lookup. intros q y Hy. apply (H 0 (S q)); auto; lia.
Qed.

(** The first [n] slots end in ascending order of their keys. *)
Lemma exchange_sort_sorted (n : nat) (a : list A) :
  StronglySorted (key_le key) (take n (exchange_sort key n a)).
Proof.
  destruct (outer_loop_steps n n a) as [_ Hs]; [lia|].
  apply settled_sorted. intros p q x y Hpq Hx Hy.
  apply lookup_take_Some in Hx as [Hx Hp], Hy as [Hy Hq].
  apply (Hs p q x y); auto.
Qed.

(** Sorting an array that is already in order changes nothing in its
    first [n] slots when the keys there are pairwise distinct. *)
Lemma sorted_lt_of_le_nodup (l : list A) :
  StronglySorted (key_le key) l -> NoDup (key <$> l) -> StronglySorted (key_lt key) l.
Proof.
  induction 1 as [|x l Hs IH Hall]; intros Hnd; [constructor|].
  rewrite fmap_cons in Hnd. apply NoDup_cons in Hnd as [Hx Hnd].
  constructor; [by apply IH|].
  apply Forall_forall. intros y Hy.
  rewrite Forall_forall in Hall. specialize (Hall y Hy).
  apply str_le_alt in Hall as [Hlt|Heq]; [done|].
  exfalso. apply Hx. rewrite Heq. apply list_elem_of_fmap. eauto.
Qed.

End ExchangeSortFacts.

(** ** Facts about util.c and the tokenising of an add command *)

Module UtilFacts.
Import Libc Util Order Bytes LibcFacts.

Lemma append_empty_r (s : string) : s +:+ EmptyString = s.
Proof.
  induction s as [|c s IH]; [done|].
  change (String c (s +:+ EmptyString) = String c s). by f_equal.
Qed.

Lemma count_occurrences_app (s1 s2 occ : string) :
  count_occurrences (s1 +:+ s2) occ
  = count_occurrences s1 occ + count_occurrences s2 occ.
Proof. induction s1 as [|c s1 IH]; simpl; [done|]. rewrite IH. lia. Qed.

Lemma count_one_zero (c : ascii) (s : string) :
  count_occurrences s (String c EmptyString) = 0 <-> contains c s = false.
Proof.
  induction s as [|x s IH]; simpl; [done|].
  destruct (Ascii.eqb x c); simpl; [split; [lia|done]|]. by rewrite <- IH.
Qed.

Lemma count_two_zero (c d : ascii) (s : string) :
  count_occurrences s (String c (String d EmptyString)) = 0
  <-> contains c s = false /\ contains d s = false.
Proof.
  induction s as [|x s IH]; simpl; [done|].
  destruct (Ascii.eqb x c), (Ascii.eqb x d); simpl;
    try (split; [lia | by intros []]).
  by rewrite <- IH.
Qed.

Lemma contains_app (c : ascii) (s1 s2 : string) :
  contains c (s1 +:+ s2) = contains c s1 || contains c s2.
Proof.
  induction s1 as [|x s1 IH]; simpl; [done|]. by rewrite IH, orb_assoc.
Qed.

(** A string with exactly one [c] splits around it. *)
Lemma count_one_split (c : ascii) (s : string) :
  count_occurrences s (String c EmptyString) = 1 ->
  exists n a, s = n +:+ String c a /\ contains c n = false /\ contains c a = false.
Proof.
  induction s as [|x s IH]; simpl; [done|].
  destruct (Ascii.eqb_spec x c) as [->|Hne]; simpl.
  - intros H. exists EmptyString, s. repeat split.
    apply count_one_zero. lia.
  - intros H. destruct (IH H) as (n & a & -> & Hn & Ha).
    exists (String x n), a. repeat split; auto. simpl.
    apply Ascii.eqb_neq in Hne. by rewrite Hne.
Qed.

Lemma trim_newline_no_LF (s : string) : contains LF (trim_newline s) = false.
Proof.
  induction s as [|x s IH]; simpl; [done|].
  destruct (Ascii.eqb x LF) eqn:E; simpl; [done|]. by rewrite E.
Qed.

Lemma trim_newline_id (s : string) : contains LF s = false -> trim_newline s = s.
Proof.
  induction s as [|x s IH]; simpl; [done|].
  destruct (Ascii.eqb x LF); simpl; [done|]. intros H. by rewrite IH.
Qed.

Lemma trim_newline_line (s : string) :
  contains LF s = false -> trim_newline (s +:+ String LF EmptyString) = s.
Proof.
  induction s as [|x s IH]; simpl; [done|].
  destruct (Ascii.eqb x LF); simpl; [done|]. intros H. by rewrite IH.
Qed.

(** Tokenising [name:port]. *)
Lemma token_end_split (d : ascii) (n a : string) :
  contains d n = false -> token_end d (n +:+ String d a) = (n, a).
Proof.
  induction n as [|x n IH]; simpl.
  - by rewrite Ascii.eqb_refl.
  - destruct (Ascii.eqb x d); simpl; [done|]. intros H. by rewrite IH.
Qed.

Lemma token_end_whole (d : ascii) (a : string) :
  contains d a = false -> token_end d a = (a, EmptyString).
Proof.
  induction a as [|x a IH]; simpl; [done|].
  destruct (Ascii.eqb x d); simpl; [done|]. intros H. by rewrite IH.
Qed.

Lemma skip_delimiters_id (d : ascii) (s : string) :
  contains d s = false -> skip_delimiters d s = s.
Proof. destruct s as [|x s]; simpl; [done|]. by destruct (Ascii.eqb x d). Qed.

Lemma strtok_first (d : ascii) (n a : string) :
  n <> EmptyString -> contains d n = false ->
  strtok d (n +:+ String d a) = Some (n, a).
Proof.
  intros Hn Hd. unfold strtok.
  destruct n as [|x n]; [done|].
  rewrite <- (token_end_split d (String x n) a Hd).
  simpl in Hd. apply orb_false_elim in Hd as [E _].
  simpl. by rewrite !E.
Qed.

Lemma strtok_last (d : ascii) (a : string) :
  a <> EmptyString -> contains d a = false ->
  strtok d a = Some (a, EmptyString).
Proof.
  intros Ha Hd. unfold strtok. rewrite skip_delimiters_id by done.
  destruct a as [|x a]; [done|]. by rewrite token_end_whole.
Qed.

(** Digits, and the range test of [is_unsigned_short]. *)
Lemma isdigit_value (c : ascii) :
  isdigit c = true -> (0 <= Z.of_N (N_of_ascii c) - 48 <= 9)%Z.
Proof.
  unfold isdigit. intros [H1 H2]%andb_prop.
  apply N.leb_le in H1, H2. lia.
Qed.

Lemma digits_value_bound (s : string) (acc : Z) :
  is_numeric s = true -> (0 <= acc)%Z ->
  (acc * 10 ^ Z.of_nat (strlen s) <= digits_value acc s
   < (acc + 1) * 10 ^ Z.of_nat (strlen s))%Z.
Proof.
  revert acc; induction s as [|c s IH]; intros acc Hs Hacc.
  - simpl. lia.
  - simpl in Hs. destruct (isdigit c) eqn:Hc; [|done]. simpl in Hs.
    change (digits_value acc (String c s))
      with (if isdigit c
            then digits_value (10 * acc + (Z.of_N (N_of_ascii c) - 48)) s
            else acc).
    rewrite Hc. pose proof (isdigit_value c Hc) as Hv.
    specialize (IH (10 * acc + (Z.of_N (N_of_ascii c) - 48))%Z Hs ltac:(lia)).
    change (strlen (String c s)) with (S (strlen s)).
    rewrite Nat2Z.inj_succ, Z.pow_succ_r by lia.
    assert (0 < 10 ^ Z.of_nat (strlen s))%Z by (apply Z.pow_pos_nonneg; lia).
    nia.
Qed.

Lemma atoi_exact (s : string) :
  is_numeric s = true -> strlen s <= 9 -> atoi s = digits_value 0 s.
Proof.
  intros Hs Hlen. unfold atoi, long_to_int, LONG_MAX.
  pose proof (digits_value_bound s 0 Hs ltac:(lia)) as [H1 H2].
  assert (10 ^ Z.of_nat (strlen s) <= 10 ^ 9)%Z
    by (apply Z.pow_le_mono_r; lia).
  rewrite Z.min_r by lia.
  rewrite Z.mod_small by lia. lia.
Qed.

Lemma is_unsigned_short_numeric (s : string) :
  is_unsigned_short s = true -> is_numeric s = true.
Proof. unfold is_unsigned_short. by destruct (is_numeric s). Qed.

Lemma is_unsigned_short_valid (s : string) :
  strlen s <= 9 -> (is_unsigned_short s = true <-> valid_port s).
Proof.
  intros Hlen. unfold is_unsigned_short, valid_port, USHRT_MAX.
  destruct (is_numeric s) eqn:Hs; simpl; [|by intuition].
  rewrite (atoi_exact s Hs Hlen).
  destruct (Z.leb_spec (digits_value 0 s) 0), (Z.gtb_spec (digits_value 0 s) 65535);
    simpl; intuition (try done; try lia).
Qed.

End UtilFacts.

(** ** The registry: command recognition *)

Module MapperFacts.
Import Libc Util Mapper Order Bytes Registry LibcFacts UtilFacts.

Lemma strlen_app (s1 s2 : string) : strlen (s1 +:+ s2) = strlen s1 + strlen s2.
Proof. induction s1 as [|c s1 IH]; simpl; [done|]. unfold strlen in *. simpl. lia. Qed.

Lemma char_at_app_r (s1 s2 : string) (i : nat) :
  char_at (s1 +:+ s2) (strlen s1 + i) = char_at s2 i.
Proof. induction s1 as [|c s1 IH]; simpl; [done|]. apply IH. Qed.

Lemma char_at_contains (c : ascii) (s : string) (i : nat) :
  contains c s = false -> i < strlen s -> char_at s i <> c.
Proof.
  revert i; induction s as [|x s IH]; intros i Hc Hi; [simpl in Hi; lia|].
  simpl in Hc. apply orb_false_elim in Hc as [Hx Hc].
  destruct i as [|i].
  - by apply Ascii.eqb_neq.
  - apply (IH i Hc). unfold strlen in *. simpl in Hi. lia.
Qed.

Lemma command_lexer_add_inv (line : string) :
  (command_lexer line).1 = ADD_MAPPING ->
  exists name port, add_command (trim_newline line) name port.
Proof.
  unfold command_lexer. simpl. set (t := trim_newline line).
  destruct (bool_decide (strcmp t "@" = Eq)); [done|].
  destruct (Ascii.eqb (char_at t 0) "?"); [done|].
  destruct (_ && _) eqn:Hc; [intros _|done].
  repeat (apply andb_prop in Hc as [Hc ?]).
  destruct t as [|c rest] eqn:Et; [done|].
  change (char_at (String c rest) 0) with c in Hc.
  apply Ascii.eqb_eq in Hc as ->.
  match goal with H : (count_occurrences _ ":" =? 1) = true |- _ =>
    apply Nat.eqb_eq in H; simpl in H;
    destruct (count_one_split ":" rest H) as (name & port & -> & Hn & Hp) end.
  match goal with H : (count_occurrences _ (String CR _) =? 0) = true |- _ =>
    apply Nat.eqb_eq, count_two_zero in H as [Hcr _] end.
  exists name, port. repeat split; auto.
  - intros ->.
    match goal with H : negb (Ascii.eqb (char_at _ 1) ":") = true |- _ =>
      by rewrite Ascii.eqb_refl in H end.
  - intros ->.
    match goal with
      H : negb (Ascii.eqb (char_at ?s (strlen ?s - 1)) ":") = true |- _ =>
        replace (strlen s - 1) with (strlen (String "!" name) + 0) in H;
        [change s with (String "!" name +:+ String ":" EmptyString) in H;
         rewrite char_at_app_r in H; by rewrite Ascii.eqb_refl in H|]
    end.
    change (String "!" name +:+ String ":" EmptyString)
      with (String "!" (name +:+ String ":" EmptyString)).
    change (strlen (String "!" (name +:+ String ":" EmptyString)))
      with (S (strlen (name +:+ String ":" EmptyString))).
    rewrite strlen_app. unfold strlen. simpl. lia.
Qed.

Lemma command_lexer_add (line name port : string) :
  add_command (trim_newline line) name port ->
  command_lexer line = (ADD_MAPPING, trim_newline line).
Proof.
  intros (Et & Hn & Hp & Hcn & Hcp & Hcr).
  unfold command_lexer. f_equal.
  pose proof (trim_newline_no_LF line) as Hlf.
  rewrite Et in *.
  rewrite bool_decide_eq_false_2 by done.
  change (char_at (String "!" (name +:+ String ":" port)) 0) with "!"%char.
  change (Ascii.eqb "!" "?") with false. cbv iota.
  change (Ascii.eqb "!" "!") with true.
  assert (count_occurrences (String "!" (name +:+ String ":" port)) ":" = 1) as ->.
  { simpl. rewrite count_occurrences_app. simpl.
    apply count_one_zero in Hcn, Hcp. rewrite Hcn, Hcp. done. }
  assert (3 < strlen (String "!" (name +:+ String ":" port))) as Hlen.
  { change (strlen (String "!" (name +:+ String ":" port)))
      with (S (strlen (name +:+ String ":" port))).
    rewrite strlen_app. change (strlen (String ":" port)) with (S (strlen port)).
    destruct name; [done|]. destruct port; [done|]. unfold strlen; simpl. lia. }
  apply Nat.ltb_lt in Hlen as Hlen'. rewrite Hlen'.
  assert (char_at (String "!" (name +:+ String ":" port)) 1 <> ":"%char) as H1.
  { change (char_at (String "!" (name +:+ String ":" port)) 1)
      with (char_at (name +:+ String ":" port) 0).
    destruct name as [|x name]; [done|]. simpl in Hcn.
    apply orb_false_elim in Hcn as [Hx _]. by apply Ascii.eqb_neq. }
  apply Ascii.eqb_neq in H1. rewrite H1.
  assert (char_at (String "!" (name +:+ String ":" port))
            (strlen (String "!" (name +:+ String ":" port)) - 1) <> ":"%char) as H2.
  { change (String "!" (name +:+ String ":" port))
      with (String "!" name +:+ String ":" port) at 1 2.
    rewrite strlen_app.
    replace (strlen (String "!" name) + strlen (String ":" port) - 1)
      with (strlen (String "!" name) + strlen port)
      by (unfold strlen; simpl; lia).
    rewrite char_at_app_r.
    destruct port as [|y port]; [done|].
    change (char_at (String ":" (String y port)) (strlen (String y port)))
      with (char_at (String y port) (strlen port)).
    apply char_at_contains; [done|]. unfold strlen; simpl; lia. }
  apply Ascii.eqb_neq in H2. rewrite H2.
  assert (count_occurrences (String "!" (name +:+ String ":" port))
            (String CR (String LF EmptyString)) = 0) as ->.
  { by apply count_two_zero. }
  done.
Qed.

Lemma command_lexer_query (line name : string) :
  trim_newline line = String "?" name ->
  command_lexer line = (QUERY_MAPPING, String "?" name).
Proof.
  intros Et. unfold command_lexer. rewrite Et. f_equal.
Qed.

Lemma command_lexer_list (line : string) :
  trim_newline line = "@" ->
  command_lexer line = (LIST_MAPPINGS, "@").
Proof. intros Et. unfold command_lexer. by rewrite Et. Qed.

Lemma command_lexer_list_inv (line : string) :
  (command_lexer line).1 = LIST_MAPPINGS -> trim_newline line = "@".
Proof.
  unfold command_lexer. simpl. case_bool_decide as H.
  - intros _. by apply strcmp_eq.
  - by repeat case_match.
Qed.

Lemma command_lexer_query_inv (line : string) :
  (command_lexer line).1 = QUERY_MAPPING ->
  exists name, trim_newline line = String "?" name.
Proof.
  unfold command_lexer. simpl. case_bool_decide as H; [done|].
  destruct (trim_newline line) as [|c rest]; [by repeat case_match|].
  change (char_at (String c rest) 0) with c.
  destruct (Ascii.eqb_spec c "?") as [->|]; [eauto|by repeat case_match].
Qed.

(** *** Looking a name up *)

Lemma find_name_list_find (name : string) (slots : list MapEntry) (i : nat) :
  find_name name slots i
  = match list_find (named name) slots with
    | Some (k, _) => Z.of_nat (i + k)
    | None => ENTRY_NOT_FOUND
    end.
Proof.
  revert i; induction slots as [|e slots IH]; intros i; simpl; [done|].
  unfold named at 1. case_bool_decide as Hc; case_decide as Hd.
  - f_equal. lia.
  - apply strcmp_eq in Hc. congruence.
  - exfalso. apply Hc. rewrite Hd. apply strcmp_refl.
  - rewrite IH. destruct (list_find (named name) slots) as [[k e']|]; simpl; [|done].
    f_equal. lia.
Qed.

Lemma name_index_list_find (m : Mapping) (name : string) :
  name_index_in_mapping m name
  = match list_find (named name) (live m) with
    | Some (k, _) => Z.of_nat k
    | None => ENTRY_NOT_FOUND
    end.
Proof. unfold name_index_in_mapping. by rewrite find_name_list_find. Qed.

Lemma absent_iff (m : Mapping) (name : string) :
  absent m name <-> name ∉ airportName <$> live m.
Proof.
  unfold absent. rewrite name_index_list_find.
  destruct (list_find (named name) (live m)) as [[k e]|] eqn:Hf.
  - apply list_find_Some in Hf as (Hk & He & _). split.
    + unfold ENTRY_NOT_FOUND. lia.
    + intros Hn. exfalso. apply Hn. apply list_elem_of_fmap.
      exists e. split; [done|]. by eapply list_elem_of_lookup_2.
  - apply list_find_None in Hf. split; [|done]. intros _ Hin.
    apply list_elem_of_fmap in Hin as (e & -> & He).
    rewrite Forall_forall in Hf. by apply (Hf e He).
Qed.

(** *** The query command *)

Lemma print_queried_mapping_reply (m : Mapping) (name : string) :
  print_queried_mapping m (String "?" name) = Done (query_reply m name).
Proof.
  unfold print_queried_mapping, query_reply. simpl.
  rewrite name_index_list_find.
  destruct (list_find (named name) (live m)) as [[k e]|] eqn:Hf; [|done].
  apply list_find_Some in Hf as (Hk & _ & _).
  apply lookup_take_Some in Hk as [Hk _].
  assert ((Z.of_nat k =? ENTRY_NOT_FOUND)%Z = false) as ->
    by (apply Z.eqb_neq; unfold ENTRY_NOT_FOUND; lia).
  simpl. by rewrite Nat2Z.id, Hk.
Qed.

Lemma dispatch_query (m : Mapping) (line name : string) :
  trim_newline line = String "?" name ->
  dispatch m line = Done (m, query_reply m name).
Proof.
  intros Et. unfold dispatch. rewrite (command_lexer_query line name Et).
  by rewrite print_queried_mapping_reply.
Qed.

(** *** The add command *)

Lemma add_map_entry_parsed (m : Mapping) (t name port : string) :
  add_command t name port ->
  add_map_entry m t
  = if negb (is_unsigned_short port) then Done m
    else if negb (strlen name <? MAX_AIRPORT_ID_LENGTH) then MemoryFault
    else if negb (strlen port <? PORT_NUMBER_LENGTH) then MemoryFault
    else if bool_decide (absent m name) then
           if entryCount m <? length (entries m) then Done (push m name port)
           else MemoryFault
         else Done m.
Proof.
  intros (-> & Hn & Hp & Hcn & Hcp & _).
  unfold add_map_entry. simpl.
  rewrite (strtok_first ":" name port Hn Hcn), (strtok_last ":" port Hp Hcp).
  destruct (is_unsigned_short port); simpl; [|done].
  unfold strcpy.
  destruct (strlen name <? MAX_AIRPORT_ID_LENGTH); simpl; [|done].
  destruct (strlen port <? PORT_NUMBER_LENGTH); simpl; [|done].
  unfold absent. case_bool_decide as Ha.
  - by rewrite Ha.
  - apply Z.eqb_neq in Ha. by rewrite Ha.
Qed.

Lemma dispatch_add (m : Mapping) (line name port : string) :
  add_command (trim_newline line) name port ->
  dispatch m line
  = let! m' := add_map_entry m (trim_newline line) in Done (m', EmptyString).
Proof.
  intros Hc. unfold dispatch. by rewrite (command_lexer_add line name port Hc).
Qed.

Lemma dispatch_list (m : Mapping) (line : string) :
  trim_newline line = "@" -> dispatch m line = Done (print_mappings m).
Proof. intros Et. unfold dispatch. by rewrite (command_lexer_list line Et). Qed.

Lemma dispatch_unknown (m : Mapping) (line : string) :
  (command_lexer line).1 = UNKNOWN_COMMAND ->
  dispatch m line = Done (m, EmptyString).
Proof.
  intros Hl. unfold dispatch. destruct (command_lexer line) as [c t].
  simpl in Hl. by subst c.
Qed.

Lemma dispatch_step (m m' : Mapping) (line sent : string) :
  dispatch m line = Done (m', sent) <-> step m line m' sent.
Proof.
  split.
  - intros Hd.
    destruct (command_lexer line).1 eqn:Hl.
    + rewrite (dispatch_unknown m line Hl) in Hd. injection Hd as <- <-.
      by apply step_unknown.
    + apply command_lexer_list_inv in Hl as Et.
      rewrite (dispatch_list m line Et) in Hd. injection Hd as <- <-.
      by apply step_list.
    + apply command_lexer_query_inv in Hl as [name Et].
      rewrite (dispatch_query m line name Et) in Hd. injection Hd as <- <-.
      by apply step_query.
    + apply command_lexer_add_inv in Hl as (name & port & Hc).
      rewrite (dispatch_add m line name port Hc) in Hd.
      rewrite (add_map_entry_parsed m _ name port Hc) in Hd.
      destruct (is_unsigned_short port) eqn:Hp; simpl in Hd;
        [|injection Hd as <- <-; by eapply step_add_bad_port].
      destruct (Nat.ltb_spec (strlen name) MAX_AIRPORT_ID_LENGTH); simpl in Hd; [|done].
      destruct (Nat.ltb_spec (strlen port) PORT_NUMBER_LENGTH); simpl in Hd; [|done].
      case_bool_decide as Ha.
      * destruct (Nat.ltb_spec (entryCount m) (length (entries m))); simpl in Hd; [|done].
        injection Hd as <- <-. by eapply step_add_new.
      * injection Hd as <- <-. by eapply step_add_known.
  - intros [Et|name Et|name port Hc Hp Hn Hl Ha Hfull|name port Hc Hp Hn Hl Ha
           |name port Hc Hp|Hl].
    + by rewrite (dispatch_list m line Et).
    + by apply dispatch_query.
    + rewrite (dispatch_add m line name port Hc), (add_map_entry_parsed m _ name port Hc).
      rewrite Hp. simpl.
      apply Nat.ltb_lt in Hn as ->, Hl as ->, Hfull as ->. simpl.
      by rewrite bool_decide_eq_true_2.
    + rewrite (dispatch_add m line name port Hc), (add_map_entry_parsed m _ name port Hc).
      rewrite Hp. simpl.
      apply Nat.ltb_lt in Hn as ->, Hl as ->. simpl.
      by rewrite bool_decide_eq_false_2.
    + rewrite (dispatch_add m line name port Hc), (add_map_entry_parsed m _ name port Hc).
      by rewrite Hp.
    + by apply dispatch_unknown.
Qed.

(** A dispatch stays within defined behaviour when the table has a free
    slot and the parts of an add command fit the fields of an entry. *)
Lemma dispatch_defined (m : Mapping) (line : string) :
  entryCount m < length (entries m) ->
  (forall name port,
      add_command (trim_newline line) name port ->
      strlen name < MAX_AIRPORT_ID_LENGTH /\ strlen port < PORT_NUMBER_LENGTH) ->
  exists m' sent, dispatch m line = Done (m', sent).
Proof.
  intros Hfree Hfit.
  destruct (command_lexer line).1 eqn:Hl.
  - exists m, EmptyString. by apply dispatch_unknown.
  - apply command_lexer_list_inv in Hl. eexists _, _. by apply dispatch_list.
  - apply command_lexer_query_inv in Hl as [name Hl]. eexists _, _.
    by apply dispatch_query.
  - apply command_lexer_add_inv in Hl as (name & port & Hc).
    destruct (Hfit name port Hc) as [Hn Hp].
    destruct (is_unsigned_short port) eqn:Hport.
    + destruct (decide (absent m name)) as [Ha|Ha].
      * eexists _, _. apply dispatch_step. by eapply step_add_new.
      * eexists _, _. apply dispatch_step. by eapply step_add_known.
    + eexists _, _. apply dispatch_step. by eapply step_add_bad_port.
Qed.

(** *** What a dispatch keeps *)

Lemma live_push (m : Mapping) (name port : string) :
  entryCount m < length (entries m) ->
  live (push m name port)
  = live m ++ [{| airportName := name; portNumber := port |}].
Proof.
  intros Hlt. unfold live, push. simpl.
  erewrite take_S_r by (by apply list_lookup_insert_eq).
  by rewrite take_insert_ge.
Qed.

Lemma live_sort_perm (m : Mapping) : live (sort_mapping m) ≡ₚ live m.
Proof. apply exchange_sort_take_perm. Qed.

Lemma live_sort_sorted (m : Mapping) :
  StronglySorted (key_le airportName) (live (sort_mapping m)).
Proof. apply exchange_sort_sorted. Qed.

Lemma step_entries_length (m m' : Mapping) (line sent : string) :
  step m line m' sent -> length (entries m') = length (entries m).
Proof.
  intros []; try done.
  - apply exchange_sort_length.
  - apply length_insert.
Qed.

Lemma step_entryCount (m m' : Mapping) (line sent : string) :
  step m line m' sent ->
  entryCount m' = entryCount m \/
  (entryCount m' = S (entryCount m) /\ entryCount m < length (entries m)).
Proof. intros []; simpl; auto. Qed.

Lemma step_unique_names (m m' : Mapping) (line sent : string) :
  unique_names m -> step m line m' sent -> unique_names m'.
Proof.
  unfold unique_names. intros Hu [ | | name port _ _ _ _ Ha Hfull| | | ]; try done.
  - by rewrite live_sort_perm.
  - rewrite live_push, fmap_app by done. simpl.
    apply NoDup_app. repeat split; [done| |apply NoDup_singleton].
    intros x Hx ->%list_elem_of_singleton. by apply absent_iff in Ha.
Qed.

Lemma registered_not_absent (m : Mapping) (name port : string) :
  registered m name port -> ~ absent m name.
Proof.
  intros [Hin _] Ha. apply absent_iff in Ha. apply Ha.
  apply list_elem_of_fmap. eexists. split; [|exact Hin]. done.
Qed.

Lemma step_registered (m m' : Mapping) (line sent name port : string) :
  registered m name port -> step m line m' sent -> registered m' name port.
Proof.
  intros Hr [ | | name' port' _ _ _ _ Ha Hfull| | | ]; try done.
  - destruct Hr as [Hin Hu]. split.
    + by rewrite live_sort_perm.
    + intros e He. rewrite live_sort_perm in He. by apply Hu.
  - assert (name' <> name) as Hne.
    { intros ->. by apply (registered_not_absent m name port). }
    destruct Hr as [Hin Hu]. unfold registered. rewrite live_push by done. split.
    + apply elem_of_app. by left.
    + intros e [He| ->%list_elem_of_singleton]%elem_of_app Hname; [by apply Hu|done].
Qed.

Lemma push_registered (m : Mapping) (name port : string) :
  absent m name -> entryCount m < length (entries m) ->
  registered (push m name port) name port.
Proof.
  intros Ha Hlt. rewrite absent_iff in Ha. unfold registered.
  rewrite live_push by done. split.
  - apply elem_of_app. right. by apply list_elem_of_singleton.
  - intros e [He| ->%list_elem_of_singleton]%elem_of_app Hname; [|done].
    exfalso. apply Ha. apply list_elem_of_fmap. eauto.
Qed.

Lemma registered_query_reply (m : Mapping) (name port : string) :
  registered m name port ->
  query_reply m name = port +:+ String LF EmptyString.
Proof.
  intros [Hin Hu]. unfold query_reply.
  destruct (list_find (named name) (live m)) as [[k e]|] eqn:Hf.
  - apply list_find_Some in Hf as (Hk & He & _).
    rewrite (Hu e); [done| |done]. by eapply list_elem_of_lookup_2.
  - apply list_find_None in Hf. rewrite Forall_forall in Hf.
    by destruct (Hf _ Hin).
Qed.

(** *** Runs of dispatches *)

Lemma serve_cons_inv (m m' : Mapping) (line : string) (rest replies : list string) :
  serve m (line :: rest) = Done (m', replies) ->
  exists m1 sent replies',
    dispatch m line = Done (m1, sent) /\
    serve m1 rest = Done (m', replies') /\ replies = sent :: replies'.
Proof.
  simpl. destruct (dispatch m line) as [[m1 sent]| |]; simpl; [|done..].
  destruct (serve m1 rest) as [[m2 replies']| |] eqn:Hs; simpl; [|done..].
  intros [= <- <-]. by exists m1, sent, replies'.
Qed.

(** A property kept by every dispatch is kept by every run. *)
Lemma serve_invariant (P : Mapping -> Prop) :
  (forall m line m' sent, P m -> step m line m' sent -> P m') ->
  forall messages m m' replies,
    P m -> serve m messages = Done (m', replies) -> P m'.
Proof.
  intros Hstep. induction messages as [|line rest IH]; intros m m' replies HP Hs.
  - by injection Hs as <- _.
  - apply serve_cons_inv in Hs as (m1 & sent & replies' & Hd & Hs & _).
    apply dispatch_step in Hd. eapply IH; [|exact Hs]. eauto.
Qed.

Lemma handle_connections_live (garbage : nat -> MapEntry) :
  live (handle_connections garbage) = [].
Proof. done. Qed.

Lemma handle_connections_length (garbage : nat -> MapEntry) :
  length (entries (handle_connections garbage)) = MAX_MAP_ENTRIES.
Proof.
  change (length (garbage <$> seq 0 MAX_MAP_ENTRIES) = MAX_MAP_ENTRIES).
  by rewrite length_fmap, length_seq.
Qed.

Lemma reachable_unique_names (garbage : nat -> MapEntry) (messages : list string)
    (m : Mapping) (replies : list string) :
  serve (handle_connections garbage) messages = Done (m, replies) ->
  unique_names m.
Proof.
  apply (serve_invariant unique_names).
  - intros. by eapply step_unique_names.
  - unfold unique_names. rewrite handle_connections_live. constructor.
Qed.

(** The two parts of an add command are determined by its text. *)
Lemma add_command_inj (n1 a1 n2 a2 : string) :
  n1 +:+ String ":" a1 = n2 +:+ String ":" a2 ->
  contains ":" n2 = false -> contains ":" a2 = false ->
  n1 = n2 /\ a1 = a2.
Proof.
  revert n2; induction n1 as [|x n1 IH]; intros [|y n2]; simpl; intros He Hn Ha.
  - by injection He.
  - injection He as <- _. by rewrite Ascii.eqb_refl in Hn.
  - injection He as -> <-. rewrite contains_app in Ha. simpl in Ha.
    by rewrite orb_true_r in Ha.
  - injection He as -> He. apply orb_false_elim in Hn as [_ Hn].
    destruct (IH n2 He Hn Ha) as [-> ->]. done.
Qed.

Lemma add_command_text (t name port n a : string) :
  add_command t name port -> t = String "!" (n +:+ String ":" a) ->
  name = n /\ port = a.
Proof.
  intros (Et & _ & _ & Hn & Ha & _) Et'. rewrite Et in Et'.
  injection Et' as Et'. symmetry in Et'.
  destruct (add_command_inj _ _ _ _ Et' Hn Ha) as [-> ->]. done.
Qed.

(** An add that made the table grow registered its name and port. *)
Lemma accepted_add_registered (m m1 : Mapping) (line sent n a : string) :
  trim_newline line = String "!" (n +:+ String ":" a) ->
  dispatch m line = Done (m1, sent) ->
  entryCount m1 = S (entryCount m) ->
  absent m n /\ m1 = push m n a /\ registered m1 n a.
Proof.
  intros Et Hd Hc. apply dispatch_step in Hd.
  destruct Hd as [ |? | name port Hadd _ _ _ Ha Hfull| | | ];
    try (simpl in Hc; lia).
  destruct (add_command_text _ _ _ _ _ Hadd Et) as [-> ->].
  repeat split; auto; by apply push_registered.
Qed.

(** A message that does not add [name] leaves [name] absent. *)
Lemma step_absent (m m' : Mapping) (line sent name : string) :
  (forall a, trim_newline line <> String "!" (name +:+ String ":" a)) ->
  absent m name -> step m line m' sent -> absent m' name.
Proof.
  intros Hline Ha [ | | name' port' Hadd _ _ _ _ Hfull| | | ]; try done.
  - rewrite absent_iff in *. by rewrite live_sort_perm.
  - rewrite absent_iff in *. rewrite live_push, fmap_app by done.
    intros [Hin| ->%list_elem_of_singleton]%elem_of_app; [done|].
    destruct Hadd as [Et _]. by apply (Hline port').
Qed.

Lemma never_added_absent (garbage : nat -> MapEntry) (messages : list string)
    (m : Mapping) (replies : list string) (name : string) :
  (forall msg a, msg ∈ messages ->
                 trim_newline msg <> String "!" (name +:+ String ":" a)) ->
  serve (handle_connections garbage) messages = Done (m, replies) ->
  absent m name.
Proof.
  assert (absent (handle_connections garbage) name) as H0.
  { apply absent_iff. rewrite handle_connections_live. apply not_elem_of_nil. }
  revert H0. generalize (handle_connections garbage) as m0.
  revert replies.
  induction messages as [|line rest IH]; intros replies m0 H0 Hm Hs.
  - by injection Hs as <- _.
  - apply serve_cons_inv in Hs as (m1 & sent & replies' & Hd & Hs & _).
    apply dispatch_step in Hd.
    apply (IH replies' m1); [| |done].
    + eapply step_absent; [|done|done].
      intros a. apply Hm. by left.
    + intros msg a Hin. apply Hm. by right.
Qed.

Lemma absent_query_reply (m : Mapping) (name : string) :
  absent m name -> query_reply m name = String ";" (String LF EmptyString).
Proof.
  rewrite absent_iff. intros Ha. unfold query_reply.
  destruct (list_find (named name) (live m)) as [[k e]|] eqn:Hf; [|done].
  apply list_find_Some in Hf as (Hk & He & _).
  exfalso. apply Ha. apply list_elem_of_fmap. exists e. split; [done|].
  by eapply list_elem_of_lookup_2.
Qed.

(** *** What the table holds after a run *)

Lemma valid_add_unique (line n q name port : string) :
  valid_add line n q -> valid_add line name port -> name = n /\ port = q.
Proof.
  intros [Hc _] [Hc' _]. destruct Hc as (Et & _).
  by apply (add_command_text _ _ _ _ _ Hc' Et).
Qed.

Lemma accepted_add_cons (line : string) (rest : list string) (name port : string) :
  accepted_add (line :: rest) name port
  <-> valid_add line name port \/
      ((forall q, ~ valid_add line name q) /\ accepted_add rest name port).
Proof.
  split.
  - intros ([|first before] & l & after & Heq & Hv & Hfirst).
    + injection Heq as -> ->. by left.
    + injection Heq as -> ->. right. split.
      * intros q. apply Hfirst. by left.
      * exists before, l, after. split; [done|]. split; [done|].
        intros earlier q Hin. apply Hfirst. by right.
  - intros [Hv|[Hno (before & l & after & -> & Hv & Hfirst)]].
    + exists [], line, rest. split; [done|]. split; [done|].
      intros earlier q Hin. by apply not_elem_of_nil in Hin.
    + exists (line :: before), l, after. split; [done|]. split; [done|].
      intros earlier q [->|Hin]%elem_of_cons; [apply Hno|by apply Hfirst].
Qed.

Lemma accepted_add_nil (name port : string) : ~ accepted_add [] name port.
Proof. intros (before & x & after & Heq & _). by destruct before. Qed.

Lemma registered_perm (m m' : Mapping) (name port : string) :
  live m' ≡ₚ live m -> registered m' name port <-> registered m name port.
Proof.
  intros Hp. unfold registered. rewrite Hp.
  split; intros [Hin Hu]; (split; [done|]); intros e He; apply Hu;
    [by rewrite Hp|by rewrite <- Hp].
Qed.

Lemma absent_perm (m m' : Mapping) (name : string) :
  live m' ≡ₚ live m -> absent m' name <-> absent m name.
Proof. intros Hp. rewrite !absent_iff. by rewrite Hp. Qed.

Lemma registered_push (m : Mapping) (n q name port : string) :
  absent m n -> entryCount m < length (entries m) ->
  registered (push m n q) name port
  <-> registered m name port \/ (name = n /\ port = q).
Proof.
  intros Ha Hroom. split.
  - intros [Hin Hu]. rewrite live_push in Hin, Hu by done.
    destruct (decide (name = n)) as [->|Hne].
    + right. split; [done|].
      assert ({| airportName := n; portNumber := q |}
              = {| airportName := n; portNumber := port |}) as [= ->]; [|done].
      apply Hu; [|done]. apply elem_of_app. right. by apply list_elem_of_singleton.
    + left. apply elem_of_app in Hin as [Hin|[= -> _]%list_elem_of_singleton];
        [|done].
      split; [done|]. intros e He. apply Hu. apply elem_of_app. by left.
  - intros [Hr|[-> ->]]; [|by apply push_registered].
    assert (n <> name) as Hne.
    { intros ->. by apply (registered_not_absent m name port). }
    destruct Hr as [Hin Hu]. unfold registered. rewrite live_push by done. split.
    + apply elem_of_app. by left.
    + intros e [He| ->%list_elem_of_singleton]%elem_of_app Hname; [by apply Hu|done].
Qed.

Lemma push_absent (m : Mapping) (n q name : string) :
  entryCount m < length (entries m) ->
  absent (push m n q) name <-> absent m name /\ name <> n.
Proof.
  intros Hroom. rewrite !absent_iff, live_push, fmap_app by done. simpl.
  rewrite not_elem_of_app, list_elem_of_singleton. done.
Qed.

(** What one dispatch does to the table: it adds the entry of a valid add
    command for a name that was absent, or it leaves the entries in use
    as they were, up to their order. *)
Lemma step_table (m m' : Mapping) (line sent : string) :
  step m line m' sent ->
  (exists n q, valid_add line n q /\ absent m n /\
               entryCount m < length (entries m) /\ m' = push m n q) \/
  (live m' ≡ₚ live m /\ forall name port, valid_add line name port -> ~ absent m name).
Proof.
  intros [Et|name Et|n q Hadd Hport _ _ Ha Hroom|n q Hadd Hport _ _ Ha
          |n q Hadd Hport|Hlex].
  - right. split; [apply live_sort_perm|].
    intros name port [(Et' & _) _]. rewrite Et in Et'. discriminate.
  - right. split; [done|].
    intros n port [(Et' & _) _]. rewrite Et in Et'. discriminate.
  - left. by exists n, q.
  - right. split; [done|]. intros name port Hv.
    by destruct (valid_add_unique line n q name port (conj Hadd Hport) Hv) as [-> _].
  - right. split; [done|]. intros name port [Hc Hp].
    destruct Hadd as (Et & _).
    destruct (add_command_text _ _ _ _ _ Hc Et) as [-> ->]. congruence.
  - right. split; [done|]. intros name port [Hc _].
    rewrite (command_lexer_add line name port Hc) in Hlex. discriminate.
Qed.

(** The table after a run: what was registered before, and for every
    other name the first valid add command of the run. *)
Lemma serve_accepted (messages : list string) (m m' : Mapping)
    (replies : list string) (name port : string) :
  serve m messages = Done (m', replies) ->
  registered m' name port
  <-> registered m name port \/ (absent m name /\ accepted_add messages name port).
Proof.
  revert m replies. induction messages as [|line rest IH]; intros m replies Hs.
  - injection Hs as <- _. split; [by left|].
    intros [H|[_ H]]; [done|]. by apply accepted_add_nil in H.
  - apply serve_cons_inv in Hs as (m1 & sent & replies' & Hd & Hs & _).
    apply dispatch_step in Hd. rewrite (IH m1 replies' Hs), accepted_add_cons.
    destruct (step_table m m1 line sent Hd)
      as [(n & q & Hv & Ha & Hroom & ->)|[Hp Hknown]].
    + rewrite (registered_push m n q name port Ha Hroom).
      rewrite (push_absent m n q name Hroom).
      destruct (decide (name = n)) as [->|Hne].
      * split.
        -- intros [[Hr|[_ ->]]|[[_ Hne] _]]; [by left| |done].
           right. split; [done|]. by left.
        -- intros [Hr|[_ [Hv'|[Hno _]]]]; [by left; left| |by destruct (Hno q)].
           destruct (valid_add_unique line n q n port Hv Hv') as [_ ->].
           left. by right.
      * split.
        -- intros [[Hr|[-> _]]|[[Ha' _] Hacc]]; [by left|done|].
           right. split; [done|]. right. split; [|done].
           intros q' Hv'. by destruct (valid_add_unique line n q name q' Hv Hv').
        -- intros [Hr|[Ha' [Hv'|[_ Hacc]]]]; [by left; left| |by right].
           by destruct (valid_add_unique line n q name port Hv Hv').
    + rewrite (registered_perm m m1 name port Hp), (absent_perm m m1 name Hp).
      split.
      * intros [Hr|[Ha Hacc]]; [by left|]. right. split; [done|]. right.
        split; [|done]. intros q' Hv'. by apply (Hknown name q' Hv').
      * intros [Hr|[Ha [Hv'|[_ Hacc]]]]; [by left| |by right].
        by destruct (Hknown name port Hv').
Qed.

(** The names in the table after a run: those that were there, and those
    of the valid add commands of the run. *)
Lemma serve_names (messages : list string) (m m' : Mapping)
    (replies : list string) (name : string) :
  serve m messages = Done (m', replies) ->
  ~ absent m' name
  <-> ~ absent m name \/
      exists line port, line ∈ messages /\ valid_add line name port.
Proof.
  revert m replies. induction messages as [|line rest IH]; intros m replies Hs.
  - injection Hs as <- _. split; [by left|].
    intros [H|(l & q & Hin & _)]; [done|]. by apply not_elem_of_nil in Hin.
  - apply serve_cons_inv in Hs as (m1 & sent & replies' & Hd & Hs & _).
    apply dispatch_step in Hd. rewrite (IH m1 replies' Hs).
    destruct (step_table m m1 line sent Hd)
      as [(n & q & Hv & Ha & Hroom & ->)|[Hp Hknown]].
    + rewrite (push_absent m n q name Hroom). split.
      * intros [Hin|(l & q' & Hin & Hv')].
        -- destruct (decide (name = n)) as [->|Hne].
           ++ right. exists line, q. split; [by left|done].
           ++ left. intros Ha'. by apply Hin.
        -- right. exists l, q'. split; [by right|done].
      * intros [Hin|(l & q' & [->|Hin]%elem_of_cons & Hv')].
        -- left. intros [Ha' _]. by apply Hin.
        -- left. intros [_ Hne].
           by destruct (valid_add_unique line n q name q' Hv Hv').
        -- right. by exists l, q'.
    + rewrite (absent_perm m m1 name Hp). split.
      * intros [Hin|(l & q' & Hin & Hv')]; [by left|].
        right. exists l, q'. split; [by right|done].
      * intros [Hin|(l & q' & [->|Hin]%elem_of_cons & Hv')]; [by left| |].
        -- left. by apply (Hknown name q').
        -- right. by exists l, q'.
Qed.

End MapperFacts.

(** ** The service node *)

Module ControlFacts.
Import Libc Util Control Order Bytes Node LibcFacts UtilFacts.

Lemma command_lexer_log (line : string) :
  trim_newline line = "log" -> command_lexer line = (LOG_COMMAND, "log").
Proof. intros Et. unfold command_lexer. by rewrite Et. Qed.

Lemma command_lexer_visit (line : string) :
  trim_newline line <> "log" ->
  command_lexer line = (RECORD_VISIT_SEND_INFO, trim_newline line).
Proof.
  intros Hne. unfold command_lexer. rewrite bool_decide_eq_false_2; [done|].
  by intros H%strcmp_eq.
Qed.

Lemma dispatch_log (info : string) (v : Visitors) (line : string) :
  trim_newline line = "log" -> dispatch info v line = Done (print_all_visitors v).
Proof. intros Et. unfold dispatch. by rewrite (command_lexer_log line Et). Qed.

Lemma record_visit_cases (v : Visitors) (id : string) :
  record_visit v id
  = if negb (strlen id <? MAX_AIRCRAFT_NAME_LENGTH) then MemoryFault
    else if visitorCount v <? length (entries v) then Done (push v id)
    else MemoryFault.
Proof.
  unfold record_visit, strcpy.
  by destruct (strlen id <? MAX_AIRCRAFT_NAME_LENGTH).
Qed.

Lemma dispatch_visit (info : string) (v : Visitors) (line : string) :
  trim_newline line <> "log" ->
  dispatch info v line
  = let! v' := record_visit v (trim_newline line) in
    Done (v', info +:+ String LF EmptyString).
Proof. intros Hne. unfold dispatch. by rewrite (command_lexer_visit line Hne). Qed.

Lemma node_dispatch_step (info : string) (v v' : Visitors) (line sent : string) :
  dispatch info v line = Done (v', sent) <-> step info v line v' sent.
Proof.
  split.
  - intros Hd. destruct (decide (trim_newline line = "log")) as [Et|Hne].
    + rewrite (dispatch_log info v line Et) in Hd. injection Hd as <- <-.
      by apply step_log.
    + rewrite (dispatch_visit info v line Hne), record_visit_cases in Hd.
      destruct (Nat.ltb_spec (strlen (trim_newline line)) MAX_AIRCRAFT_NAME_LENGTH);
        simpl in Hd; [|done].
      destruct (Nat.ltb_spec (visitorCount v) (length (entries v)));
        simpl in Hd; [|done].
      injection Hd as <- <-. by apply step_visit.
  - intros [Et|Hne Hlen Hfull].
    + by rewrite (dispatch_log info v line Et).
    + rewrite (dispatch_visit info v line Hne), record_visit_cases.
      by apply Nat.ltb_lt in Hlen as ->, Hfull as ->.
Qed.

(** A dispatch stays within defined behaviour when the log has a free
    slot and the line came from one [fgets] into the command buffer. *)
Lemma node_dispatch_defined (info : string) (v : Visitors) (line : string) :
  visitorCount v < length (entries v) ->
  strlen line < COMMAND_BUFFER_SIZE ->
  exists v' sent, dispatch info v line = Done (v', sent).
Proof.
  intros Hfree Hlen.
  destruct (decide (trim_newline line = "log")) as [Et|Hne].
  - eexists _, _. by apply dispatch_log.
  - eexists _, _. apply node_dispatch_step. apply step_visit; [done| |done].
    assert (strlen (trim_newline line) <= strlen line) as Hle; [|unfold COMMAND_BUFFER_SIZE, MAX_AIRCRAFT_NAME_LENGTH in *; lia].
    clear. induction line as [|c line IH]; simpl; [done|].
    destruct (Ascii.eqb c LF); unfold strlen in *; simpl; lia.
Qed.

Lemma live_push_visit (v : Visitors) (id : string) :
  visitorCount v < length (entries v) ->
  live (push v id) = live v ++ [{| aircraftID := id |}].
Proof.
  intros Hlt. unfold live, push. simpl.
  erewrite take_S_r by (by apply list_lookup_insert_eq).
  by rewrite take_insert_ge.
Qed.

Lemma live_sort_visitors_perm (v : Visitors) : live (sort_visitors v) ≡ₚ live v.
Proof. apply exchange_sort_take_perm. Qed.

Lemma live_sort_visitors_sorted (v : Visitors) :
  StronglySorted (key_le aircraftID) (live (sort_visitors v)).
Proof. apply exchange_sort_sorted. Qed.

Lemma node_step_entries_length (info : string) (v v' : Visitors) (line sent : string) :
  step info v line v' sent -> length (entries v') = length (entries v).
Proof.
  intros []; simpl.
  - apply exchange_sort_length.
  - apply length_insert.
Qed.

Lemma node_serve_cons_inv (info : string) (v v' : Visitors) (line : string)
    (rest replies : list string) :
  serve info v (line :: rest) = Done (v', replies) ->
  exists v1 sent replies',
    dispatch info v line = Done (v1, sent) /\
    serve info v1 rest = Done (v', replies') /\ replies = sent :: replies'.
Proof.
  simpl. destruct (dispatch info v line) as [[v1 sent]| |]; simpl; [|done..].
  destruct (serve info v1 rest) as [[v2 replies']| |] eqn:Hs; simpl; [|done..].
  intros [= <- <-]. by exists v1, sent, replies'.
Qed.

Lemma node_starts_empty (garbage : nat -> VisitorEntry) :
  live (handle_connections garbage) = [].
Proof. done. Qed.

Lemma node_block_length (garbage : nat -> VisitorEntry) :
  length (entries (handle_connections garbage)) = MAX_VISITOR_ENTRIES.
Proof.
  change (length (garbage <$> seq 0 MAX_VISITOR_ENTRIES) = MAX_VISITOR_ENTRIES).
  by rewrite length_fmap, length_seq.
Qed.

(** A run of visits appends one record for each, in order. *)
Lemma serve_visits (info : string) (ids : list string) (v : Visitors) :
  Forall identity ids ->
  visitorCount v + length ids <= length (entries v) ->
  exists v',
    serve info v (visit_line <$> ids)
    = Done (v', replicate (length ids) (info +:+ String LF EmptyString)) /\
    live v' = live v ++ (Build_VisitorEntry <$> ids) /\
    length (entries v') = length (entries v).
Proof.
  revert v; induction ids as [|id ids IH]; intros v Hids Hroom.
  - exists v. simpl. by rewrite app_nil_r.
  - apply Forall_cons in Hids as [(Hlf & Hlog & Hlen) Hids].
    assert (trim_newline (visit_line id) = id) as Et by (by apply trim_newline_line).
    assert (step info v (visit_line id) (push v id) (info +:+ String LF EmptyString))
      as Hstep.
    { rewrite <- Et at 2. apply step_visit; rewrite ?Et; auto.
      - unfold COMMAND_BUFFER_SIZE, MAX_AIRCRAFT_NAME_LENGTH in *. lia.
      - simpl in Hroom. lia. }
    apply node_step_entries_length in Hstep as Hl.
    apply node_dispatch_step in Hstep.
    destruct (IH (push v id) Hids) as (v' & Hs & Hlive & Hl').
    { rewrite Hl. simpl in *. lia. }
    exists v'. cbn [fmap list_fmap serve]. rewrite Hstep. simpl.
    rewrite Hs. simpl. repeat split; [|congruence].
    rewrite Hlive, live_push_visit by (simpl in Hroom; lia).
    by rewrite <- app_assoc.
Qed.

(** *** What the log holds after a run *)

Lemma visits_of_log (line : string) (rest : list string) :
  trim_newline line = "log" -> visits_of (line :: rest) = visits_of rest.
Proof.
  intros Et. unfold visits_of. rewrite fmap_cons, filter_cons, Et.
  by rewrite decide_False by (by intros H; apply H).
Qed.

Lemma visits_of_visit (line : string) (rest : list string) :
  trim_newline line <> "log" ->
  visits_of (line :: rest) = trim_newline line :: visits_of rest.
Proof.
  intros Hne. unfold visits_of. rewrite fmap_cons, filter_cons.
  by rewrite decide_True by done.
Qed.

(** The log after a run: the records it held and one for every message
    of the run that is not the log command. *)
Lemma serve_recorded (info : string) (messages : list string) (v v' : Visitors)
    (replies : list string) :
  serve info v messages = Done (v', replies) ->
  aircraftID <$> live v' ≡ₚ (aircraftID <$> live v) ++ visits_of messages.
Proof.
  revert v replies. induction messages as [|line rest IH]; intros v replies Hs.
  - injection Hs as <- _. by rewrite app_nil_r.
  - apply node_serve_cons_inv in Hs as (v1 & sent & replies' & Hd & Hs & _).
    apply node_dispatch_step in Hd. rewrite (IH v1 replies' Hs).
    destruct Hd as [Et|Hne _ Hroom].
    + by rewrite (visits_of_log line rest Et), (live_sort_visitors_perm v).
    + rewrite (visits_of_visit line rest Hne), live_push_visit, fmap_app by done.
      simpl. by rewrite <- app_assoc.
Qed.

Lemma visits_of_perm (messages messages' : list string) :
  messages ≡ₚ messages' -> visits_of messages ≡ₚ visits_of messages'.
Proof. intros Hp. unfold visits_of. by rewrite Hp. Qed.

End ControlFacts.

(** ** The itinerant client *)

Module RocFacts.
Import Libc Util Roc Order Bytes Client LibcFacts UtilFacts.

Lemma all_resolved_false (names stream : list string) :
  all_resolved names stream = false <->
  exists k, k < length names /\
            (stream !! k = None \/
             exists reply, stream !! k = Some reply /\ trim_newline reply = ";").
Proof.
  revert stream; induction names as [|n names IH]; intros stream; simpl.
  - split; [done|]. intros (k & Hk & _). lia.
  - destruct stream as [|reply stream].
    + split; [|done]. intros _. exists 0. split; [lia|]. by left.
    + rewrite andb_false_iff, IH, negb_false_iff, bool_decide_eq_true. split.
      * intros [Hr|(k & Hk & H)].
        -- exists 0. split; [lia|]. right. by exists reply.
        -- exists (S k). split; [lia|]. done.
      * intros ([|k] & Hk & H).
        -- left. destruct H as [H|(r & [= <-] & Hr)]; [done|done].
        -- right. exists k. split; [lia|done].
Qed.

Lemma all_resolved_length (names stream : list string) :
  all_resolved names stream = true -> length names <= length stream.
Proof.
  revert stream; induction names as [|n names IH]; intros [|reply stream]; simpl;
    try done; try lia.
  intros [_ H]%andb_true_iff. apply IH in H. lia.
Qed.

Lemma copy_destinations_short (args : list string) :
  Forall (fun arg => strlen arg < PORT_NUMBER_LENGTH) args ->
  copy_destinations args
  = Done ((fun arg => {| size := PORT_NUMBER_LENGTH; text := arg |}) <$> args).
Proof.
  induction 1 as [|arg args Hlen _ IH]; simpl; [done|].
  unfold string_or_port_size, strcpy.
  destruct (Nat.leb_spec PORT_NUMBER_LENGTH (strlen arg)); [lia|].
  apply Nat.ltb_lt in Hlen as ->. simpl. by rewrite IH.
Qed.

Lemma connect_to_port_checked (net : Network)
    (connection : string -> option (list string)) (port : string) :
  is_unsigned_short port = true ->
  connect_to_port net connection port = Done (connection port).
Proof. intros Hp. unfold connect_to_port. by rewrite Hp. Qed.

Lemma names_of_cons_port (t : string) (texts : list string) :
  is_unsigned_short t = true -> names_of (t :: texts) = names_of texts.
Proof.
  intros Hp. unfold names_of. rewrite filter_cons.
  by rewrite decide_False by (by rewrite Hp).
Qed.

Lemma names_of_cons_name (t : string) (texts : list string) :
  is_unsigned_short t = false -> names_of (t :: texts) = t :: names_of texts.
Proof.
  intros Hp. unfold names_of. rewrite filter_cons. by rewrite decide_True by done.
Qed.

Lemma resolved_nil (texts : list string) : resolved texts [] = texts.
Proof.
  induction texts as [|t texts IH]; [done|]. simpl.
  destruct (is_unsigned_short t); by rewrite IH.
Qed.

(** The loop of [resolve_destinations] once the mapper has closed the
    connection: it goes on as long as the connection takes the queries,
    and resolves nothing. *)
Lemma resolve_loop_closed (net : Network) (mapperPort : string) (texts : list string)
    (n : nat) (allResolved : bool) :
  resolve_loop net mapperPort (destination <$> texts) [] (Some n) allResolved
  = if decide (length (names_of texts) <= n)
    then Done (destination <$> texts,
               allResolved && all_resolved (names_of texts) [],
               query mapperPort <$> names_of texts)
    else BrokenPipe.
Proof.
  revert n allResolved. induction texts as [|t texts IH]; intros n allResolved.
  - rewrite decide_True by (simpl; lia). simpl. by rewrite andb_true_r.
  - cbn [resolve_loop fmap list_fmap]. cbn [text destination].
    destruct (is_unsigned_short t) eqn:Hp; simpl negb; cbv iota.
    + rewrite (names_of_cons_port t texts Hp), IH.
      by destruct (decide (length (names_of texts) <= n)).
    + rewrite (names_of_cons_name t texts Hp). cbn [length].
      destruct n as [|n]; cbv iota; [by rewrite decide_False by lia|].
      cbn [fgets Nat.pred]. rewrite IH.
      destruct (decide (length (names_of texts) <= n)).
      * rewrite decide_True by lia. cbn [bind fst snd all_resolved fmap list_fmap].
        by rewrite andb_false_r.
      * by rewrite decide_False by lia.
Qed.

(** The loop of [resolve_destinations] when every size is that of a port
    and every reply fits.  The loop sends one query for every name,
    whatever the replies, unless the connection refuses one: the mapper
    closes the connection after its last reply, and the connection takes
    the query that finds it closed and [writes_after_close] more. *)
Lemma resolve_loop_open (net : Network) (mapperPort : string)
    (texts stream : list string) (allResolved : bool) :
  Forall (fun reply => strlen (trim_newline reply) < PORT_NUMBER_LENGTH) stream ->
  resolve_loop net mapperPort (destination <$> texts) stream None allResolved
  = if decide (length (names_of texts) <= S (length stream) + writes_after_close net)
    then Done (destination <$> resolved texts stream,
               allResolved && all_resolved (names_of texts) stream,
               query mapperPort <$> names_of texts)
    else BrokenPipe.
Proof.
  revert stream allResolved.
  induction texts as [|t texts IH]; intros stream allResolved Hstream.
  - rewrite decide_True by (simpl; lia). simpl. by rewrite andb_true_r.
  - cbn [resolve_loop fmap list_fmap resolved]. cbn [text destination].
    destruct (is_unsigned_short t) eqn:Hp; simpl negb; cbv iota.
    + rewrite (names_of_cons_port t texts Hp), (IH stream allResolved Hstream).
      by destruct (decide (length (names_of texts)
                           <= S (length stream) + writes_after_close net)).
    + rewrite (names_of_cons_name t texts Hp). cbn [length].
      destruct stream as [|reply stream]; cbn [fgets].
      * rewrite resolve_loop_closed, resolved_nil. cbn [length].
        destruct (decide (length (names_of texts) <= writes_after_close net)).
        -- rewrite decide_True by lia.
           cbn [bind fst snd all_resolved fmap list_fmap].
           by rewrite andb_false_r.
        -- by rewrite decide_False by lia.
      * apply Forall_cons in Hstream as [Hr Hstream]. unfold strcpy.
        cbn [size destination]. apply Nat.ltb_lt in Hr as ->. cbn [bind].
        rewrite (IH stream _ Hstream). cbn [length].
        destruct (decide (length (names_of texts)
                          <= S (length stream) + writes_after_close net)).
        -- rewrite decide_True by lia.
           cbn [bind fst snd all_resolved fmap list_fmap].
           f_equal. f_equal. f_equal.
           case_bool_decide as H1; case_bool_decide as H2; simpl;
             try (by rewrite ?andb_false_r);
             try (apply strcmp_eq in H1; done);
             try (exfalso; apply H1; rewrite H2; apply strcmp_refl).
        -- by rewrite decide_False by lia.
Qed.

(** A destination whose text [getaddrinfo] rejects ends the visits,
    wherever it stands in the itinerary. *)
Lemma visit_loop_unknown (net : Network) (aircraftID : string)
    (destinations : list Destination) (i : nat) (buffer : option string)
    (visitingSuccess : bool) :
  Exists (fun d => is_unsigned_short (text d) = false /\
                   unknown_service net (text d) = true) destinations ->
  visit_loop net aircraftID i destinations buffer visitingSuccess = MemoryFault.
Proof.
  intros Hex. revert i buffer visitingSuccess.
  induction destinations as [|d ds IH]; intros i buffer ok.
  - by apply Exists_nil in Hex.
  - cbn [visit_loop]. unfold connect_to_port.
    apply Exists_cons in Hex as [[Hp Hu]|Hex]; [by rewrite Hp, Hu|].
    destruct (negb (is_unsigned_short (text d)) && unknown_service net (text d));
      [done|]. cbn [bind].
    destruct (control_connection net i (text d)) as [receiveStream|].
    + destruct (match fgets receiveStream with
                | Some (line, _) => Some line
                | None => buffer
                end) as [response|] eqn:Hb; [|done].
      unfold strcpy. destruct (strlen response <? MAX_DEST_INFO_LENGTH); [|done].
      cbn [bind]. by rewrite (IH Hex).
    + by rewrite (IH Hex).
Qed.

Lemma visit_loop_spec (net : Network) (aircraftID : string)
    (destinations : list Destination) (i : nat) (buffer : option string)
    (visitingSuccess : bool) :
  Forall id (itinerary (answers net) i destinations) ->
  visit_loop net aircraftID i destinations buffer visitingSuccess
  = Done (visitingSuccess && forallb id (itinerary (connected net) i destinations),
          itinerary (visit_result net) i destinations,
          concat (itinerary (visit_events net aircraftID) i destinations)).
Proof.
  revert i buffer visitingSuccess.
  induction destinations as [|d ds IH]; intros i buffer ok Hans.
  - simpl. by rewrite andb_true_r.
  - cbn [itinerary] in Hans. apply Forall_cons in Hans as [[Hknown Hd] Hans].
    cbn [visit_loop itinerary forallb concat].
    unfold connect_to_port. rewrite Hknown. cbn [bind].
    unfold connected at 1, visit_result at 1, visit_events at 1.
    destruct (control_connection net i (text d)) as [[|reply more]|] eqn:Hc.
    + done.
    + cbn [fgets]. unfold strcpy.
      unfold RESPONSE_BUFFER_SIZE in Hd. unfold MAX_DEST_INFO_LENGTH.
      apply Nat.ltb_lt in Hd as ->. cbn [bind].
      rewrite (IH (S i) (Some reply) ok Hans). cbn [bind fst snd].
      rewrite bool_decide_eq_true_2 by eauto. done.
    + rewrite (IH (S i) buffer false Hans). cbn [bind fst snd].
      rewrite bool_decide_eq_false_2 by (by intros [? ?]).
      by rewrite andb_false_r.
Qed.

End RocFacts.

(** ** Sorting again changes nothing *)

Section ExchangeSortIdempotent.
Import Libc Order LibcFacts.
Context {A : Type} (key : A -> string).

Lemma sorted_lookup (R : A -> A -> Prop) (l : list A) (p q : nat) (x y : A) :
  StronglySorted R l -> p < q -> l !! p = Some x -> l !! q = Some y -> R x y.
Proof.
  intros Hs. revert p q. induction Hs as [|z l Hs IH Hall]; intros p q Hpq Hx Hy.
  - done.
  - destruct q as [|q]; [lia|]. simpl in Hy. destruct p as [|p].
    + injection Hx as <-. rewrite Forall_forall in Hall.
      apply Hall. by eapply list_elem_of_lookup_2.
    + simpl in Hx. apply (IH p q); auto. lia.
Qed.

Lemma exchange_step_in_order (n i j : nat) (a : list A) :
  StronglySorted (key_le key) (take n a) -> i < j < n ->
  exchange_step key i j a = a.
Proof.
  intros Hs Hij. unfold exchange_step.
  destruct (a !! i) as [x|] eqn:Hi; [|done].
  destruct (a !! j) as [y|] eqn:Hj; [|done].
  assert (key_le key x y) as Hle.
  { apply (sorted_lookup _ (take n a) i j); auto; try lia;
      apply lookup_take_Some; split; auto; lia. }
  unfold key_le, str_le in Hle. by destruct (strcmp (key x) (key y)).
Qed.

Lemma exchange_sort_in_order (n : nat) (a : list A) :
  StronglySorted (key_le key) (take n a) -> exchange_sort key n a = a.
Proof.
  intros Hs. unfold exchange_sort.
  assert (Forall (fun i => i < n) (seq 0 n)) as Hrounds
    by (apply Forall_seq; lia).
  induction Hrounds as [|i rounds Hi _ IH]; simpl; [done|].
  assert (inner_loop key n i a = a) as ->; [|done].
  unfold inner_loop.
  assert (Forall (fun j => i < j < n) (seq (S i) (n - S i))) as Hsteps
    by (apply Forall_seq; lia).
  induction Hsteps as [|j steps Hj _ IHj]; simpl; [done|].
  by rewrite (exchange_step_in_order n i j a Hs Hj).
Qed.

Lemma exchange_sort_idemp (n : nat) (a : list A) :
  exchange_sort key n (exchange_sort key n a) = exchange_sort key n a.
Proof. apply exchange_sort_in_order, exchange_sort_sorted. Qed.

End ExchangeSortIdempotent.

(** ** The lock serializes the dispatches *)

Section WorkersFacts.
Context {T : Type} (dispatch : T -> string -> outcome (T * string)).

Lemma run_serially_snoc (structure structure' structure'' : T)
    (messages : list string) (clientMessage sent : string) :
  run_serially dispatch structure messages = Done structure' ->
  dispatch structure' clientMessage = Done (structure'', sent) ->
  run_serially dispatch structure (messages ++ [clientMessage]) = Done structure''.
Proof.
  revert structure. induction messages as [|m messages IH]; intros s Hrun Hd; simpl in *.
  - injection Hrun as ->. by rewrite Hd.
  - destruct (dispatch s m) as [[s1 sent1]| |]; simpl in *; [|done..]. by apply IH.
Qed.

Lemma invariant_start (structure : T) (streams : list (list string)) :
  invariant dispatch structure streams (start structure streams).
Proof.
  split; simpl.
  - intros i w Hw Hin. apply list_lookup_fmap_Some in Hw as (s & -> & _). done.
  - intros i seen m rest Hw. apply list_lookup_fmap_Some in Hw as (s & ? & _). done.
  - done.
  - intros i w Hw. apply list_lookup_fmap_Some in Hw as (s & -> & Hs).
    unfold dispatched_by. simpl. done.
  - done.
Qed.

(** What replacing worker [i] by [w'] needs for the per-worker parts. *)
Lemma lookup_move (ws : list (worker T)) (i j : nat) (w' w : worker T) :
  <[i := w']> ws !! j = Some w ->
  (j = i /\ w = w' /\ i < length ws) \/ (j <> i /\ ws !! j = Some w).
Proof.
  intros H. apply list_lookup_insert_Some in H as [(-> & -> & Hl)|[Hne H]]; auto.
Qed.

Lemma dispatched_by_snoc (i j : nat) (p : process T) (clientMessage : string)
    (hist : list (nat * string)) :
  snd <$> filter (fun e => e.1 = j) (hist ++ [(i, clientMessage)])
  = (snd <$> filter (fun e => e.1 = j) hist)
    ++ (if decide (i = j) then [clientMessage] else []).
Proof.
  rewrite filter_app, fmap_app. f_equal.
  rewrite filter_cons, filter_nil. simpl. by destruct (decide (i = j)).
Qed.

Lemma invariant_advance (structure : T) (streams : list (list string))
    (p : process T) (i : nat) :
  invariant dispatch structure streams p -> invariant dispatch structure streams (advance dispatch i p).
Proof.
  intros Hinv. pose proof Hinv as [Hholder Hseen Hserial Hstreams Howner].
  unfold advance.
  destruct (workers p !! i) as [w|] eqn:Hw; [|done].
  assert (i < length (workers p)) as Hi by (by eapply lookup_lt_Some).
  assert (forall j w', j <> i -> workers p !! j = Some w' -> inside w' ->
                       inside w -> False) as Halone.
  { intros j w' Hne Hj Hin' Hin.
    pose proof (Hholder i w Hw Hin) as H1. pose proof (Hholder j w' Hj Hin') as H2.
    congruence. }
  destruct w as [[|m rest]|m rest|m rest|seen m rest|rest|].
  - (* feof *)
    split; simpl; auto.
    + intros j w' [(-> & -> & _)|[Hne Hj]]%lookup_move; [done|eauto].
    + intros j s m' r [(-> & ? & _)|[Hne Hj]]%lookup_move; [done|eauto].
    + intros j w' [(-> & -> & _)|[Hne Hj]]%lookup_move; [|eauto].
      by rewrite (Hstreams i _ Hw).
    + intros h Hh. destruct (Howner h Hh) as (wh & Hwh & Hin).
      exists wh. split; [|done]. rewrite list_lookup_insert_ne; [done|].
      intros ->. rewrite Hw in Hwh. by injection Hwh as <-.
  - (* fgets *)
    split; simpl; auto.
    + intros j w' [(-> & -> & _)|[Hne Hj]]%lookup_move; [done|eauto].
    + intros j s m' r [(-> & ? & _)|[Hne Hj]]%lookup_move; [done|eauto].
    + intros j w' [(-> & -> & _)|[Hne Hj]]%lookup_move; [|eauto].
      by rewrite (Hstreams i _ Hw).
    + intros h Hh. destruct (Howner h Hh) as (wh & Hwh & Hin).
      exists wh. split; [|done]. rewrite list_lookup_insert_ne; [done|].
      intros ->. rewrite Hw in Hwh. by injection Hwh as <-.
  - (* pthread_mutex_lock *)
    destruct (mutex p) as [holder|] eqn:Hm; [done|].
    split; simpl; auto.
    + intros j w' [(-> & -> & _)|[Hne Hj]]%lookup_move Hin; [done|].
      pose proof (Hholder j w' Hj Hin). congruence.
    + intros j s m' r [(-> & ? & _)|[Hne Hj]]%lookup_move; [done|eauto].
    + intros j w' [(-> & -> & _)|[Hne Hj]]%lookup_move; [|eauto].
      by rewrite (Hstreams i _ Hw).
    + intros h [= <-]. eexists. by rewrite list_lookup_insert_eq.
  - (* the dispatch looks at the structure *)
    split; simpl; auto.
    + intros j w' [(-> & -> & _)|[Hne Hj]]%lookup_move Hin; [|eauto].
      by apply (Hholder i _ Hw).
    + intros j s m' r [(-> & [= <- _ _] & _)|[Hne Hj]]%lookup_move; [done|eauto].
    + intros j w' [(-> & -> & _)|[Hne Hj]]%lookup_move; [|eauto].
      by rewrite (Hstreams i _ Hw).
    + intros h Hh. rewrite (Hholder i _ Hw I) in Hh. injection Hh as <-.
      eexists. by rewrite list_lookup_insert_eq.
  - (* the result of the dispatch is in place *)
    destruct (dispatch seen m) as [[structure' sent]| |] eqn:Hd; [|done..].
    rewrite (Hseen i seen m rest Hw) in Hd.
    split; simpl.
    + intros j w' [(-> & -> & _)|[Hne Hj]]%lookup_move Hin; [|eauto].
      by apply (Hholder i _ Hw).
    + intros j s m' r [(-> & ? & _)|[Hne Hj]]%lookup_move; [done|].
      exfalso. by apply (Halone j (Working s m' r)).
    + rewrite fmap_app. simpl. by eapply run_serially_snoc.
    + intros j w' Hj. unfold dispatched_by. simpl.
      rewrite (dispatched_by_snoc i j p).
      apply lookup_move in Hj as [(-> & -> & _)|[Hne Hj]].
      * rewrite decide_True by done. rewrite <- app_assoc. simpl.
        by rewrite (Hstreams i _ Hw).
      * rewrite decide_False by done. rewrite app_nil_r. eauto.
    + intros h Hh. rewrite (Hholder i _ Hw I) in Hh. injection Hh as <-.
      eexists. by rewrite list_lookup_insert_eq.
  - (* pthread_mutex_unlock *)
    split; simpl; auto.
    + intros j w' [(-> & -> & _)|[Hne Hj]]%lookup_move Hin; [done|].
      exfalso. by apply (Halone j w').
    + intros j s m' r [(-> & ? & _)|[Hne Hj]]%lookup_move; [done|eauto].
    + intros j w' [(-> & -> & _)|[Hne Hj]]%lookup_move; [|eauto].
      by rewrite (Hstreams i _ Hw).
    + done.
  - done.
Qed.

Lemma reachable_invariant (structure : T) (streams : list (list string))
    (p : process T) :
  reachable dispatch (start structure streams) p -> invariant dispatch structure streams p.
Proof.
  induction 1 as [|p i _ IH]; [apply invariant_start|by apply invariant_advance].
Qed.

Lemma reachable_schedule (origin : process T) (schedule : list nat) :
  reachable dispatch origin (run_schedule dispatch schedule origin).
Proof.
  unfold run_schedule. induction schedule as [|i schedule IH] using rev_ind.
  - constructor.
  - rewrite foldl_snoc. by constructor.
Qed.

(** The messages of worker [i] in the history are a prefix of its
    stream, and all of it once the worker has closed. *)
Lemma closed_all_dispatched (structure : T) (streams : list (list string))
    (p : process T) (i : nat) (stream : list string) :
  reachable dispatch (start structure streams) p ->
  workers p !! i = Some Closed ->
  streams !! i = Some stream ->
  dispatched_by i p = stream.
Proof.
  intros Hr Hw Hs. apply reachable_invariant in Hr.
  pose proof (inv_streams _ _ _ _ Hr i Closed Hw) as H. simpl in H.
  rewrite app_nil_r in H. congruence.
Qed.

(** *** The messages dispatched by all workers together *)

Lemma advance_workers_length (i : nat) (p : process T) :
  length (workers (advance dispatch i p)) = length (workers p).
Proof.
  unfold advance.
  destruct (workers p !! i) as [[[|m rest]|m rest|m rest|seen m rest|rest|]|];
    simpl; rewrite ?length_insert; try done.
  - destruct (mutex p); simpl; by rewrite ?length_insert.
  - destruct (dispatch seen m) as [[structure sent]| |]; simpl;
      by rewrite ?length_insert.
Qed.

Lemma advance_history (i : nat) (p : process T) :
  history (advance dispatch i p) = history p \/
  exists clientMessage, i < length (workers p) /\
    history (advance dispatch i p) = history p ++ [(i, clientMessage)].
Proof.
  unfold advance.
  destruct (workers p !! i) as [[[|m rest]|m rest|m rest|seen m rest|rest|]|] eqn:Hw;
    simpl; auto.
  - destruct (mutex p); simpl; auto.
  - destruct (dispatch seen m) as [[structure sent]| |]; simpl; auto.
    right. exists m. split; [|done]. by eapply lookup_lt_Some.
Qed.

Lemma reachable_workers (structure : T) (streams : list (list string))
    (p : process T) :
  reachable dispatch (start structure streams) p ->
  length (workers p) = length streams /\
  Forall (fun e => e.1 < length streams) (history p).
Proof.
  induction 1 as [|p i _ [IHl IHh]].
  - simpl. by rewrite length_fmap.
  - split; [by rewrite advance_workers_length|].
    destruct (advance_history i p) as [->|(m & Hi & ->)]; [done|].
    apply Forall_app. split; [done|]. apply Forall_singleton. simpl. lia.
Qed.

Lemma filter_below_succ (h : list (nat * string)) (n : nat) :
  filter (fun e => e.1 < S n) h
  ≡ₚ filter (fun e => e.1 < n) h ++ filter (fun e => e.1 = n) h.
Proof.
  induction h as [|e h IH]; [done|]. rewrite !filter_cons.
  destruct (decide (e.1 < n)); [|destruct (decide (e.1 = n))].
  - rewrite decide_True by lia. rewrite decide_False by lia. simpl. by rewrite IH.
  - rewrite decide_True by lia. rewrite IH. apply Permutation_middle.
  - by rewrite decide_False by lia.
Qed.

(** The history is made of the messages of its workers. *)
Lemma history_by_worker (h : list (nat * string)) (n : nat) :
  snd <$> filter (fun e => e.1 < n) h
  ≡ₚ concat ((fun i => snd <$> filter (fun e => e.1 = i) h) <$> seq 0 n).
Proof.
  induction n as [|n IH].
  - simpl. induction h as [|e h IHh]; [done|].
    rewrite filter_cons. by rewrite decide_False by lia.
  - rewrite seq_S, fmap_app, concat_app, <- IH. simpl. rewrite app_nil_r.
    by rewrite filter_below_succ, fmap_app.
Qed.

(** When every worker has closed, the messages dispatched are those of
    the streams: each one once. *)
Lemma closed_history (structure : T) (streams : list (list string))
    (p : process T) :
  reachable dispatch (start structure streams) p ->
  Forall (fun w => w = Closed) (workers p) ->
  snd <$> history p ≡ₚ concat streams.
Proof.
  intros Hr Hclosed. destruct (reachable_workers _ _ _ Hr) as [Hlen Hhist].
  assert (filter (fun e => e.1 < length streams) (history p) = history p) as Hall.
  { clear -Hhist. induction Hhist as [|e h He _ IH]; [done|].
    rewrite filter_cons. rewrite decide_True by done. by rewrite IH. }
  rewrite <- Hall at 1. rewrite history_by_worker.
  assert ((fun i => snd <$> filter (fun e => e.1 = i) (history p))
            <$> seq 0 (length streams) = streams) as ->; [|done].
  apply list_eq. intros i. rewrite list_lookup_fmap.
  destruct (decide (i < length streams)) as [Hi|Hi].
  - rewrite lookup_seq_lt by done. simpl.
    destruct (lookup_lt_is_Some_2 streams i Hi) as [stream Hs].
    destruct (lookup_lt_is_Some_2 (workers p) i ltac:(lia)) as [w Hw].
    rewrite Forall_lookup in Hclosed. pose proof (Hclosed i w Hw) as ->.
    rewrite Hs. f_equal.
    apply (closed_all_dispatched structure streams p i stream Hr Hw Hs).
  - rewrite lookup_seq_ge by lia. simpl. symmetry. apply lookup_ge_None. lia.
Qed.

End WorkersFacts.

(** * The claims of the specification *)

Section RegistryClaims.
Import Libc Util Mapper Order Bytes Registry LibcFacts UtilFacts MapperFacts.

(** C1. First registration wins for ever.  Let [n] be absent from the
    table, let an add command [!n:a1] be accepted (the table grows by one
    entry), and let any messages follow, among them an add command [!n:a2]
    with another address.  Then in the state reached the entry
    [(n, a1)] is still in use, no other entry in use has the name [n], and
    every query [?n] is answered with [a1] and a line feed. *)
Theorem first_registration_wins
    (m m1 m2 : Mapping) (n a1 a2 add1 add2 sent : string)
    (before after replies : list string) :
  absent m n ->
  trim_newline add1 = String "!" (n +:+ String ":" a1) ->
  trim_newline add2 = String "!" (n +:+ String ":" a2) ->
  a2 <> a1 ->
  dispatch m add1 = Done (m1, sent) ->
  entryCount m1 = S (entryCount m) ->
  serve m1 (before ++ add2 :: after) = Done (m2, replies) ->
  registered m2 n a1 /\
  forall q, trim_newline q = String "?" n ->
            dispatch m2 q = Done (m2, a1 +:+ String LF EmptyString).
Proof.
  intros _ Et1 _ _ Hd Hgrow Hs.
  destruct (accepted_add_registered m m1 add1 sent n a1 Et1 Hd Hgrow) as (_ & _ & Hr1).
  assert (registered m2 n a1) as Hr2.
  { apply (serve_invariant (fun m => registered m n a1)
             (fun m line m' sent' H Hstep => step_registered m m' line sent' n a1 H Hstep)
             _ m1 m2 replies Hr1 Hs). }
  split; [done|]. intros q Eq.
  rewrite (dispatch_query m2 q n Eq). by rewrite (registered_query_reply m2 n a1 Hr2).
Qed.

Lemma first_registration_wins_witness :
  absent Examples.fresh_registry "BNE" /\
  dispatch Examples.fresh_registry (Examples.line "!BNE:8080")
  = Done (Examples.registry_bne, EmptyString) /\
  dispatch Examples.registry_later (Examples.line "?BNE")
  = Done (Examples.registry_later, Examples.line "8080").
Proof.
  assert (absent Examples.fresh_registry "BNE") as H0 by (vm_compute; reflexivity).
  assert (dispatch Examples.fresh_registry (Examples.line "!BNE:8080")
          = Done (Examples.registry_bne, EmptyString)) as H1
    by (vm_compute; reflexivity).
  split; [exact H0|]. split; [exact H1|].
  refine (proj2 (first_registration_wins
            Examples.fresh_registry Examples.registry_bne Examples.registry_later
            "BNE" "8080" "9090"
            (Examples.line "!BNE:8080") (Examples.line "!BNE:9090") EmptyString
            [Examples.line "@"]
            [Examples.line "!AKL:7070"; Examples.line "@"; Examples.line "?AKL"]
            (Examples.replies_of (serve Examples.registry_bne Examples.later_messages))
            H0 _ _ _ H1 _ _) (Examples.line "?BNE") _);
    try (vm_compute; reflexivity).
  discriminate.
Defined.

(** C2. Query postcondition.  For every table and every query [?name]
    the registry leaves the table as it is and replies with the address of
    the first entry in use whose name is [name], followed by a line feed,
    or with the line [;] when no entry in use has that name.  In the
    states the registry reaches the names in use are pairwise distinct, so
    the first match is the only one.  An add of [(n, a)] that was accepted
    makes the next query [?n] reply [a]; a name that no message ever added
    is answered with [;]. *)
Theorem query_postcondition :
  (forall (m : Mapping) (q name : string),
      trim_newline q = String "?" name ->
      (forall i e,
          live m !! i = Some e -> airportName e = name ->
          (forall j e', j < i -> live m !! j = Some e' -> airportName e' <> name) ->
          dispatch m q = Done (m, portNumber e +:+ String LF EmptyString)) /\
      ((forall e, e ∈ live m -> airportName e <> name) ->
       dispatch m q = Done (m, String ";" (String LF EmptyString)))) /\
  (forall (garbage : nat -> MapEntry) (messages : list string) (m : Mapping)
          (replies : list string),
      serve (handle_connections garbage) messages = Done (m, replies) ->
      NoDup (airportName <$> live m)) /\
  (forall (m m1 : Mapping) (add sent n a q : string),
      trim_newline add = String "!" (n +:+ String ":" a) ->
      dispatch m add = Done (m1, sent) ->
      entryCount m1 = S (entryCount m) ->
      trim_newline q = String "?" n ->
      dispatch m1 q = Done (m1, a +:+ String LF EmptyString)) /\
  (forall (garbage : nat -> MapEntry) (messages : list string) (m : Mapping)
          (replies : list string) (name q : string),
      serve (handle_connections garbage) messages = Done (m, replies) ->
      (forall msg a, msg ∈ messages ->
                     trim_newline msg <> String "!" (name +:+ String ":" a)) ->
      trim_newline q = String "?" name ->
      dispatch m q = Done (m, String ";" (String LF EmptyString))).
Proof.
  split; [|split; [|split]].
  - intros m q name Eq. rewrite (dispatch_query m q name Eq). split.
    + intros i e Hi He Hfirst. unfold query_reply.
      assert (list_find (named name) (live m) = Some (i, e)) as ->; [|done].
      apply list_find_Some. repeat split; auto.
      intros j e' Hj Hlt. by apply (Hfirst j e').
    + intros Hnone. rewrite absent_query_reply; [done|].
      apply absent_iff. intros (e & -> & He)%list_elem_of_fmap. by apply (Hnone e).
  - intros garbage messages m replies Hs. by eapply reachable_unique_names.
  - intros m m1 add sent n a q Et Hd Hgrow Eq.
    destruct (accepted_add_registered m m1 add sent n a Et Hd Hgrow) as (_ & _ & Hr).
    rewrite (dispatch_query m1 q n Eq). by rewrite (registered_query_reply m1 n a Hr).
  - intros garbage messages m replies name q Hs Hnever Eq.
    rewrite (dispatch_query m q name Eq).
    rewrite absent_query_reply; [done|]. by eapply never_added_absent.
Qed.

Lemma query_postcondition_witness :
  dispatch Examples.registry_later (Examples.line "?AKL")
  = Done (Examples.registry_later, Examples.line "7070") /\
  dispatch Examples.registry_later (Examples.line "?SYD")
  = Done (Examples.registry_later, Examples.line ";") /\
  dispatch Examples.registry_bne (Examples.line "?BNE")
  = Done (Examples.registry_bne, Examples.line "8080").
Proof.
  destruct query_postcondition as (Hreply & _ & Hround & _).
  destruct (Hreply Examples.registry_later (Examples.line "?AKL") "AKL" eq_refl)
    as [Hfound _].
  destruct (Hreply Examples.registry_later (Examples.line "?SYD") "SYD" eq_refl)
    as [_ Hnone].
  split; [|split].
  - apply (Hfound 0 {| airportName := "AKL"; portNumber := "7070" |});
      [reflexivity|reflexivity|]. intros j e' Hj. lia.
  - apply Hnone. intros e He.
    change (live Examples.registry_later)
      with [{| airportName := "AKL"; portNumber := "7070" |};
            {| airportName := "BNE"; portNumber := "8080" |}] in He.
    apply list_elem_of_In in He. simpl in He.
    destruct He as [<-|[<-|[]]]; discriminate.
  - apply (Hround Examples.fresh_registry Examples.registry_bne
             (Examples.line "!BNE:8080") EmptyString "BNE" "8080"
             (Examples.line "?BNE")); vm_compute; reflexivity.
Defined.

(** C4, as the specification states it, fails: an add line with an
    embedded control character other than a carriage return is accepted.
    The line [!a<TAB>b:80] makes the empty table grow by the entry
    [("a<TAB>b", "80")]. *)
Lemma add_with_tab_is_accepted :
  contains TAB (String "!" (String "a" (String TAB "b:80"))) = true /\
  live Examples.fresh_registry = [] /\
  dispatch Examples.fresh_registry
    (Examples.line (String "!" (String "a" (String TAB "b:80"))))
  = Done (push Examples.fresh_registry (String "a" (String TAB "b")) "80",
          EmptyString) /\
  live (push Examples.fresh_registry (String "a" (String TAB "b")) "80")
  = [{| airportName := String "a" (String TAB "b"); portNumber := "80" |}].
Proof. repeat split; vm_compute; reflexivity. Qed.

(** C4, amended.  Let [message] be an add line: its text [t] up to the
    line feed starts with [!].  [add_command t name port] says that [t] is
    [!name:port] with exactly one colon, a name and a port that are not
    empty, and no carriage return anywhere.
    - No add line is answered with any byte, and the only change an add
      line can make is to append [(name, port)] for a name that was absent
      and a valid port.
    - A line that is not such a command (no colon, several colons, empty
      name, colon first or last, an embedded carriage return) changes
      nothing.
    - A command whose port is not a valid port number (not all digits, or
      digits of at most nine bytes with a value outside (0, 65535])
      changes nothing.
    - For a name below 490 bytes and a port below 6 bytes: a valid port
      and a name already present change nothing; a valid port and an absent
      name, with a free slot left, append [(name, port)]. *)
Theorem add_acceptance (m : Mapping) (message : string) :
  char_at (trim_newline message) 0 = "!"%char ->
  (forall m' sent,
      dispatch m message = Done (m', sent) ->
      sent = EmptyString /\
      (m' = m \/
       exists name port,
         add_command (trim_newline message) name port /\ valid_port port /\
         absent m name /\ m' = push m name port)) /\
  ((forall name port, ~ add_command (trim_newline message) name port) ->
   dispatch m message = Done (m, EmptyString)) /\
  (forall name port,
      add_command (trim_newline message) name port ->
      (~ valid_port port -> is_numeric port = false \/ strlen port <= 9 ->
       dispatch m message = Done (m, EmptyString)) /\
      (strlen name < MAX_AIRPORT_ID_LENGTH -> strlen port < PORT_NUMBER_LENGTH ->
       valid_port port ->
       (~ absent m name -> dispatch m message = Done (m, EmptyString)) /\
       (absent m name -> entryCount m < length (entries m) ->
        dispatch m message = Done (push m name port, EmptyString)))).
Proof.
  intros Hbang. split; [|split].
  - intros m' sent Hd. apply dispatch_step in Hd.
    destruct Hd as [Et|name Et|name port Hc Hp Hn Hl Ha Hfull| | | ]; auto.
    + rewrite Et in Hbang. discriminate.
    + rewrite Et in Hbang. discriminate.
    + split; [done|]. right. exists name, port.
      split; [done|]. split; [|done].
      apply (is_unsigned_short_valid port); [unfold PORT_NUMBER_LENGTH in Hl; lia|done].
  - intros Hnot. apply dispatch_unknown.
    destruct (command_lexer message).1 eqn:Hl; [done| | |].
    + apply command_lexer_list_inv in Hl. rewrite Hl in Hbang. discriminate.
    + apply command_lexer_query_inv in Hl as [name Hl].
      rewrite Hl in Hbang. discriminate.
    + apply command_lexer_add_inv in Hl as (name & port & Hc).
      by destruct (Hnot name port).
  - intros name port Hc. split.
    + intros Hbad Hcase. apply dispatch_step. apply (step_add_bad_port m message name port Hc).
      destruct (is_unsigned_short port) eqn:Hp; [|done]. exfalso.
      destruct Hcase as [Hnum|Hlen].
      * apply is_unsigned_short_numeric in Hp. congruence.
      * by apply Hbad, is_unsigned_short_valid.
    + intros Hn Hl Hv.
      assert (is_unsigned_short port = true) as Hp.
      { apply is_unsigned_short_valid; [unfold PORT_NUMBER_LENGTH in Hl; lia|done]. }
      split.
      * intros Ha. apply dispatch_step. by eapply step_add_known.
      * intros Ha Hfull. apply dispatch_step. by eapply step_add_new.
Qed.

Lemma add_acceptance_witness :
  char_at (trim_newline (Examples.line "!AKL:7070")) 0 = "!"%char /\
  dispatch Examples.registry_bne (Examples.line "!AKL:7070")
  = Done (push Examples.registry_bne "AKL" "7070", EmptyString).
Proof.
  split; [reflexivity|].
  refine (proj2 (proj2 (proj2 (proj2 (add_acceptance Examples.registry_bne
            (Examples.line "!AKL:7070") eq_refl)) "AKL" "7070" _) _ _ _) _ _);
    try (vm_compute; reflexivity); try (vm_compute; lia).
  - repeat split; vm_compute; congruence.
  - split; [reflexivity|]. vm_compute. split; [reflexivity|discriminate].
Defined.

(** C8, as the specification states it, fails: the listing does not keep
    the insertion order.  After [!SYD:2] and then [!AKL:1] the table holds
    SYD before AKL; serving [@] leaves it holding AKL before SYD. *)
Lemma listing_reorders_table :
  live (push (push Examples.fresh_registry "SYD" "2") "AKL" "1")
  = [{| airportName := "SYD"; portNumber := "2" |};
     {| airportName := "AKL"; portNumber := "1" |}] /\
  dispatch (push (push Examples.fresh_registry "SYD" "2") "AKL" "1")
    (Examples.line "@")
  = Done (sort_mapping (push (push Examples.fresh_registry "SYD" "2") "AKL" "1"),
          Examples.line "AKL:1" +:+ Examples.line "SYD:2") /\
  live (sort_mapping (push (push Examples.fresh_registry "SYD" "2") "AKL" "1"))
  = [{| airportName := "AKL"; portNumber := "1" |};
     {| airportName := "SYD"; portNumber := "2" |}].
Proof. repeat split; vm_compute; reflexivity. Qed.

(** C8, amended.  Serving a list command sorts the table in place.  The
    reply is the entries in use, one [name:address] line each, in the order
    in which the table holds them afterwards; that order is ascending by
    name and is a rearrangement of the entries in use before; the entry
    count and the slots beyond it are unchanged.  The insertion order is
    not kept.  Serving the command again changes nothing more. *)
Theorem listing_sorts_in_place (m : Mapping) (request : string) :
  trim_newline request = "@" ->
  dispatch m request
  = Done (sort_mapping m, print_lines mapping_line (live (sort_mapping m))) /\
  entryCount (sort_mapping m) = entryCount m /\
  live (sort_mapping m) ≡ₚ live m /\
  StronglySorted (key_le airportName) (live (sort_mapping m)) /\
  drop (entryCount m) (entries (sort_mapping m)) = drop (entryCount m) (entries m) /\
  sort_mapping (sort_mapping m) = sort_mapping m.
Proof.
  intros Et. repeat split.
  - by rewrite (dispatch_list m request Et).
  - apply live_sort_perm.
  - apply live_sort_sorted.
  - apply exchange_sort_drop.
  - unfold sort_mapping. simpl. f_equal. apply exchange_sort_idemp.
Qed.

Lemma listing_sorts_in_place_witness :
  trim_newline (Examples.line "@") = "@" /\
  dispatch Examples.registry_bne (Examples.line "@")
  = Done (sort_mapping Examples.registry_bne,
          print_lines mapping_line (live (sort_mapping Examples.registry_bne))).
Proof.
  split; [reflexivity|].
  exact (proj1 (listing_sorts_in_place Examples.registry_bne (Examples.line "@") eq_refl)).
Defined.

End RegistryClaims.

Section NodeClaims.
Import Libc Util Control Order Bytes Node LibcFacts UtilFacts ControlFacts.

Lemma node_serve_app (info : string) (l1 l2 : list string) (v v1 v2 : Visitors)
    (r1 r2 : list string) :
  serve info v l1 = Done (v1, r1) ->
  serve info v1 l2 = Done (v2, r2) ->
  serve info v (l1 ++ l2) = Done (v2, r1 ++ r2).
Proof.
  revert v r1. induction l1 as [|line l1 IH]; intros v r1 H1 H2.
  - by injection H1 as <- <-.
  - apply node_serve_cons_inv in H1 as (v' & sent & r1' & Hd & H1 & ->).
    simpl. rewrite Hd. simpl. by rewrite (IH v' r1' H1 H2).
Qed.

(** The loop of [print_all_visitors] writes its texts one per line. *)
Lemma print_lines_one_per_line {X : Type} (f : X -> string) (l : list X) :
  Mapper.print_lines (fun x => f x +:+ String LF EmptyString) l = lines (f <$> l).
Proof.
  induction l as [|x l IH]; [done|].
  cbn [Mapper.print_lines fmap list_fmap lines]. rewrite IH.
  generalize (lines (f <$> l)) as rest. intros rest.
  induction (f x) as [|c t IHt]; [done|].
  change (String c ((t +:+ String LF EmptyString) +:+ rest)
          = String c (t +:+ String LF rest)).
  by rewrite IHt.
Qed.

(** C3. Log response contents.  In every state of the visit log the
    command [log] is answered with the client identity of every record in
    use, each followed by a line feed, in ascending order of the
    identities, and then the line [.] -- also when several records carry
    the same client identity: the identities written are a rearrangement
    of those in the log, so each occurs in the reply as often as it was
    recorded.  In particular, after the visits [ids] on a fresh node, the
    reply to [log] is a sorted rearrangement of [ids], one per line, and
    the line [.]. *)
Theorem log_response (info : string) (v : Visitors) (request : string) :
  trim_newline request = "log" ->
  (dispatch info v request
   = Done (sort_visitors v,
           lines (aircraftID <$> live (sort_visitors v))
           +:+ String "." (String LF EmptyString)) /\
   live (sort_visitors v) ≡ₚ live v /\
   StronglySorted (key_le aircraftID) (live (sort_visitors v)) /\
   forall id,
     length (filter (fun e => aircraftID e = id) (live (sort_visitors v)))
     = length (filter (fun e => aircraftID e = id) (live v))) /\
  (forall (garbage : nat -> VisitorEntry) (ids : list string),
      Forall identity ids -> length ids <= MAX_VISITOR_ENTRIES ->
      exists (v' : Visitors) (sorted_ids : list string),
        serve info (handle_connections garbage) ((visit_line <$> ids) ++ [request])
        = Done (v',
                replicate (length ids) (info +:+ String LF EmptyString)
                ++ [lines sorted_ids +:+ String "." (String LF EmptyString)]) /\
        sorted_ids ≡ₚ ids /\
        StronglySorted str_le sorted_ids).
Proof.
  intros Et.
  assert (forall w, dispatch info w request
                    = Done (sort_visitors w,
                            lines (aircraftID <$> live (sort_visitors w))
                            +:+ String "." (String LF EmptyString))) as Hlog.
  { intros w. rewrite (dispatch_log info w request Et).
    unfold print_all_visitors. cbn [fst snd].
    change visitor_line
      with (fun e : VisitorEntry => aircraftID e +:+ String LF EmptyString).
    by rewrite print_lines_one_per_line. }
  split.
  - repeat split.
    + apply Hlog.
    + apply live_sort_visitors_perm.
    + apply live_sort_visitors_sorted.
    + intros id. by rewrite (live_sort_visitors_perm v).
  - intros garbage ids Hids Hlen.
    destruct (serve_visits info ids (handle_connections garbage) Hids)
      as (v1 & Hs & Hlive & _).
    { rewrite node_block_length. simpl. lia. }
    rewrite node_starts_empty in Hlive. simpl in Hlive.
    exists (sort_visitors v1), (aircraftID <$> live (sort_visitors v1)). repeat split.
    + apply (node_serve_app info _ [request] _ v1 _ _ _ Hs).
      simpl. by rewrite (Hlog v1).
    + rewrite (live_sort_visitors_perm v1), Hlive.
      rewrite <- list_fmap_compose. by rewrite list_fmap_id.
    + apply (StronglySorted_fmap _ (key_le aircraftID)); [done|].
      apply live_sort_visitors_sorted.
Qed.

Lemma log_response_witness :
  trim_newline (Examples.line "log") = "log" /\
  live Examples.node_three_visits
  = [{| aircraftID := "QF2" |}; {| aircraftID := "NZ1" |}; {| aircraftID := "QF2" |}] /\
  dispatch "info" Examples.node_three_visits (Examples.line "log")
  = Done (sort_visitors Examples.node_three_visits,
          Examples.line "NZ1" +:+ Examples.line "QF2" +:+ Examples.line "QF2"
          +:+ Examples.line ".").
Proof.
  split; [reflexivity|]. split; [reflexivity|].
  refine (eq_trans (proj1 (proj1 (log_response "info" Examples.node_three_visits
                                    (Examples.line "log") eq_refl))) _).
  vm_compute. reflexivity.
Defined.

End NodeClaims.

Section SortClaims.
Import Libc Util Order Bytes LibcFacts UtilFacts.

Lemma key_lt_asym {X : Type} (key : X -> string) (x y : X) :
  key_lt key x y -> key_lt key y x -> x = y.
Proof.
  unfold key_lt, str_lt. intros H1 H2.
  apply strcmp_gt_lt in H2. congruence.
Qed.

Lemma visitor_le_antisym (x y : Control.VisitorEntry) :
  key_le Control.aircraftID x y -> key_le Control.aircraftID y x -> x = y.
Proof.
  unfold key_le. rewrite !str_le_alt. destruct x as [a], y as [b]. simpl.
  intros [H1|H1] [H2|H2]; try congruence.
  exfalso. apply strcmp_gt_lt in H2. unfold str_lt in H1. congruence.
Qed.




End SortClaims.

Section CapacityClaims.
Import Libc Util Order Bytes LibcFacts UtilFacts.

(** A run of a thousand accepted adds fills the block; the next accepted
    add writes past it. *)
Lemma registry_fills_up :
  Mapper.serve Examples.fresh_registry (Examples.add_messages 1000)
  = Done (Examples.full_registry, replicate 1000 EmptyString) /\
  Mapper.entryCount Examples.full_registry = 1000 /\
  Mapper.dispatch Examples.full_registry (Examples.add_message 1000) = MemoryFault.
Proof.
  split; [vm_compute; reflexivity|]. split; [reflexivity|].
  vm_compute. reflexivity.
Qed.

(** C10. Fixed capacity without a bound check.  Both tables are
    allocated by [handle_connections] with 1000 slots and no entry, and no
    dispatch changes the number of slots.  [add_map_entry] and
    [record_visit] write at the slot given by the current count without
    comparing it with the capacity: an accepted mutation ends in defined
    behaviour exactly when the count is below the number of slots, and
    writes past the block otherwise.  Each accepted mutation raises the
    count by one and nothing lowers it, so in the states reached from the
    start the write is in bounds exactly while fewer than 1000 mutations
    have been accepted. *)
Theorem fixed_capacity :
  Mapper.MAX_MAP_ENTRIES = 1000 /\ Control.MAX_VISITOR_ENTRIES = 1000 /\
  (forall garbage,
      Mapper.entryCount (Mapper.handle_connections garbage) = 0 /\
      length (Mapper.entries (Mapper.handle_connections garbage)) = 1000) /\
  (forall garbage,
      Control.visitorCount (Control.handle_connections garbage) = 0 /\
      length (Control.entries (Control.handle_connections garbage)) = 1000) /\
  (forall garbage messages m replies,
      Mapper.serve (Mapper.handle_connections garbage) messages = Done (m, replies) ->
      length (Mapper.entries m) = 1000 /\ Mapper.entryCount m <= 1000) /\
  (forall info garbage messages v replies,
      Control.serve info (Control.handle_connections garbage) messages
      = Done (v, replies) ->
      length (Control.entries v) = 1000 /\ Control.visitorCount v <= 1000) /\
  (forall m t name port,
      Registry.add_command t name port ->
      is_unsigned_short port = true ->
      strlen name < Mapper.MAX_AIRPORT_ID_LENGTH ->
      strlen port < PORT_NUMBER_LENGTH ->
      Registry.absent m name ->
      (Mapper.entryCount m < length (Mapper.entries m) ->
       Mapper.add_map_entry m t = Done (Registry.push m name port)) /\
      (length (Mapper.entries m) <= Mapper.entryCount m ->
       Mapper.add_map_entry m t = MemoryFault)) /\
  (forall v id,
      strlen id < Control.MAX_AIRCRAFT_NAME_LENGTH ->
      (Control.visitorCount v < length (Control.entries v) ->
       Control.record_visit v id = Done (Node.push v id)) /\
      (length (Control.entries v) <= Control.visitorCount v ->
       Control.record_visit v id = MemoryFault)).
Proof.
  split; [done|]. split; [done|].
  split; [intros; split; [done|apply MapperFacts.handle_connections_length]|].
  split; [intros; split; [done|apply ControlFacts.node_block_length]|].
  split; [|split; [|split]].
  - intros garbage messages m replies Hs.
    refine (MapperFacts.serve_invariant
              (fun m => length (Mapper.entries m) = 1000 /\ Mapper.entryCount m <= 1000)
              _ messages _ m replies
              (conj (MapperFacts.handle_connections_length garbage) (Nat.le_0_l 1000))
              Hs).
    intros m0 line m' sent [Hlen Hcount] Hstep.
    rewrite (MapperFacts.step_entries_length _ _ _ _ Hstep). split; [done|].
    destruct (MapperFacts.step_entryCount _ _ _ _ Hstep) as [->|[-> Hlt]]; lia.
  - intros info garbage messages.
    assert (length (Control.entries (Control.handle_connections garbage)) = 1000 /\
            Control.visitorCount (Control.handle_connections garbage) <= 1000) as H0.
    { split; [apply ControlFacts.node_block_length|simpl; lia]. }
    revert H0. generalize (Control.handle_connections garbage) as v0.
    intros v0 H0 v replies. revert v0 v replies H0.
    induction messages as [|line rest IH]; intros v0 v replies H0 Hs.
    + by injection Hs as <- _.
    + apply ControlFacts.node_serve_cons_inv in Hs as (v1 & sent & r' & Hd & Hs & _).
      apply (IH v1 v r'); [|done]. apply ControlFacts.node_dispatch_step in Hd.
      rewrite (ControlFacts.node_step_entries_length _ _ _ _ _ Hd).
      destruct H0 as [Hlen Hcount]. split; [done|].
      destruct Hd; simpl; lia.
  - intros m t name port Hc Hp Hn Hl Ha.
    rewrite (MapperFacts.add_map_entry_parsed m t name port Hc), Hp. simpl.
    apply Nat.ltb_lt in Hn as ->, Hl as ->. simpl.
    rewrite bool_decide_eq_true_2 by done. split.
    + by intros ->%Nat.ltb_lt.
    + by intros ->%Nat.ltb_ge.
  - intros v id Hlen. rewrite ControlFacts.record_visit_cases.
    apply Nat.ltb_lt in Hlen as ->. simpl. split.
    + by intros ->%Nat.ltb_lt.
    + by intros ->%Nat.ltb_ge.
Qed.

Lemma fixed_capacity_witness :
  Mapper.add_map_entry Examples.registry_bne "!AKL:7070"
  = Done (Registry.push Examples.registry_bne "AKL" "7070") /\
  Mapper.add_map_entry Examples.full_registry "!AKL:7070" = MemoryFault /\
  Control.record_visit Examples.node_three_visits "NZ1"
  = Done (Node.push Examples.node_three_visits "NZ1") /\
  Control.record_visit Examples.full_node "NZ1" = MemoryFault.
Proof.
  destruct fixed_capacity as (_ & _ & _ & _ & _ & _ & Hadd & Hvisit).
  assert (Registry.add_command "!AKL:7070" "AKL" "7070") as Hc
    by (repeat split; vm_compute; congruence).
  split; [|split; [|split]].
  - apply (proj1 (Hadd Examples.registry_bne "!AKL:7070" "AKL" "7070" Hc
                    eq_refl ltac:(vm_compute; lia) ltac:(vm_compute; lia)
                    ltac:(vm_compute; reflexivity))).
    vm_compute. lia.
  - apply (proj2 (Hadd Examples.full_registry "!AKL:7070" "AKL" "7070" Hc
                    eq_refl ltac:(vm_compute; lia) ltac:(vm_compute; lia)
                    ltac:(vm_compute; reflexivity))).
    vm_compute. lia.
  - apply (proj1 (Hvisit Examples.node_three_visits "NZ1" ltac:(vm_compute; lia))).
    vm_compute. lia.
  - apply (proj2 (Hvisit Examples.full_node "NZ1" ltac:(vm_compute; lia))).
    vm_compute. lia.
Defined.

End CapacityClaims.

Section ClientClaims.
Import Libc Util Roc Order Bytes Client LibcFacts UtilFacts RocFacts.

(** C5, as the specification states it, fails: after a failed resolution
    the client visits nothing.  With the itinerary [XYZ, 8080], a mapper
    that answers [;] for XYZ and a node on 8080 that would answer, the
    client exits with ROC_CANNOT_RESOLVE_PORT, prints nothing on standard
    output and never connects to 8080. *)
Lemma resolution_failure_skips_visits :
  control_connection Examples.network_unresolved 1 "8080"
  = Some [Examples.line "Brisbane"] /\
  main Examples.network_unresolved ["roc2310"; "F100"; "3000"; "XYZ"; "8080"]
  = Done {| status := ROC_CANNOT_RESOLVE_PORT;
            stdout := EmptyString;
            stderr := Examples.line "No map entry for destination";
            trace := [Connected "3000"; Sent "3000" (Examples.line "?XYZ")] |}.
Proof. split; vm_compute; reflexivity. Qed.

(** C5, amended.  Let the mapper port be a valid port, let the mapper
    accept the connection, let every destination argument and every reply
    of the mapper, trimmed, be shorter than six bytes (the size of the
    buffers that [main] allocates for them), and let name number [k] of
    the itinerary get the reply [;] or no reply at all.  Then the client
    visits no destination.  It goes on to write one query for every name
    of the itinerary, also after the mapper has closed the connection.  As
    long as the connection takes these queries -- the one that finds the
    connection closed and the [writes_after_close] after it -- the client
    sends them all and then stops: it reports ROC_CANNOT_RESOLVE_PORT,
    connects to no destination and prints nothing on standard output.
    When the itinerary holds more names than that, the next query raises
    [SIGPIPE] and the client is killed before it reports anything. *)
Theorem resolution_failure_is_final (net : Network)
    (program aircraftID mapperPort : string) (args stream : list string) (k : nat) :
  is_unsigned_short mapperPort = true ->
  Forall (fun arg => strlen arg < PORT_NUMBER_LENGTH) args ->
  mapper_connection net mapperPort = Some stream ->
  Forall (fun reply => strlen (trim_newline reply) < PORT_NUMBER_LENGTH) stream ->
  k < length (names_of args) ->
  (stream !! k = None \/
   exists reply, stream !! k = Some reply /\ trim_newline reply = ";") ->
  (length (names_of args) <= S (length stream) + writes_after_close net ->
   main net (program :: aircraftID :: mapperPort :: args)
   = Done {| status := ROC_CANNOT_RESOLVE_PORT;
             stdout := EmptyString;
             stderr := "No map entry for destination" +:+ String LF EmptyString;
             trace := Connected mapperPort
                      :: (query mapperPort <$> names_of args) |}) /\
  (S (length stream) + writes_after_close net < length (names_of args) ->
   main net (program :: aircraftID :: mapperPort :: args) = BrokenPipe).
Proof.
  intros Hmapper Hargs Hconn Hstream Hk Hreply.
  unfold main.
  rewrite (copy_destinations_short args Hargs). cbn [bind].
  assert (bool_decide (strcmp mapperPort "-" = Eq) = false) as ->.
  { apply bool_decide_eq_false_2. intros ->%strcmp_eq. discriminate. }
  rewrite Hmapper. cbn [negb andb].
  assert (existsb (fun arg => negb (is_unsigned_short arg)) args = true) as ->.
  { apply existsb_exists. destruct (names_of args) as [|name names] eqn:Hn;
      [simpl in Hk; lia|].
    assert (name ∈ names_of args) as Hin by (rewrite Hn; left).
    apply list_elem_of_filter in Hin as [Hname Hin].
    exists name. split; [by apply list_elem_of_In|]. by rewrite Hname. }
  unfold resolve_destinations.
  rewrite (connect_to_port_checked _ _ _ Hmapper), Hconn. cbn [bind].
  change ((fun arg => {| size := PORT_NUMBER_LENGTH; text := arg |}) <$> args)
    with (destination <$> args).
  rewrite (resolve_loop_open net mapperPort args stream true Hstream).
  assert (all_resolved (names_of args) stream = false) as Hall.
  { apply all_resolved_false. eauto. }
  split; intros Hlen.
  - rewrite decide_True by done. rewrite Hall. reflexivity.
  - rewrite decide_False by lia. reflexivity.
Qed.

Lemma resolution_failure_is_final_witness :
  main Examples.network_unresolved ["roc2310"; "F100"; "3000"; "XYZ"; "8080"; "ABC"]
  = Done {| status := ROC_CANNOT_RESOLVE_PORT;
            stdout := EmptyString;
            stderr := "No map entry for destination" +:+ String LF EmptyString;
            trace := [Connected "3000"; Sent "3000" (Examples.line "?XYZ");
                      Sent "3000" (Examples.line "?ABC")] |} /\
  main Examples.network_unresolved ["roc2310"; "F100"; "3000"; "XYZ"; "ABC"; "DEF"]
  = BrokenPipe.
Proof.
  split.
  - apply (proj1 (resolution_failure_is_final Examples.network_unresolved
                    "roc2310" "F100" "3000" ["XYZ"; "8080"; "ABC"]
                    [Examples.line ";"] 1
                    eq_refl ltac:(repeat constructor) eq_refl
                    ltac:(repeat constructor) ltac:(vm_compute; lia)
                    (or_introl eq_refl))).
    vm_compute. lia.
  - apply (proj2 (resolution_failure_is_final Examples.network_unresolved
                    "roc2310" "F100" "3000" ["XYZ"; "ABC"; "DEF"]
                    [Examples.line ";"] 1
                    eq_refl ltac:(repeat constructor) eq_refl
                    ltac:(repeat constructor) ltac:(vm_compute; lia)
                    (or_introl eq_refl))).
    vm_compute. lia.
Defined.

(** C6. Partial-failure traversal.  Let the itinerary be the three
    addresses [A], [U], [B]; let the nodes at [A] and [B] accept the
    connection and answer with the lines [rA] and [rB], and let the
    connection to [U] fail.  Then the client connects to all three in
    order, sends its identity to [A] and to [B], prints the reply of [A]
    and then the reply of [B], each on its own line, prints nothing for
    [U], and reports ROC_FAILED_TO_CONNECT.  In general, for any itinerary
    of texts that name a service, in which every node that accepts the
    connection answers, [visit_destinations] attempts every destination in
    order, records the reply of each reachable one in its slot and nothing
    in the others, and returns success exactly when every connection
    succeeded: a failed visit never ends the loop. *)
Theorem partial_failure_traversal (net : Network)
    (program aircraftID mapperPort A U B rA rB : string) (moreA moreB : list string) :
  mapperPort = "-" \/ is_unsigned_short mapperPort = true ->
  is_unsigned_short A = true -> strlen A < PORT_NUMBER_LENGTH ->
  is_unsigned_short U = true -> strlen U < PORT_NUMBER_LENGTH ->
  is_unsigned_short B = true -> strlen B < PORT_NUMBER_LENGTH ->
  control_connection net 0 A = Some (rA :: moreA) -> strlen rA < RESPONSE_BUFFER_SIZE ->
  control_connection net 1 U = None ->
  control_connection net 2 B = Some (rB :: moreB) -> strlen rB < RESPONSE_BUFFER_SIZE ->
  main net [program; aircraftID; mapperPort; A; U; B]
  = Done {| status := ROC_FAILED_TO_CONNECT;
            stdout := (trim_newline rA +:+ String LF EmptyString)
                      +:+ (trim_newline rB +:+ String LF EmptyString);
            stderr := "Failed to connect to at least one destination"
                      +:+ String LF EmptyString;
            trace := [Connected A; Sent A (aircraftID +:+ String LF EmptyString);
                      ConnectFailed U;
                      Connected B; Sent B (aircraftID +:+ String LF EmptyString)] |} /\
  forall (destinations : list Destination),
    Forall id (itinerary (answers net) 0 destinations) ->
    visit_destinations net destinations aircraftID
    = Done (forallb id (itinerary (connected net) 0 destinations),
            itinerary (visit_result net) 0 destinations,
            concat (itinerary (visit_events net aircraftID) 0 destinations)).
Proof.
  intros Hmapper HA HlA HU HlU HB HlB HcA HrA HcU HcB HrB. split.
  - unfold main.
    rewrite (copy_destinations_short [A; U; B])
      by (repeat (constructor; [done|]); constructor).
    cbn [bind existsb]. rewrite HA, HU, HB. cbn [negb orb].
    assert ((negb (bool_decide (strcmp mapperPort "-" = Eq))
             && negb (is_unsigned_short mapperPort)) = false) as ->.
    { destruct Hmapper as [->| ->]; [done|]. apply andb_false_r. }
    rewrite andb_false_r. cbn [bind].
    unfold visit_destinations. rewrite visit_loop_spec.
    + cbn [bind itinerary forallb concat fmap list_fmap].
      unfold connected, visit_result, visit_events. cbn [text].
      rewrite HcA, HcU, HcB.
      rewrite bool_decide_eq_true_2 by eauto.
      rewrite bool_decide_eq_false_2 by (by intros [? ?]).
      cbn [andb id]. unfold exit_with, print_destination_info.
      cbn [omap list_omap roc_error fst snd id app Mapper.print_lines].
      by rewrite append_empty_r.
    + cbn [itinerary fmap list_fmap]. unfold answers. cbn [text].
      rewrite HA, HU, HB, HcA, HcU, HcB. repeat (constructor; [done|]). constructor.
  - intros destinations Hans. unfold visit_destinations.
    by rewrite visit_loop_spec.
Qed.

Lemma partial_failure_traversal_witness :
  main Examples.network_partial ["roc2310"; "F100"; "-"; "8080"; "8081"; "8082"]
  = Done {| status := ROC_FAILED_TO_CONNECT;
            stdout := Examples.line "Brisbane" +:+ Examples.line "Sydney";
            stderr := Examples.line "Failed to connect to at least one destination";
            trace := [Connected "8080"; Sent "8080" (Examples.line "F100");
                      ConnectFailed "8081";
                      Connected "8082"; Sent "8082" (Examples.line "F100")] |}.
Proof.
  refine (proj1 (partial_failure_traversal Examples.network_partial
                   "roc2310" "F100" "-" "8080" "8081" "8082"
                   (Examples.line "Brisbane") (Examples.line "Sydney") [] []
                   (or_introl eq_refl) eq_refl _ eq_refl _ eq_refl _
                   eq_refl _ eq_refl eq_refl _));
    vm_compute; lia.
Defined.

End ClientClaims.

Section LockClaims.
Import Libc Util Order Bytes LibcFacts UtilFacts.

Lemma registry_run_serially (m m' : Mapper.Mapping) (messages : list string) :
  run_serially Mapper.dispatch m messages = Done m' ->
  exists replies, Mapper.serve m messages = Done (m', replies).
Proof.
  revert m. induction messages as [|line rest IH]; intros m; simpl.
  - intros [= <-]. by exists [].
  - destruct (Mapper.dispatch m line) as [[m1 sent]| |]; simpl; [|done..].
    intros (replies & ->)%IH. simpl. by exists (sent :: replies).
Qed.

Lemma node_run_serially (info : string) (v v' : Control.Visitors)
    (messages : list string) :
  run_serially (Control.dispatch info) v messages = Done v' ->
  exists replies, Control.serve info v messages = Done (v', replies).
Proof.
  revert v. induction messages as [|line rest IH]; intros v; simpl.
  - intros [= <-]. by exists [].
  - destruct (Control.dispatch info v line) as [[v1 sent]| |]; simpl; [|done..].
    intros (replies & ->)%IH. simpl. by exists (sent :: replies).
Qed.

(** C9. Mutual exclusion and serialization.  In every state that a
    registry or a service node reaches from its start, whatever the
    streams of its connections and however its workers are scheduled:
    a worker that has begun and not finished a dispatch holds the lock,
    the lock is held only by such a worker (never by one that waits for a
    line), no two workers are inside a dispatch together; the shared
    table or log is the result of dispatching, one after the other, the
    messages in the order in which their dispatches completed; and the
    messages that a worker has dispatched together with those still
    ahead of it are exactly its stream, so that nothing is lost or done
    twice, and a worker that has closed has dispatched its whole
    stream.

    What the table and the log then hold, from the fresh start of the
    process.  The names in the table are pairwise distinct, and the table
    holds [name] with [port] exactly when, among the messages dispatched
    so far, the first valid add command for [name] is the one for [port]:
    every accepted add is there, once, and nothing else is.  The log holds
    one record for every message dispatched so far that is not the log
    command, and nothing else.  Once every worker has closed, the
    messages dispatched are those of all the streams, each one once: the
    table holds exactly the names of the valid add commands of the
    streams, and the log exactly their visits, as often as they were
    sent. *)
Theorem lock_serializes :
  (forall (m : Mapper.Mapping) (streams : list (list string))
          (p : process Mapper.Mapping),
      reachable Mapper.dispatch (start m streams) p ->
      serialized Mapper.serve m streams p) /\
  (forall (info : string) (v : Control.Visitors) (streams : list (list string))
          (p : process Control.Visitors),
      reachable (Control.dispatch info) (start v streams) p ->
      serialized (Control.serve info) v streams p) /\
  (forall (garbage : nat -> Mapper.MapEntry) (streams : list (list string))
          (p : process Mapper.Mapping),
      reachable Mapper.dispatch (start (Mapper.handle_connections garbage) streams) p ->
      Registry.unique_names (shared p) /\
      (forall name port,
          Registry.registered (shared p) name port
          <-> Registry.accepted_add (snd <$> history p) name port) /\
      (Forall (fun w => w = Closed) (workers p) ->
       snd <$> history p ≡ₚ concat streams /\
       forall name,
         ~ Registry.absent (shared p) name
         <-> exists line port,
               line ∈ concat streams /\ Registry.valid_add line name port)) /\
  (forall (info : string) (garbage : nat -> Control.VisitorEntry)
          (streams : list (list string)) (p : process Control.Visitors),
      reachable (Control.dispatch info)
        (start (Control.handle_connections garbage) streams) p ->
      Control.aircraftID <$> Node.live (shared p)
      ≡ₚ Node.visits_of (snd <$> history p) /\
      (Forall (fun w => w = Closed) (workers p) ->
       snd <$> history p ≡ₚ concat streams /\
       Control.aircraftID <$> Node.live (shared p)
       ≡ₚ Node.visits_of (concat streams))).
Proof.
  assert (forall (m : Mapper.Mapping) (streams : list (list string))
                 (p : process Mapper.Mapping),
             reachable Mapper.dispatch (start m streams) p ->
             serialized Mapper.serve m streams p) as Hregistry.
  { intros m streams p Hr. pose proof (reachable_invariant _ _ _ _ Hr) as Hinv.
    destruct Hinv as [Hholder Hseen Hserial Hstreams Howner].
    repeat split; auto.
    + intros i j wi wj Hi Hj Hini Hinj.
      pose proof (Hholder i wi Hi Hini). pose proof (Hholder j wj Hj Hinj). congruence.
    + by apply registry_run_serially.
    + intros i stream Hw Hs. by eapply closed_all_dispatched. }
  assert (forall (info : string) (v : Control.Visitors) (streams : list (list string))
                 (p : process Control.Visitors),
             reachable (Control.dispatch info) (start v streams) p ->
             serialized (Control.serve info) v streams p) as Hnode.
  { intros info v streams p Hr. pose proof (reachable_invariant _ _ _ _ Hr) as Hinv.
    destruct Hinv as [Hholder Hseen Hserial Hstreams Howner].
    repeat split; auto.
    + intros i j wi wj Hi Hj Hini Hinj.
      pose proof (Hholder i wi Hi Hini). pose proof (Hholder j wj Hj Hinj). congruence.
    + by apply node_run_serially.
    + intros i stream Hw Hs. by eapply closed_all_dispatched. }
  split; [exact Hregistry|]. split; [exact Hnode|]. split.
  - intros garbage streams p Hr.
    destruct (Hregistry _ _ _ Hr) as (_ & _ & _ & (replies & Hs) & _).
    assert (forall name, Registry.absent (Mapper.handle_connections garbage) name)
      as Hfresh.
    { intros name. apply MapperFacts.absent_iff.
      rewrite MapperFacts.handle_connections_live. apply not_elem_of_nil. }
    split; [by eapply MapperFacts.reachable_unique_names|]. split.
    + intros name port. rewrite (MapperFacts.serve_accepted _ _ _ _ name port Hs). split.
      * intros [[Hin _]|[_ Hacc]]; [|done].
        rewrite MapperFacts.handle_connections_live in Hin.
        by apply not_elem_of_nil in Hin.
      * intros Hacc. right. by split.
    + intros Hclosed.
      pose proof (closed_history Mapper.dispatch _ _ _ Hr Hclosed) as Hp.
      split; [done|]. intros name. rewrite (MapperFacts.serve_names _ _ _ _ name Hs). split.
      * intros [Hin|(line & port & Hin & Hv)]; [by destruct (Hin (Hfresh name))|].
        exists line, port. split; [by rewrite <- Hp|done].
      * intros (line & port & Hin & Hv). right.
        exists line, port. split; [by rewrite Hp|done].
  - intros info garbage streams p Hr.
    destruct (Hnode _ _ _ _ Hr) as (_ & _ & _ & (replies & Hs) & _).
    pose proof (ControlFacts.serve_recorded _ _ _ _ _ Hs) as Hlog.
    rewrite ControlFacts.node_starts_empty in Hlog. simpl in Hlog.
    split; [done|]. intros Hclosed.
    pose proof (closed_history (Control.dispatch info) _ _ _ Hr Hclosed) as Hp.
    split; [done|]. by rewrite Hlog, (ControlFacts.visits_of_perm _ _ Hp).
Qed.

Lemma lock_serializes_witness :
  workers Examples.two_workers_end = [Closed; Closed] /\
  history Examples.two_workers_end
  = [(1, Examples.line "!AKL:7070"); (0, Examples.line "!BNE:8080");
     (0, Examples.line "?AKL")] /\
  serialized Mapper.serve Examples.fresh_registry Examples.two_streams
    Examples.two_workers_end /\
  (forall name port,
      Registry.registered (shared Examples.two_workers_end) name port
      <-> Registry.accepted_add
            [Examples.line "!AKL:7070"; Examples.line "!BNE:8080";
             Examples.line "?AKL"] name port) /\
  Registry.live (shared Examples.two_workers_end)
  = [{| Mapper.airportName := "AKL"; Mapper.portNumber := "7070" |};
     {| Mapper.airportName := "BNE"; Mapper.portNumber := "8080" |}] /\
  workers Examples.node_workers_end = [Closed; Closed] /\
  Control.aircraftID <$> Node.live (shared Examples.node_workers_end)
  ≡ₚ ["QF2"; "NZ1"].
Proof.
  split; [vm_compute; reflexivity|]. split; [vm_compute; reflexivity|].
  split; [apply (proj1 lock_serializes); apply reachable_schedule|].
  split.
  - apply (proj1 (proj2 (proj1 (proj2 (proj2 lock_serializes))
                           (fun _ => {| Mapper.airportName := "stale";
                                        Mapper.portNumber := "1" |})
                           Examples.two_streams Examples.two_workers_end
                           (reachable_schedule _ _ _)))).
  - split; [vm_compute; reflexivity|]. split; [vm_compute; reflexivity|].
    apply (proj2 (proj2 (proj2 (proj2 (proj2 lock_serializes))
                           "Brisbane" _ Examples.node_streams
                           Examples.node_workers_end
                           (reachable_schedule _ _ _))
                    ltac:(vm_compute; repeat constructor))).
Defined.

Lemma without_the_lock_an_add_is_lost :
  let p := foldl (fun p i => Examples.advance_without_lock i p)
             (start Examples.fresh_registry Examples.two_streams)
             [0; 1; 0; 1; 0; 1; 0; 1] in
  history p = [(0, Examples.line "!BNE:8080"); (1, Examples.line "!AKL:7070")] /\
  Registry.live (shared p)
  = [{| Mapper.airportName := "AKL"; Mapper.portNumber := "7070" |}].
Proof. split; vm_compute; reflexivity. Qed.

End LockClaims.

(** * Further properties of the code *)

(** ** util.c *)

Module StringFacts.
Import Libc Util Order Bytes LibcFacts UtilFacts.

Lemma count_char_app (c : ascii) (o1 o2 : string) :
  count_char c (o1 +:+ o2) = count_char c o1 + count_char c o2.
Proof. induction o1 as [|x o1 IH]; simpl; [done|]. rewrite IH. lia. Qed.

Lemma count_char_zero (c : ascii) (occ : string) :
  count_char c occ = 0 <-> contains c occ = false.
Proof.
  induction occ as [|x occ IH]; simpl; [done|].
  rewrite (Ascii.eqb_sym c x).
  destruct (Ascii.eqb x c); simpl; [split; [lia|done]|done].
Qed.

Lemma count_occurrences_app_r (s o1 o2 : string) :
  count_occurrences s (o1 +:+ o2) = count_occurrences s o1 + count_occurrences s o2.
Proof.
  induction s as [|c s IH]; simpl; [done|]. rewrite IH, count_char_app. lia.
Qed.

Lemma count_occurrences_zero (s occ : string) :
  count_occurrences s occ = 0
  <-> forall c, contains c s = true -> contains c occ = false.
Proof.
  induction s as [|x s IH]; simpl; [done|]. split.
  - intros H c Hc. apply orb_true_iff in Hc as [Hx|Hc].
    + apply Ascii.eqb_eq in Hx as <-. apply count_char_zero. lia.
    + apply IH; [lia|done].
  - intros H. assert (count_char x occ = 0) as ->.
    { apply count_char_zero, H. by rewrite Ascii.eqb_refl. }
    apply IH. intros c Hc. apply H. rewrite Hc. apply orb_true_r.
Qed.

Lemma trim_newline_app (a b : string) :
  contains LF a = false -> trim_newline (a +:+ b) = a +:+ trim_newline b.
Proof.
  induction a as [|x a IH]; [done|]. simpl.
  destruct (Ascii.eqb x LF); simpl; [done|]. intros H.
  change (String x (trim_newline (a +:+ b)) = String x (a +:+ trim_newline b)).
  by rewrite IH.
Qed.

Lemma trim_newline_cut (a b : string) :
  contains LF a = false -> trim_newline (a +:+ String LF b) = a.
Proof.
  intros Ha. rewrite (trim_newline_app a _ Ha). simpl. apply append_empty_r.
Qed.

Lemma trim_newline_strlen (s : string) : strlen (trim_newline s) <= strlen s.
Proof.
  induction s as [|c s IH]; simpl; [done|].
  destruct (Ascii.eqb c LF); unfold strlen in *; simpl; lia.
Qed.

Lemma strlen_line (s : string) : strlen (s +:+ String LF EmptyString) = S (strlen s).
Proof.
  induction s as [|c s IH]; [done|].
  change (S (strlen (s +:+ String LF EmptyString)) = S (S (strlen s))). by rewrite IH.
Qed.

(** A string of digits holds no byte that is not a digit. *)
Lemma is_numeric_contains (c : ascii) (s : string) :
  is_numeric s = true -> isdigit c = false -> contains c s = false.
Proof.
  intros Hs Hc. induction s as [|x s IH]; simpl in *; [done|].
  destruct (isdigit x) eqn:Hx; simpl in Hs; [|done].
  rewrite (IH Hs), orb_false_r. apply Ascii.eqb_neq. intros ->. congruence.
Qed.

End StringFacts.

Section UtilProperties.
Import Libc Util Order Bytes LibcFacts UtilFacts StringFacts.

(** X1. [count_occurrences] counts pairs of a byte of the string and an
    equal byte of [occurrences]: it is additive in the string searched
    and in the bytes counted (a byte listed twice counts twice), and it is
    zero exactly when no byte of the string is among the bytes counted,
    which is the only way its callers use it. *)
Theorem count_occurrences_counts (s s' occ occ' : string) :
  count_occurrences (s +:+ s') occ
  = count_occurrences s occ + count_occurrences s' occ /\
  count_occurrences s (occ +:+ occ')
  = count_occurrences s occ + count_occurrences s occ' /\
  (count_occurrences s occ = 0
   <-> forall c, contains c s = true -> contains c occ = false).
Proof.
  split; [apply count_occurrences_app|].
  split; [apply count_occurrences_app_r|apply count_occurrences_zero].
Qed.

(** X2. [is_unsigned_short] accepts a string only if it is not empty
    and all its bytes are digits, so a sign, a blank or a trailing line
    feed makes it refuse.  For up to nine digits, where [atoi] is exact,
    it accepts exactly the values in (0, 65535]: zero is refused.  Zeros
    in front do not matter, so one port has several accepted spellings. *)
Theorem is_unsigned_short_accepts (s : string) :
  (is_unsigned_short s = true -> s <> EmptyString /\ is_numeric s = true) /\
  (strlen s <= 9 ->
   (is_unsigned_short s = true
    <-> is_numeric s = true /\ (0 < digits_value 0 s <= 65535)%Z)) /\
  is_unsigned_short (String "0" s) = is_unsigned_short s.
Proof.
  split; [|split].
  - intros H. split; [|by apply is_unsigned_short_numeric].
    intros ->. discriminate.
  - intros Hlen. apply (is_unsigned_short_valid s Hlen).
  - reflexivity.
Qed.

Lemma is_unsigned_short_accepts_witness :
  is_unsigned_short "00080" = true /\ is_unsigned_short "65536" = false.
Proof.
  split.
  - apply (proj2 (proj1 (proj2 (is_unsigned_short_accepts "00080"))
                    ltac:(vm_compute; lia))).
    split; [reflexivity|]. vm_compute. split; [reflexivity|discriminate].
  - destruct (is_unsigned_short "65536") eqn:H; [|reflexivity].
    apply (proj1 (proj1 (proj2 (is_unsigned_short_accepts "65536"))
                    ltac:(vm_compute; lia))) in H.
    destruct H as [_ [_ H]]. vm_compute in H. by destruct H.
Defined.

(** X3. [trim_newline] cuts a string at its first line feed: what comes
    before it is kept, the line feed and everything after it are dropped.
    A string without a line feed is left as it is; the result never holds
    a line feed and is never longer than the string. *)
Theorem trim_newline_first_line (s : string) :
  contains LF (trim_newline s) = false /\
  strlen (trim_newline s) <= strlen s /\
  (contains LF s = false -> trim_newline s = s) /\
  (forall a b, s = a +:+ String LF b -> contains LF a = false -> trim_newline s = a).
Proof.
  split; [apply trim_newline_no_LF|]. split; [apply trim_newline_strlen|].
  split; [apply trim_newline_id|].
  intros a b -> Ha. by apply trim_newline_cut.
Qed.

Lemma trim_newline_first_line_witness :
  trim_newline ("?BNE" +:+ String LF "?AKL") = "?BNE".
Proof.
  apply (proj2 (proj2 (proj2 (trim_newline_first_line ("?BNE" +:+ String LF "?AKL"))))
           "?BNE" "?AKL" eq_refl eq_refl).
Defined.

End UtilProperties.

(** ** port.c: the text of a port *)

Module PortFacts.
Import Libc Util Port Order Bytes LibcFacts UtilFacts StringFacts.

Lemma pretty_N_char_digit (d : N) : isdigit (pretty_N_char d) = true.
Proof. unfold pretty_N_char. by repeat case_match. Qed.

Lemma pretty_N_char_value (d : N) :
  (d < 10)%N -> (Z.of_N (N_of_ascii (pretty_N_char d)) - 48 = Z.of_N d)%Z.
Proof.
  intros Hd.
  assert (d = 0 \/ d = 1 \/ d = 2 \/ d = 3 \/ d = 4 \/ d = 5 \/ d = 6 \/ d = 7
          \/ d = 8 \/ d = 9)%N as H by lia.
  by repeat (destruct H as [->|H]; [done|]); subst.
Qed.

Lemma pretty_N_go_numeric (n : N) (s : string) :
  is_numeric (pretty_N_go n s) = is_numeric s.
Proof.
  revert s. induction (N.lt_wf_0 n) as [n _ IH]; intros s.
  destruct (decide (n = 0)%N) as [->|Hn]; [done|].
  rewrite pretty_N_go_step by lia.
  rewrite IH by (apply N.div_lt; lia).
  simpl. by rewrite pretty_N_char_digit.
Qed.

Lemma pretty_N_go_value (n : N) (s : string) :
  digits_value 0 (pretty_N_go n s) = digits_value (Z.of_N n) s.
Proof.
  revert s. induction (N.lt_wf_0 n) as [n _ IH]; intros s.
  destruct (decide (n = 0)%N) as [->|Hn]; [done|].
  rewrite pretty_N_go_step by lia.
  rewrite IH by (apply N.div_lt; lia).
  simpl. rewrite pretty_N_char_digit.
  rewrite pretty_N_char_value by (apply N.mod_lt; lia).
  f_equal. rewrite N2Z.inj_div, N2Z.inj_mod. simpl Z.of_N.
  pose proof (Z.div_mod (Z.of_N n) 10 ltac:(lia)). lia.
Qed.

Lemma pretty_N_go_strlen (k : nat) (n : N) (s : string) :
  (n < 10 ^ N.of_nat k)%N -> strlen (pretty_N_go n s) <= k + strlen s.
Proof.
  revert n s. induction k as [|k IH]; intros n s Hn.
  - assert (n = 0%N) as -> by (simpl in Hn; lia). rewrite pretty_N_go_0. lia.
  - destruct (decide (n = 0)%N) as [->|Hn0]; [rewrite pretty_N_go_0; lia|].
    rewrite pretty_N_go_step by lia.
    etrans; [apply IH|].
    + apply N.Div0.div_lt_upper_bound.
      rewrite Nat2N.inj_succ, N.pow_succ_r' in Hn. lia.
    + unfold strlen. simpl. lia.
Qed.

Lemma pretty_N_go_grows (n : N) (s : string) :
  strlen s <= strlen (pretty_N_go n s).
Proof.
  revert s. induction (N.lt_wf_0 n) as [n _ IH]; intros s.
  destruct (decide (n = 0)%N) as [->|Hn]; [done|].
  rewrite pretty_N_go_step by lia.
  etrans; [|apply IH; apply N.div_lt; lia]. unfold strlen. simpl. lia.
Qed.

Lemma pretty_N_go_nonempty (n : N) (s : string) :
  (0 < n)%N -> pretty_N_go n s <> EmptyString.
Proof.
  intros Hn H. rewrite pretty_N_go_step in H by done.
  pose proof (pretty_N_go_grows (n `div` 10)
                (String (pretty_N_char (n `mod` 10)) s)) as Hl.
  rewrite H in Hl. unfold strlen in Hl. simpl in Hl. lia.
Qed.

Lemma pretty_N_numeric (n : N) : is_numeric (pretty n) = true.
Proof.
  unfold pretty, pretty_N. case_decide; [done|]. by rewrite pretty_N_go_numeric.
Qed.

Lemma pretty_N_value (n : N) : digits_value 0 (pretty n) = Z.of_N n.
Proof.
  unfold pretty, pretty_N. case_decide as Hn; [by subst|].
  by rewrite pretty_N_go_value.
Qed.

Lemma pretty_N_strlen (k : nat) (n : N) :
  0 < k -> (n < 10 ^ N.of_nat k)%N -> strlen (pretty n) <= k.
Proof.
  intros Hk Hn. unfold pretty, pretty_N. case_decide; [simpl; unfold strlen; simpl; lia|].
  etrans; [by apply pretty_N_go_strlen|]. unfold strlen. simpl. lia.
Qed.

Lemma pretty_N_nonempty (n : N) : pretty n <> EmptyString.
Proof.
  unfold pretty, pretty_N. case_decide; [done|]. apply pretty_N_go_nonempty. lia.
Qed.

Lemma substring_all (n : nat) (s : string) :
  strlen s <= n -> String.substring 0 n s = s.
Proof.
  revert n. induction s as [|c s IH]; intros [|n] Hlen; simpl; try done.
  - unfold strlen in Hlen. simpl in Hlen. lia.
  - rewrite IH; [done|]. unfold strlen in *. simpl in Hlen. lia.
Qed.

(** The five bytes before the NUL hold every [uint16_t]. *)
Lemma get_port_from_socket_pretty (port : N) :
  get_port_from_socket port = pretty (port mod 2 ^ 16)%N.
Proof.
  unfold get_port_from_socket, snprintf_d. apply substring_all.
  apply (pretty_N_strlen 5); [lia|].
  pose proof (N.mod_lt port (2 ^ 16) ltac:(done)) as H.
  change (2 ^ 16)%N with 65536%N in *. change (10 ^ N.of_nat 5)%N with 100000%N. lia.
Qed.

Lemma get_port_from_socket_strlen (port : N) :
  strlen (get_port_from_socket port) < PORT_NUMBER_LENGTH.
Proof.
  rewrite get_port_from_socket_pretty.
  assert (strlen (pretty (port mod 2 ^ 16)%N) <= 5); [|unfold PORT_NUMBER_LENGTH; lia].
  apply (pretty_N_strlen 5); [lia|].
  pose proof (N.mod_lt port (2 ^ 16) ltac:(done)) as H.
  change (2 ^ 16)%N with 65536%N in *. change (10 ^ N.of_nat 5)%N with 100000%N. lia.
Qed.

Lemma get_port_from_socket_numeric (port : N) :
  is_numeric (get_port_from_socket port) = true.
Proof. rewrite get_port_from_socket_pretty. apply pretty_N_numeric. Qed.

Lemma get_port_from_socket_atoi (port : N) :
  atoi (get_port_from_socket port) = Z.of_N (port mod 2 ^ 16).
Proof.
  pose proof (get_port_from_socket_strlen port) as Hlen.
  unfold PORT_NUMBER_LENGTH in Hlen. revert Hlen.
  rewrite get_port_from_socket_pretty. intros Hlen.
  rewrite atoi_exact by (auto using pretty_N_numeric; lia).
  apply pretty_N_value.
Qed.

Lemma get_port_from_socket_valid (port : N) :
  is_unsigned_short (get_port_from_socket port) = true <-> (port mod 2 ^ 16 <> 0)%N.
Proof.
  unfold is_unsigned_short. rewrite get_port_from_socket_atoi.
  rewrite get_port_from_socket_numeric. simpl.
  pose proof (N.mod_lt port (2 ^ 16) ltac:(done)) as H.
  revert H. generalize (port mod 2 ^ 16)%N as p. intros p H.
  change (2 ^ 16)%N with 65536%N in H. unfold USHRT_MAX.
  destruct (Z.leb_spec (Z.of_N p) 0), (Z.gtb_spec (Z.of_N p) 65535); simpl;
    split; intros; try done; try lia.
Qed.

End PortFacts.

Section PortProperties.
Import Libc Util Port Order Bytes LibcFacts UtilFacts StringFacts PortFacts.

(** X4. The text that [get_port_from_socket] gives for a port is its
    decimal numeral: the buffer of [PORT_NUMBER_LENGTH] bytes never cuts
    it, it consists of digits, [atoi] reads the port back from it, and
    [is_unsigned_short] accepts it exactly when the port is not zero.  So
    the line that a server prints on start is accepted as a port by the
    programs that are given it. *)
Theorem port_text_round_trip (port : N) :
  get_port_from_socket port = pretty (port mod 2 ^ 16)%N /\
  strlen (get_port_from_socket port) < PORT_NUMBER_LENGTH /\
  is_numeric (get_port_from_socket port) = true /\
  atoi (get_port_from_socket port) = Z.of_N (port mod 2 ^ 16) /\
  (is_unsigned_short (get_port_from_socket port) = true
   <-> (port mod 2 ^ 16 <> 0)%N) /\
  trim_newline (Mapper.main port) = get_port_from_socket port.
Proof.
  split; [apply get_port_from_socket_pretty|].
  split; [apply get_port_from_socket_strlen|].
  split; [apply get_port_from_socket_numeric|].
  split; [apply get_port_from_socket_atoi|].
  split; [apply get_port_from_socket_valid|].
  unfold Mapper.main. apply trim_newline_line.
  apply is_numeric_contains; [apply get_port_from_socket_numeric|done].
Qed.

End PortProperties.

(** ** The registry *)

Module TableFacts.
Import Libc Util Mapper Order Bytes Registry LibcFacts UtilFacts MapperFacts.
Import StringFacts.

Lemma registration_trim (name port : string) :
  contains LF name = false -> contains LF port = false ->
  trim_newline (registration name port) = String "!" (name +:+ String ":" port).
Proof.
  intros Hid Hport.
  change (registration name port)
    with (String "!" (name +:+ String ":" (port +:+ String LF EmptyString))).
  change (trim_newline (String "!" ?s)) with (String "!" (trim_newline s)).
  rewrite (trim_newline_app name _ Hid).
  change (trim_newline (String ":" ?s)) with (String ":" (trim_newline s)).
  by rewrite (trim_newline_line port Hport).
Qed.

Lemma registration_command (name port : string) :
  name <> EmptyString -> contains ":" name = false -> contains CR name = false ->
  contains LF name = false -> port <> EmptyString -> is_numeric port = true ->
  add_command (trim_newline (registration name port)) name port.
Proof.
  intros Hne Hcolon Hcr Hlf Hport Hnum.
  rewrite registration_trim by (auto using is_numeric_contains).
  repeat split; auto.
  - by apply is_numeric_contains.
  - cbn [contains]. rewrite contains_app. cbn [contains].
    rewrite Hcr, (is_numeric_contains CR _ Hnum) by done. done.
Qed.

Lemma valid_port_nonempty (port : string) : valid_port port -> port <> EmptyString.
Proof. intros [_ Hv] ->. simpl in Hv. lia. Qed.

Lemma well_formed_command (e : MapEntry) :
  well_formed e ->
  add_command (trim_newline (registration (airportName e) (portNumber e)))
    (airportName e) (portNumber e).
Proof.
  intros (Hne & Hcolon & Hcr & Hlf & _ & Hv & _).
  apply registration_command; auto using valid_port_nonempty. apply Hv.
Qed.

Lemma add_command_name (t name port : string) :
  add_command t name port -> contains LF t = false ->
  name <> EmptyString /\ contains ":" name = false /\ contains CR name = false /\
  contains LF name = false.
Proof.
  intros (-> & Hne & _ & Hcolon & _ & Hcr) Hlf.
  cbn [contains] in Hcr, Hlf. rewrite contains_app in Hcr, Hlf.
  apply orb_false_iff in Hcr as [_ [Hcr _]%orb_false_iff].
  apply orb_false_iff in Hlf as [_ [Hlf _]%orb_false_iff]. done.
Qed.

Lemma step_well_formed (m m' : Mapping) (line sent : string) :
  Forall well_formed (live m) -> step m line m' sent -> Forall well_formed (live m').
Proof.
  intros Hwf [Et|name Et|name port Hc Hp Hn Hl Ha Hfree|name port _ _ _ _ _
             |name port _ _| _]; auto.
  - by rewrite live_sort_perm.
  - rewrite live_push by done. apply Forall_app. split; [done|].
    apply Forall_singleton.
    destruct (add_command_name _ _ _ Hc (trim_newline_no_LF line))
      as (Hne & Hcolon & Hcr & Hlf).
    repeat split; auto.
    + apply is_unsigned_short_numeric, Hp.
    + apply is_unsigned_short_valid in Hp; [apply Hp|].
      unfold PORT_NUMBER_LENGTH in Hl. simpl. lia.
    + apply is_unsigned_short_valid in Hp; [apply Hp|].
      unfold PORT_NUMBER_LENGTH in Hl. simpl. lia.
Qed.

Lemma reachable_well_formed (garbage : nat -> MapEntry) (messages : list string)
    (m : Mapping) (replies : list string) :
  serve (handle_connections garbage) messages = Done (m, replies) ->
  Forall well_formed (live m).
Proof.
  apply (serve_invariant (fun m => Forall well_formed (live m))).
  - intros m0 line m' sent. apply step_well_formed.
  - rewrite handle_connections_live. constructor.
Qed.

Lemma reachable_capacity (garbage : nat -> MapEntry) (messages : list string)
    (m : Mapping) (replies : list string) :
  serve (handle_connections garbage) messages = Done (m, replies) ->
  length (entries m) = MAX_MAP_ENTRIES /\ entryCount m <= MAX_MAP_ENTRIES.
Proof.
  apply (serve_invariant
           (fun m => length (entries m) = MAX_MAP_ENTRIES /\
                     entryCount m <= MAX_MAP_ENTRIES)).
  - intros m0 line m' sent [Hlen Hcount] Hstep.
    rewrite (step_entries_length _ _ _ _ Hstep). split; [done|].
    destruct (step_entryCount _ _ _ _ Hstep) as [->|[-> Hlt]]; lia.
  - split; [apply handle_connections_length|simpl; lia].
Qed.

Lemma live_length (m : Mapping) :
  entryCount m <= length (entries m) -> length (live m) = entryCount m.
Proof. intros H. unfold live. rewrite length_take. lia. Qed.

(** In a table with distinct names the reply to a query depends only on
    the set of entries in use. *)
Lemma query_reply_perm (m1 m2 : Mapping) (name : string) :
  unique_names m1 -> live m1 ≡ₚ live m2 ->
  query_reply m1 name = query_reply m2 name.
Proof.
  intros Hu Hp.
  assert (unique_names m2) as Hu2 by (unfold unique_names; by rewrite <- Hp).
  destruct (decide (absent m1 name)) as [Ha|Ha].
  - rewrite (absent_query_reply m1 name Ha). symmetry. apply absent_query_reply.
    apply absent_iff. rewrite <- Hp. by apply absent_iff.
  - assert (exists e, e ∈ live m1 /\ airportName e = name) as (e & He & <-).
    { destruct (decide (name ∈ airportName <$> live m1)) as [Hin|Hn].
      - apply list_elem_of_fmap in Hin as (e & -> & He). eauto.
      - by apply absent_iff in Hn. }
    assert (forall m, unique_names m -> e ∈ live m ->
                      registered m (airportName e) (portNumber e)) as Hreg.
    { intros m Hm Hin. destruct e as [n p]. split; [done|].
      intros e' He' Hn. simpl in *.
      unfold unique_names in Hm.
      apply list_elem_of_lookup in Hin as [i Hi], He' as [j Hj].
      assert (i = j) as ->.
      { apply (NoDup_lookup _ i j n Hm); rewrite list_lookup_fmap.
        - by rewrite Hi.
        - rewrite Hj. simpl. by rewrite Hn. }
      congruence. }
    rewrite (registered_query_reply m1 _ _ (Hreg m1 Hu He)).
    rewrite (registered_query_reply m2 _ _ (Hreg m2 Hu2 ltac:(by rewrite <- Hp))).
    done.
Qed.

Lemma absent_push (m : Mapping) (name port other : string) :
  entryCount m < length (entries m) ->
  absent (push m name port) other <-> other <> name /\ absent m other.
Proof.
  intros Hfree. rewrite !absent_iff, live_push by done.
  rewrite fmap_app, elem_of_app. simpl. rewrite list_elem_of_singleton.
  split; [intros H; split; intros ?; apply H; auto|].
  intros [H1 H2] [H|H]; auto.
Qed.

(** A run of registrations of well-formed entries with new, distinct
    names appends them in order. *)
Lemma serve_registrations (es : list MapEntry) (m : Mapping) :
  Forall well_formed es ->
  NoDup (airportName <$> es) ->
  (forall e, e ∈ es -> absent m (airportName e)) ->
  entryCount m + length es <= length (entries m) ->
  exists m',
    serve m ((fun e => registration (airportName e) (portNumber e)) <$> es)
    = Done (m', replicate (length es) EmptyString) /\
    live m' = live m ++ es /\
    entryCount m' = entryCount m + length es /\
    length (entries m') = length (entries m).
Proof.
  revert m. induction es as [|e es IH]; intros m Hwf Hnd Habs Hroom.
  - exists m. simpl. rewrite app_nil_r. repeat split; auto.
  - apply Forall_cons in Hwf as [He Hwf].
    rewrite fmap_cons in Hnd. apply NoDup_cons in Hnd as [Hnew Hnd].
    simpl in Hroom.
    assert (step m (registration (airportName e) (portNumber e))
              (push m (airportName e) (portNumber e)) EmptyString) as Hstep.
    { destruct He as (? & ? & ? & ? & Hn & Hv & Hl).
      apply (step_add_new m _ (airportName e) (portNumber e)); auto.
      - apply well_formed_command. repeat split; auto; apply Hv.
      - apply is_unsigned_short_valid; [|done].
        unfold PORT_NUMBER_LENGTH in Hl. lia.
      - apply Habs. left.
      - lia. }
    apply step_entries_length in Hstep as Hlen.
    apply dispatch_step in Hstep.
    destruct (IH (push m (airportName e) (portNumber e)) Hwf Hnd)
      as (m' & Hs & Hlive & Hcount & Hl').
    { intros e' He'. apply absent_push; [lia|]. split.
      - intros Heq. apply Hnew. rewrite <- Heq. apply list_elem_of_fmap. eauto.
      - apply Habs. by right. }
    { rewrite Hlen. simpl. lia. }
    exists m'. cbn [fmap list_fmap serve]. rewrite Hstep. cbn [bind fst snd].
    rewrite Hs. cbn [bind fst snd]. repeat split.
    + rewrite Hlive, live_push by lia. rewrite <- app_assoc. simpl.
      by destruct e.
    + rewrite Hcount. simpl. lia.
    + congruence.
Qed.

Lemma dispatch_not_add (m : Mapping) (line : string) :
  is_add line = false ->
  exists m1 sent,
    dispatch m line = Done (m1, sent) /\
    entryCount m1 = entryCount m /\ length (entries m1) = length (entries m).
Proof.
  unfold is_add. intros Hl. destruct (command_lexer line).1 eqn:Hc; [| | |done].
  - exists m, EmptyString. split; [by apply dispatch_unknown|done].
  - apply command_lexer_list_inv in Hc. eexists _, _.
    split; [by apply dispatch_list|]. split; [done|]. apply exchange_sort_length.
  - apply command_lexer_query_inv in Hc as [name Hc]. eexists _, _.
    split; [by apply dispatch_query|done].
Qed.

(** A run stays within defined behaviour when its add commands fit the
    fields and the block has room for all of them. *)
Lemma serve_defined (messages : list string) (m : Mapping) :
  Forall fits_entry messages ->
  entryCount m + length (add_lines messages) <= length (entries m) ->
  exists m' replies,
    serve m messages = Done (m', replies) /\
    entryCount m' <= entryCount m + length (add_lines messages) /\
    length replies = length messages.
Proof.
  intros Hfit. revert m. induction Hfit as [|line rest Hline _ IH]; intros m Hroom.
  - exists m, []. simpl. repeat split; auto. lia.
  - unfold add_lines in *. rewrite filter_cons in *.
    destruct (is_add line) eqn:Hadd.
    + rewrite decide_True in * by done. simpl in Hroom.
      destruct (dispatch_defined m line) as (m1 & sent & Hd); [lia|done|].
      apply dispatch_step in Hd as Hstep.
      pose proof (step_entries_length _ _ _ _ Hstep) as Hlen.
      destruct (IH m1) as (m' & replies & Hs & Hc & Hr).
      { rewrite Hlen. destruct (step_entryCount _ _ _ _ Hstep) as [->|[-> _]]; lia. }
      exists m', (sent :: replies). cbn [serve]. rewrite Hd. cbn [bind fst snd].
      rewrite Hs. cbn [bind fst snd]. repeat split.
      * simpl. destruct (step_entryCount _ _ _ _ Hstep) as [Heq|[Heq _]]; lia.
      * simpl. by rewrite Hr.
    + rewrite decide_False in * by done.
      destruct (dispatch_not_add m line Hadd) as (m1 & sent & Hd & Hc1 & Hl1).
      destruct (IH m1) as (m' & replies & Hs & Hc & Hr); [lia|].
      exists m', (sent :: replies). cbn [serve]. rewrite Hd. cbn [bind fst snd].
      rewrite Hs. cbn [bind fst snd]. repeat split; [lia|]. simpl. by rewrite Hr.
Qed.

End TableFacts.

Section RegistryProperties.
Import Libc Util Mapper Order Bytes Registry LibcFacts UtilFacts MapperFacts.
Import StringFacts TableFacts.

(** X5. In every state that the registry reaches, each entry in use
    has a name that is not empty, holds no colon, carriage return or line
    feed and is shorter than its field of 490 bytes, and a port that is a
    valid port number and shorter than its field of 6 bytes; and the
    entries in use are as many as the entry count says. *)
Theorem registry_entries_well_formed (garbage : nat -> MapEntry)
    (messages : list string) (m : Mapping) (replies : list string) :
  serve (handle_connections garbage) messages = Done (m, replies) ->
  Forall well_formed (live m) /\ length (live m) = entryCount m.
Proof.
  intros Hs. split; [by eapply reachable_well_formed|].
  apply live_length. destruct (reachable_capacity _ _ _ _ Hs). lia.
Qed.

Lemma registry_entries_well_formed_witness :
  Forall well_formed (live Examples.registry_later) /\
  length (live Examples.registry_later) = entryCount Examples.registry_later.
Proof.
  apply (registry_entries_well_formed
           Examples.stale_entry
           (Examples.line "!BNE:8080" :: Examples.later_messages)
           Examples.registry_later
           (Examples.replies_of
              (serve Examples.fresh_registry
                 (Examples.line "!BNE:8080" :: Examples.later_messages)))).
  vm_compute. reflexivity.
Defined.

(** X6. In every state that the registry reaches, the reply to a query
    is one line: the line [;] or the digits of a valid port, followed by a
    line feed.  Trimmed, it fits the allocation that the client's [main]
    made for the destination it replaces, whatever the argument was, so
    the [strcpy] of [resolve_destinations] stays inside it. *)
Theorem registry_reply_fits_client (garbage : nat -> MapEntry)
    (messages : list string) (m : Mapping) (replies : list string)
    (q name : string) :
  serve (handle_connections garbage) messages = Done (m, replies) ->
  trim_newline q = String "?" name ->
  exists body,
    dispatch m q = Done (m, body +:+ String LF EmptyString) /\
    (body = ";" \/ valid_port body) /\
    trim_newline (body +:+ String LF EmptyString) = body /\
    forall arg, strcpy (string_or_port_size arg) body = Done body.
Proof.
  intros Hs Eq. rewrite (dispatch_query m q name Eq).
  pose proof (reachable_well_formed _ _ _ _ Hs) as Hwf.
  assert (forall body, strlen body < PORT_NUMBER_LENGTH ->
                       forall arg, strcpy (string_or_port_size arg) body = Done body)
    as Hfit.
  { intros body Hlen arg. unfold strcpy, string_or_port_size.
    destruct (Nat.leb_spec PORT_NUMBER_LENGTH (strlen arg)).
    - rewrite (proj2 (Nat.ltb_lt _ _)); [done|lia].
    - by rewrite (proj2 (Nat.ltb_lt _ _)). }
  unfold query_reply. destruct (list_find (named name) (live m)) as [[i e]|] eqn:Hf.
  - apply list_find_Some in Hf as (Hi & _ & _).
    rewrite Forall_lookup in Hwf.
    destruct (Hwf i e Hi) as (_ & _ & _ & _ & _ & Hv & Hl).
    exists (portNumber e). split; [done|]. split; [by right|]. split.
    + apply trim_newline_line, is_numeric_contains; [apply Hv|done].
    + by apply Hfit.
  - exists ";". split; [done|]. split; [by left|]. split; [done|].
    apply Hfit. unfold PORT_NUMBER_LENGTH. simpl. lia.
Qed.

Lemma registry_reply_fits_client_witness :
  exists body,
    dispatch Examples.registry_later (Examples.line "?AKL")
    = Done (Examples.registry_later, body +:+ String LF EmptyString) /\
    (body = ";" \/ valid_port body) /\
    trim_newline (body +:+ String LF EmptyString) = body /\
    forall arg, strcpy (string_or_port_size arg) body = Done body.
Proof.
  apply (registry_reply_fits_client
           Examples.stale_entry
           (Examples.line "!BNE:8080" :: Examples.later_messages)
           Examples.registry_later
           (Examples.replies_of
              (serve Examples.fresh_registry
                 (Examples.line "!BNE:8080" :: Examples.later_messages)))
           (Examples.line "?AKL") "AKL").
  - vm_compute. reflexivity.
  - reflexivity.
Defined.

(** X7. A listing can be fed back.  The lines of the reply to a list
    command, each behind an exclamation mark, are add commands that a
    registry accepts; sent in the order of the listing to a registry that
    has just started, each is accepted without a reply, and the table then
    holds exactly the entries listed, in that order. *)
Theorem listing_round_trip (garbage garbage' : nat -> MapEntry)
    (messages : list string) (m : Mapping) (replies : list string)
    (request : string) :
  serve (handle_connections garbage) messages = Done (m, replies) ->
  trim_newline request = "@" ->
  exists (listed : list MapEntry) (m' : Mapping),
    dispatch m request = Done (sort_mapping m, print_lines mapping_line listed) /\
    serve (handle_connections garbage')
      ((fun e => "!" +:+ mapping_line e) <$> listed)
    = Done (m', replicate (length listed) EmptyString) /\
    live m' = listed.
Proof.
  intros Hs Et.
  pose proof (reachable_well_formed _ _ _ _ Hs) as Hwf.
  pose proof (reachable_unique_names _ _ _ _ Hs) as Hu.
  destruct (reachable_capacity _ _ _ _ Hs) as [Hlen Hcount].
  destruct (serve_registrations (live (sort_mapping m)) (handle_connections garbage'))
    as (m' & Hs' & Hlive & _ & _).
  - by rewrite live_sort_perm.
  - unfold unique_names in Hu. by rewrite live_sort_perm.
  - intros e _. apply absent_iff. rewrite handle_connections_live. apply not_elem_of_nil.
  - rewrite handle_connections_length, live_length.
    + simpl. lia.
    + simpl. rewrite exchange_sort_length. lia.
  - exists (live (sort_mapping m)), m'. split; [|split].
    + by rewrite (dispatch_list m request Et).
    + exact Hs'.
    + by rewrite Hlive, handle_connections_live.
Qed.

Lemma listing_round_trip_witness :
  exists (listed : list MapEntry) (m' : Mapping),
    dispatch Examples.registry_later (Examples.line "@")
    = Done (sort_mapping Examples.registry_later, print_lines mapping_line listed) /\
    serve (handle_connections Examples.numbered_entry)
      ((fun e => "!" +:+ mapping_line e) <$> listed)
    = Done (m', replicate (length listed) EmptyString) /\
    live m' = listed.
Proof.
  apply (listing_round_trip
           Examples.stale_entry
           Examples.numbered_entry
           (Examples.line "!BNE:8080" :: Examples.later_messages)
           Examples.registry_later
           (Examples.replies_of
              (serve Examples.fresh_registry
                 (Examples.line "!BNE:8080" :: Examples.later_messages)))
           (Examples.line "@")).
  - vm_compute. reflexivity.
  - reflexivity.
Defined.

(** X8. Listing does not change what a query answers.  In every state
    that the registry reaches, a query served right after a list command
    gets the answer it would have got before it, although the list
    command has rearranged the table. *)
Theorem listing_keeps_answers (garbage : nat -> MapEntry)
    (messages : list string) (m : Mapping) (replies : list string)
    (request q name : string) :
  serve (handle_connections garbage) messages = Done (m, replies) ->
  trim_newline request = "@" ->
  trim_newline q = String "?" name ->
  exists listing answer,
    dispatch m q = Done (m, answer) /\
    serve m [request; q] = Done (sort_mapping m, [listing; answer]).
Proof.
  intros Hs Et Eq. exists (print_mappings m).2, (query_reply m name).
  split; [by apply dispatch_query|].
  cbn [serve]. rewrite (dispatch_list m request Et). cbn [bind fst snd].
  change (print_mappings m).1 with (sort_mapping m).
  rewrite (dispatch_query (sort_mapping m) q name Eq). cbn [bind fst snd].
  rewrite (query_reply_perm (sort_mapping m) m name); [done| |apply live_sort_perm].
  unfold unique_names. rewrite live_sort_perm. by eapply reachable_unique_names.
Qed.

Lemma listing_keeps_answers_witness :
  exists listing answer,
    dispatch Examples.registry_syd_akl
      (Examples.line "?SYD")
    = Done (push (push Examples.fresh_registry "SYD" "2") "AKL" "1", answer) /\
    serve Examples.registry_syd_akl
      [Examples.line "@"; Examples.line "?SYD"]
    = Done (sort_mapping Examples.registry_syd_akl,
            [listing; answer]).
Proof.
  apply (listing_keeps_answers
           Examples.stale_entry
           [Examples.line "!SYD:2"; Examples.line "!AKL:1"]
           Examples.registry_syd_akl
           [EmptyString; EmptyString]
           (Examples.line "@") (Examples.line "?SYD") "SYD").
  - vm_compute. reflexivity.
  - reflexivity.
  - reflexivity.
Defined.

(** X9. An add command with a valid port whose name has 490 bytes or
    more, or whose port has 6 bytes or more (zeros in front), writes past
    the field of the new entry: [add_map_entry] copies both parts before
    it looks the name up, so this happens also for a name that is already
    in the table. *)
Theorem add_overflows_entry_fields (m : Mapping) (line name port : string) :
  add_command (trim_newline line) name port ->
  is_unsigned_short port = true ->
  MAX_AIRPORT_ID_LENGTH <= strlen name \/ PORT_NUMBER_LENGTH <= strlen port ->
  dispatch m line = MemoryFault.
Proof.
  intros Hc Hp Hlong. rewrite (dispatch_add m line name port Hc).
  rewrite (add_map_entry_parsed m _ name port Hc), Hp. cbn [negb].
  destruct Hlong as [Hn|Hl].
  - by rewrite (proj2 (Nat.ltb_ge _ _) Hn).
  - destruct (strlen name <? MAX_AIRPORT_ID_LENGTH); [|done].
    by rewrite (proj2 (Nat.ltb_ge _ _) Hl).
Qed.

Lemma add_overflows_entry_fields_witness :
  dispatch Examples.registry_bne (Examples.line "!BNE:008080") = MemoryFault.
Proof.
  apply (add_overflows_entry_fields Examples.registry_bne
           (Examples.line "!BNE:008080") "BNE" "008080").
  - repeat split; vm_compute; congruence.
  - reflexivity.
  - right. vm_compute. lia.
Defined.

(** X10. The registry stays within defined behaviour for every run in
    which the parts of each add command fit the fields of an entry and
    there are at most 1000 add commands: every message is served, and the
    table holds at most one entry for each add command. *)
Theorem registry_stays_defined (garbage : nat -> MapEntry) (messages : list string) :
  Forall fits_entry messages ->
  length (add_lines messages) <= MAX_MAP_ENTRIES ->
  exists m replies,
    serve (handle_connections garbage) messages = Done (m, replies) /\
    entryCount m <= length (add_lines messages) /\
    length replies = length messages.
Proof.
  intros Hfit Hroom.
  destruct (serve_defined messages (handle_connections garbage) Hfit)
    as (m & replies & Hs & Hc & Hr).
  { rewrite handle_connections_length. simpl. lia. }
  exists m, replies. repeat split; auto.
Qed.

Lemma registry_stays_defined_witness :
  exists m replies,
    serve Examples.fresh_registry [Examples.line "!BNE:8080"; Examples.line "@"]
    = Done (m, replies) /\
    entryCount m <= length (add_lines [Examples.line "!BNE:8080"; Examples.line "@"]) /\
    length replies = 2.
Proof.
  apply (registry_stays_defined
           Examples.stale_entry
           [Examples.line "!BNE:8080"; Examples.line "@"]).
  - constructor; [|constructor; [|constructor]].
    + intros name port Hc.
      destruct (add_command_text _ name port "BNE" "8080" Hc eq_refl) as [-> ->].
      vm_compute. lia.
    + intros name port [Ht _]. discriminate Ht.
  - vm_compute. lia.
Defined.

End RegistryProperties.

(** ** The service node *)

Module LogFacts.
Import Libc Util Control Order Bytes Node LibcFacts UtilFacts ControlFacts StringFacts.

(** A run of messages from any state of the log. *)
Lemma serve_run (info : string) (messages : list string) (v : Visitors) :
  Forall (fun line => strlen line < COMMAND_BUFFER_SIZE) messages ->
  visitorCount v + length (visits_of messages) <= length (entries v) ->
  exists v' replies,
    serve info v messages = Done (v', replies) /\
    visitorCount v' = visitorCount v + length (visits_of messages) /\
    aircraftID <$> live v' ≡ₚ (aircraftID <$> live v) ++ visits_of messages /\
    length (entries v') = length (entries v) /\
    length replies = length messages /\
    (forall i line, messages !! i = Some line -> trim_newline line <> "log" ->
                    replies !! i = Some (info +:+ String LF EmptyString)).
Proof.
  intros Hlines. revert v.
  induction Hlines as [|line rest Hline _ IH]; intros v Hroom.
  - exists v, []. simpl. rewrite app_nil_r. repeat split; auto.
    intros i line Hi. by rewrite lookup_nil in Hi.
  - destruct (decide (trim_newline line = "log")) as [Et|Hne].
    + rewrite (visits_of_log line rest Et) in *.
      destruct (IH (sort_visitors v)) as (v' & replies & Hs & Hc & Hp & Hl & Hr & Ha).
      { simpl. by rewrite exchange_sort_length. }
      exists v', ((print_all_visitors v).2 :: replies).
      cbn [serve]. rewrite (dispatch_log info v line Et). cbn [bind fst snd].
      change (print_all_visitors v).1 with (sort_visitors v).
      rewrite Hs. cbn [bind fst snd]. repeat split; auto.
      * rewrite Hp. by rewrite (live_sort_visitors_perm v).
      * rewrite Hl. simpl. apply exchange_sort_length.
      * simpl. by rewrite Hr.
      * intros [|i] l Hi Hl'; [by injection Hi as <-|]. by apply (Ha i l).
    + rewrite (visits_of_visit line rest Hne) in *. simpl in Hroom.
      assert (step info v line (push v (trim_newline line))
                (info +:+ String LF EmptyString)) as Hstep.
      { apply step_visit; [done| |lia].
        pose proof (trim_newline_strlen line).
        unfold COMMAND_BUFFER_SIZE, MAX_AIRCRAFT_NAME_LENGTH in *. lia. }
      apply node_step_entries_length in Hstep as Hlen.
      apply node_dispatch_step in Hstep.
      destruct (IH (push v (trim_newline line)))
        as (v' & replies & Hs & Hc & Hp & Hl & Hr & Ha).
      { rewrite Hlen. simpl. lia. }
      exists v', ((info +:+ String LF EmptyString) :: replies).
      cbn [serve]. rewrite Hstep. cbn [bind fst snd]. rewrite Hs.
      cbn [bind fst snd]. repeat split; auto.
      * rewrite Hc. simpl. lia.
      * rewrite Hp, live_push_visit by lia.
        rewrite fmap_app. simpl. by rewrite <- app_assoc.
      * congruence.
      * simpl. by rewrite Hr.
      * intros [|i] l Hi Hl'; [done|]. by apply (Ha i l).
Qed.

End LogFacts.

Section NodeProperties.
Import Libc Util Control Order Bytes Node LibcFacts UtilFacts ControlFacts.
Import StringFacts LogFacts.

(** X11. What a service node has recorded is what it was sent.  For
    every run of messages that [fgets] can deliver (each shorter than the
    command buffer) with at most 1000 visits among them, from the start of
    the node: the run stays within defined behaviour, every message gets
    one reply, every message other than the log command is answered with
    the information of the node, and the log then holds one record for
    each of these messages and nothing else, however many log commands
    came in between. *)
Theorem node_log_is_the_visits (info : string) (garbage : nat -> VisitorEntry)
    (messages : list string) :
  Forall (fun line => strlen line < COMMAND_BUFFER_SIZE) messages ->
  length (visits_of messages) <= MAX_VISITOR_ENTRIES ->
  exists v replies,
    serve info (handle_connections garbage) messages = Done (v, replies) /\
    visitorCount v = length (visits_of messages) /\
    aircraftID <$> live v ≡ₚ visits_of messages /\
    length replies = length messages /\
    (forall i line, messages !! i = Some line -> trim_newline line <> "log" ->
                    replies !! i = Some (info +:+ String LF EmptyString)).
Proof.
  intros Hlines Hroom.
  destruct (serve_run info messages (handle_connections garbage) Hlines)
    as (v & replies & Hs & Hc & Hp & _ & Hr & Ha).
  { rewrite node_block_length. simpl. lia. }
  exists v, replies. repeat split; auto.
Qed.

Lemma node_log_is_the_visits_witness :
  exists v replies,
    serve "info" Examples.fresh_node
      [Examples.line "QF2"; Examples.line "log"; Examples.line "NZ1"]
    = Done (v, replies) /\
    visitorCount v = 2 /\
    aircraftID <$> live v ≡ₚ ["QF2"; "NZ1"] /\
    length replies = 3 /\
    (forall i line,
        [Examples.line "QF2"; Examples.line "log"; Examples.line "NZ1"] !! i
        = Some line ->
        trim_newline line <> "log" -> replies !! i = Some (Examples.line "info")).
Proof.
  apply (node_log_is_the_visits "info" (fun _ => {| aircraftID := "stale" |})
           [Examples.line "QF2"; Examples.line "log"; Examples.line "NZ1"]).
  - repeat constructor; vm_compute; lia.
  - vm_compute. lia.
Defined.

End NodeProperties.

(** ** The start of the service node *)

Module LaunchFacts.
Import Libc Util Port Control Order Bytes Registry Node.
Import LibcFacts UtilFacts StringFacts PortFacts TableFacts.

Lemma illegal_zero (s : string) :
  count_occurrences s illegal = 0
  <-> contains LF s = false /\ contains CR s = false /\ contains ":" s = false.
Proof.
  unfold illegal. induction s as [|x s IH]; simpl; [done|].
  destruct (Ascii.eqb x LF), (Ascii.eqb x CR), (Ascii.eqb x ":"); simpl;
    try (split; [lia | by intros (? & ? & ?)]).
  by rewrite <- IH.
Qed.

Lemma main_serving_inv (connect_to_port : string -> bool)
    (port : N) (argv : list string) (info : string) :
  phase (main connect_to_port port argv) = Serving info ->
  exists program airportID,
    count_occurrences airportID illegal = 0 /\
    count_occurrences info illegal = 0 /\
    stdout (main connect_to_port port argv)
    = get_port_from_socket port +:+ String LF EmptyString /\
    stderr (main connect_to_port port argv) = EmptyString /\
    ((argv = [program; airportID; info] /\
      reported (main connect_to_port port argv) = None) \/
     (exists mapperPort,
         argv = [program; airportID; info; mapperPort] /\
         is_unsigned_short mapperPort = true /\
         connect_to_port mapperPort = true /\
         reported (main connect_to_port port argv)
         = Some (registration airportID (get_port_from_socket port)))).
Proof.
  destruct argv as [|program [|airportID [|airportInfo [|mapperPort [|x rest]]]]];
    try discriminate; cbn [main].
  - fold illegal.
    destruct (count_occurrences airportID illegal =? 0) eqn:Hid;
      [|discriminate].
    destruct (count_occurrences airportInfo illegal =? 0) eqn:Hinfo;
      [|discriminate].
    cbn [negb orb phase stdout stderr reported]. intros [= ->].
    apply Nat.eqb_eq in Hid, Hinfo.
    exists program, airportID. repeat split; auto.
  - fold illegal.
    destruct (count_occurrences airportID illegal =? 0) eqn:Hid;
      [|discriminate].
    destruct (count_occurrences airportInfo illegal =? 0) eqn:Hinfo;
      [|discriminate].
    cbn [negb orb].
    destruct (is_unsigned_short mapperPort) eqn:Hmapper; [|discriminate].
    cbn [negb]. unfold report_to_mapper.
    destruct (connect_to_port mapperPort) eqn:Hconn; [|discriminate].
    cbn [negb fst snd phase stdout stderr reported]. intros [= ->].
    apply Nat.eqb_eq in Hid, Hinfo.
    exists program, airportID. repeat split; auto.
    right. by exists mapperPort.
Qed.

(** The registration of a node that passed the checks of its [main] is
    an add command of the registry. *)
Lemma registration_add_command (airportID : string) (port : N) :
  count_occurrences airportID illegal = 0 ->
  airportID <> EmptyString ->
  add_command
    (trim_newline (registration airportID (get_port_from_socket port)))
    airportID (get_port_from_socket port).
Proof.
  intros (Hlf & Hcr & Hcolon)%illegal_zero Hne.
  apply registration_command; auto using get_port_from_socket_numeric.
  rewrite get_port_from_socket_pretty. apply pretty_N_nonempty.
Qed.

End LaunchFacts.

Section LaunchProperties.
Import Libc Util Port Control Order Bytes Node.
Import LibcFacts UtilFacts StringFacts PortFacts TableFacts LaunchFacts.

(** X12. The service node serves only with checked arguments.  When
    [main] reaches the accept loop it was given an identity and an
    information without line feed, carriage return or colon, it has
    printed the port of its socket on a line of its own and nothing on
    [stderr]; and either no mapper was named and nothing was sent, or the
    mapper port is a valid port, the connection to it succeeded and the
    one line [!identity:port] was sent to it. *)
Theorem node_serves_checked_arguments (connect_to_port : string -> bool)
    (port : N) (argv : list string) (info : string) :
  phase (main connect_to_port port argv) = Serving info ->
  exists program airportID,
    count_occurrences airportID illegal = 0 /\
    count_occurrences info illegal = 0 /\
    stdout (main connect_to_port port argv)
    = get_port_from_socket port +:+ String LF EmptyString /\
    stderr (main connect_to_port port argv) = EmptyString /\
    ((argv = [program; airportID; info] /\
      reported (main connect_to_port port argv) = None) \/
     (exists mapperPort,
         argv = [program; airportID; info; mapperPort] /\
         is_unsigned_short mapperPort = true /\
         connect_to_port mapperPort = true /\
         reported (main connect_to_port port argv)
         = Some (Registry.registration airportID (get_port_from_socket port)))).
Proof. apply main_serving_inv. Qed.

Lemma node_serves_checked_arguments_witness :
  exists program airportID,
    count_occurrences airportID illegal = 0 /\
    count_occurrences "Brisbane" illegal = 0 /\
    stdout (main (fun _ => true) 8080 ["control2310"; "BNE"; "Brisbane"; "3000"])
    = get_port_from_socket 8080 +:+ String LF EmptyString /\
    stderr (main (fun _ => true) 8080 ["control2310"; "BNE"; "Brisbane"; "3000"])
    = EmptyString /\
    ((["control2310"; "BNE"; "Brisbane"; "3000"] = [program; airportID; "Brisbane"] /\
      reported (main (fun _ => true) 8080 ["control2310"; "BNE"; "Brisbane"; "3000"])
      = None) \/
     (exists mapperPort,
         ["control2310"; "BNE"; "Brisbane"; "3000"]
         = [program; airportID; "Brisbane"; mapperPort] /\
         is_unsigned_short mapperPort = true /\
         (fun _ : string => true) mapperPort = true /\
         reported (main (fun _ => true) 8080 ["control2310"; "BNE"; "Brisbane"; "3000"])
         = Some (Registry.registration airportID (get_port_from_socket 8080)))).
Proof.
  apply (node_serves_checked_arguments (fun _ => true) 8080
           ["control2310"; "BNE"; "Brisbane"; "3000"] "Brisbane").
  vm_compute. reflexivity.
Defined.

(** X13. When [main] of the service node returns before the accept
    loop, the status is not zero, [stderr] holds the one line that
    [control_error] has for the status, and nothing was sent to a mapper.
    Nothing was printed on [stdout], except when the mapper could not be
    reached: the port was printed before the attempt.  The argument count
    is checked first (three or four with the program name), then the
    bytes of the identity and the information, before the mapper port. *)
Theorem node_exit_is_reported (connect_to_port : string -> bool)
    (port : N) (argv : list string) (status : ControlError) :
  phase (main connect_to_port port argv) = Exited status ->
  status <> CONTROL_NORMAL_EXIT /\
  stderr (main connect_to_port port argv) = (control_error status).1 /\
  reported (main connect_to_port port argv) = None /\
  stdout (main connect_to_port port argv)
  = match status with
    | CONTROL_ERROR_CONNECTING_MAPPER =>
        get_port_from_socket port +:+ String LF EmptyString
    | _ => EmptyString
    end /\
  (status = CONTROL_INVALID_ARG_COUNT <-> length argv < 3 \/ 4 < length argv) /\
  (status = CONTROL_INVALID_INFO_OR_ID <->
   exists program airportID airportInfo rest,
     argv = program :: airportID :: airportInfo :: rest /\ length rest <= 1 /\
     (count_occurrences airportID illegal <> 0 \/
      count_occurrences airportInfo illegal <> 0)).
Proof.
  destruct argv as [|program [|airportID [|airportInfo [|mapperPort [|x rest]]]]];
    cbn [main]; try fold illegal.
  1-3, 6: intros [= <-]; cbn; repeat split; try done; try (simpl; lia);
    try (intros [H|H]; simpl in H; lia);
    try (by intros (? & ? & ? & ? & [=] & _));
    try (intros (? & ? & ? & ? & [= <- <- <- <-] & Hl & _); simpl in Hl; lia).
  - destruct (count_occurrences airportID illegal =? 0) eqn:Hid;
      [destruct (count_occurrences airportInfo illegal =? 0) eqn:Hinfo|];
      cbn [negb orb]; try discriminate;
      intros [= <-]; cbn; repeat split; try done;
      try (intros [H|H]; simpl in H; lia);
      intros _; exists program, airportID, airportInfo, [];
      (split; [done|]); (split; [simpl; lia|]);
      apply Nat.eqb_neq in Hid || apply Nat.eqb_neq in Hinfo; auto.
  - destruct (count_occurrences airportID illegal =? 0) eqn:Hid;
      [destruct (count_occurrences airportInfo illegal =? 0) eqn:Hinfo|];
      cbn [negb orb].
    + destruct (is_unsigned_short mapperPort) eqn:Hmapper; cbn [negb].
      * unfold report_to_mapper.
        destruct (connect_to_port mapperPort); cbn [negb fst snd]; [discriminate|].
        intros [= <-]; cbn; repeat split; try done;
          try (intros [H|H]; simpl in H; lia).
        apply Nat.eqb_eq in Hid, Hinfo.
        intros (? & ? & ? & ? & [= <- <- <- <-] & _ & [H|H]); congruence.
      * intros [= <-]; cbn; repeat split; try done;
          try (intros [H|H]; simpl in H; lia).
        apply Nat.eqb_eq in Hid, Hinfo.
        intros (? & ? & ? & ? & [= <- <- <- <-] & _ & [H|H]); congruence.
    + intros [= <-]; cbn; repeat split; try done;
        try (intros [H|H]; simpl in H; lia).
      intros _; exists program, airportID, airportInfo, [mapperPort].
      split; [done|]. split; [simpl; lia|].
      apply Nat.eqb_neq in Hinfo; auto.
    + intros [= <-]; cbn; repeat split; try done;
        try (intros [H|H]; simpl in H; lia).
      intros _; exists program, airportID, airportInfo, [mapperPort].
      split; [done|]. split; [simpl; lia|].
      apply Nat.eqb_neq in Hid; auto.
Qed.

Lemma node_exit_is_reported_witness :
  stdout (main (fun _ => false) 8080 ["control2310"; "BNE"; "Brisbane"; "3000"])
  = Examples.line "8080" /\
  stderr (main (fun _ => false) 8080 ["control2310"; "BNE"; "Brisbane"; "3000"])
  = Examples.line "Can not connect to map".
Proof.
  destruct (node_exit_is_reported (fun _ => false) 8080
              ["control2310"; "BNE"; "Brisbane"; "3000"]
              CONTROL_ERROR_CONNECTING_MAPPER eq_refl)
    as (_ & Herr & _ & Hout & _).
  split; [exact Hout|exact Herr].
Defined.

(** X14. The registration that a service node sends is one that the
    registry accepts.  When [main] serves with a mapper, on a port that is
    not zero, the line sent is an add command for the identity and the
    printed port: for an identity that is not empty, is shorter than 490
    bytes and is not yet in the table, a registry with a free slot appends
    the entry, and from then on answers a query for the identity with the
    port.  An empty identity passes the checks of [main], but its
    registration [!:port] is no command for the registry and is ignored. *)
Theorem node_registration_is_accepted (connect_to_port : string -> bool)
    (port : N) (program airportID info mapperPort : string) (m : Mapper.Mapping) :
  phase (main connect_to_port port [program; airportID; info; mapperPort])
  = Serving info ->
  (port mod 2 ^ 16 <> 0)%N ->
  reported (main connect_to_port port [program; airportID; info; mapperPort])
  = Some (Registry.registration airportID (get_port_from_socket port)) /\
  (airportID <> EmptyString ->
   strlen airportID < Mapper.MAX_AIRPORT_ID_LENGTH ->
   Registry.absent m airportID ->
   Mapper.entryCount m < length (Mapper.entries m) ->
   Mapper.dispatch m (Registry.registration airportID (get_port_from_socket port))
   = Done (Registry.push m airportID (get_port_from_socket port), EmptyString) /\
   forall q,
     trim_newline q = String "?" airportID ->
     Mapper.dispatch (Registry.push m airportID (get_port_from_socket port)) q
     = Done (Registry.push m airportID (get_port_from_socket port),
             get_port_from_socket port +:+ String LF EmptyString)) /\
  (airportID = EmptyString ->
   Mapper.dispatch m (Registry.registration airportID (get_port_from_socket port))
   = Done (m, EmptyString)).
Proof.
  intros Hserving Hport.
  destruct (main_serving_inv _ _ _ _ Hserving)
    as (program' & id' & Hid & Hinfo & _ & _ & [[[=] _]|(mp & [= <- <- <-] & _ & _ & Hrep)]).
  split; [done|]. split.
  - intros Hne Hlen Habsent Hfree.
    pose proof (registration_add_command airportID port Hid Hne) as Hcmd.
    split.
    + apply MapperFacts.dispatch_step.
      apply (Registry.step_add_new m _ airportID (get_port_from_socket port));
        auto using get_port_from_socket_strlen.
      by apply get_port_from_socket_valid.
    + intros q Eq. rewrite (MapperFacts.dispatch_query _ q airportID Eq).
      rewrite (MapperFacts.registered_query_reply _ airportID
                 (get_port_from_socket port)); [done|].
      by apply MapperFacts.push_registered.
  - intros ->. apply MapperFacts.dispatch_unknown.
    pose proof (get_port_from_socket_numeric port) as Hnum.
    unfold Mapper.command_lexer.
    rewrite registration_trim by (auto using is_numeric_contains).
    cbn [fst]. change (EmptyString +:+ ?s) with s.
    rewrite bool_decide_eq_false_2 by (intros H%strcmp_eq; discriminate).
    cbn [Mapper.char_at String.get Ascii.eqb Bool.eqb negb andb].
    by rewrite !andb_false_r.
Qed.

Lemma node_registration_is_accepted_witness :
  Mapper.dispatch Examples.fresh_registry
    (Registry.registration "BNE" (get_port_from_socket 8080))
  = Done (Registry.push Examples.fresh_registry "BNE" (get_port_from_socket 8080),
          EmptyString).
Proof.
  apply (proj1 (proj2 (node_registration_is_accepted (fun _ => true) 8080
                         "control2310" "BNE" "Brisbane" "3000"
                         Examples.fresh_registry eq_refl ltac:(done))));
    try done; vm_compute; lia.
Defined.

End LaunchProperties.

(** ** The itinerant client *)

Module ItineraryFacts.
Import Libc Util Roc Order Bytes Client LibcFacts UtilFacts RocFacts StringFacts.

Lemma copy_destinations_long (before after : list string) (arg : string) :
  PORT_NUMBER_LENGTH <= strlen arg ->
  copy_destinations (before ++ arg :: after) = MemoryFault.
Proof.
  intros Hlen. induction before as [|b before IH]; simpl.
  - unfold string_or_port_size, strcpy.
    destruct (Nat.leb_spec PORT_NUMBER_LENGTH (strlen arg)); [|lia].
    by rewrite Nat.ltb_irrefl.
  - rewrite IH. unfold strcpy. by destruct (strlen b <? string_or_port_size b).
Qed.

Lemma mapper_required_iff (args : list string) :
  existsb (fun arg => negb (is_unsigned_short arg)) args = true
  <-> names_of args <> [].
Proof.
  unfold names_of. induction args as [|a args IH]; [done|].
  rewrite filter_cons. cbn [existsb].
  destruct (is_unsigned_short a); cbn [negb orb].
  - by rewrite decide_False by done.
  - by rewrite decide_True by done.
Qed.

Lemma mapper_not_required (args : list string) :
  Forall (fun arg => is_unsigned_short arg = true) args ->
  existsb (fun arg => negb (is_unsigned_short arg)) args = false.
Proof. induction 1 as [|a args Ha _ IH]; simpl; [done|]. by rewrite Ha. Qed.

Lemma specified_iff (mapperPort : string) :
  bool_decide (strcmp mapperPort "-" = Eq) = bool_decide (mapperPort = "-").
Proof. apply bool_decide_ext, strcmp_eq_iff. Qed.

Lemma main_resolved (net : Network)
    (program aircraftID mapperPort : string) (args stream : list string) :
  is_unsigned_short mapperPort = true ->
  Forall (fun arg => strlen arg < PORT_NUMBER_LENGTH) args ->
  names_of args <> [] ->
  mapper_connection net mapperPort = Some stream ->
  Forall (fun reply => strlen (trim_newline reply) < PORT_NUMBER_LENGTH) stream ->
  all_resolved (names_of args) stream = true ->
  main net (program :: aircraftID :: mapperPort :: args)
  = let! visit := visit_destinations net (destination <$> resolved args stream)
                    aircraftID in
    Done (exit_with
            (if visit.1.1 then ROC_NORMAL_OPERATION else ROC_FAILED_TO_CONNECT)
            (print_destination_info visit.1.2)
            (Connected mapperPort :: (query mapperPort <$> names_of args)
             ++ visit.2)).
Proof.
  intros Hmapper Hargs Hnames Hconn Hstream Hall. unfold main.
  rewrite (copy_destinations_short args Hargs). cbn [bind].
  apply mapper_required_iff in Hnames as ->.
  rewrite Hmapper. rewrite andb_false_r, andb_true_r.
  rewrite specified_iff.
  rewrite bool_decide_eq_false_2 by (intros ->; discriminate).
  cbn [negb]. unfold resolve_destinations.
  rewrite (connect_to_port_checked _ _ _ Hmapper), Hconn. cbn [bind].
  change ((fun arg => {| size := PORT_NUMBER_LENGTH; text := arg |}) <$> args)
    with (destination <$> args).
  rewrite (resolve_loop_open net mapperPort args stream true Hstream).
  rewrite decide_True by (apply all_resolved_length in Hall; lia).
  rewrite Hall. cbn [bind fst snd andb].
  destruct (visit_destinations net (destination <$> resolved args stream) aircraftID)
    as [[[ok info] visits]| |]; [|done..].
  reflexivity.
Qed.

(** [main] for an itinerary of ports, up to the visits. *)
Lemma main_ports (net : Network) (program aircraftID mapperPort : string)
    (args : list string) :
  mapperPort = "-" \/ is_unsigned_short mapperPort = true ->
  Forall (fun arg => is_unsigned_short arg = true) args ->
  Forall (fun arg => strlen arg < PORT_NUMBER_LENGTH) args ->
  main net (program :: aircraftID :: mapperPort :: args)
  = let! visit := visit_destinations net
                    (destination <$> args)
                    aircraftID in
    Done (exit_with
            (if visit.1.1 then ROC_NORMAL_OPERATION else ROC_FAILED_TO_CONNECT)
            (print_destination_info visit.1.2) visit.2).
Proof.
  intros Hmapper Hports Hshort. unfold main.
  rewrite (copy_destinations_short args Hshort). cbn [bind].
  assert (existsb (fun arg => negb (is_unsigned_short arg)) args = false) as ->.
  { clear -Hports. induction Hports as [|a args Ha _ IH]; simpl; [done|].
    by rewrite Ha. }
  assert ((negb (bool_decide (strcmp mapperPort "-" = Eq))
           && negb (is_unsigned_short mapperPort)) = false) as ->.
  { destruct Hmapper as [->| ->]; [done|]. apply andb_false_r. }
  rewrite andb_false_r. cbn [bind].
  destruct (visit_destinations net _ aircraftID) as [[[ok info] visits]| |]; done.
Qed.

End ItineraryFacts.

Section ClientProperties.
Import Libc Util Roc Order Bytes Client LibcFacts UtilFacts RocFacts.
Import StringFacts ItineraryFacts.

(** X15. [main] of the client copies every destination argument into
    an allocation of [string_or_port_size] bytes, which is never below the
    size of a port and never below the length of the argument, but leaves
    no room for the terminating NUL of an argument of six bytes or more:
    the copy stays inside the allocation exactly for arguments shorter
    than six bytes.  The copies are made before any argument is checked,
    so a run with a longer destination argument leaves defined behaviour
    whatever the other arguments are. *)
Theorem destination_copy_bounds (arg : string) :
  PORT_NUMBER_LENGTH <= string_or_port_size arg /\
  strlen arg <= string_or_port_size arg /\
  (strcpy (string_or_port_size arg) arg = Done arg
   <-> strlen arg < PORT_NUMBER_LENGTH) /\
  (PORT_NUMBER_LENGTH <= strlen arg ->
   forall net program aircraftID mapperPort before after,
     main net (program :: aircraftID :: mapperPort :: before ++ arg :: after)
     = MemoryFault).
Proof.
  unfold string_or_port_size, strcpy.
  destruct (Nat.leb_spec PORT_NUMBER_LENGTH (strlen arg)) as [Hge|Hlt].
  - split; [done|]. split; [done|]. rewrite Nat.ltb_irrefl. split.
    + split; [done|lia].
    + intros _ net program aircraftID mapperPort before after.
      unfold main. by rewrite copy_destinations_long.
  - split; [done|]. split; [lia|]. apply Nat.ltb_lt in Hlt as Hb. rewrite Hb.
    split; [done|lia].
Qed.

Lemma destination_copy_bounds_witness :
  main Examples.network_partial ["roc2310"; "F100"; "-"; "8080"; "008081"]
  = MemoryFault.
Proof.
  apply (proj2 (proj2 (proj2 (destination_copy_bounds "008081")))
           ltac:(vm_compute; lia) Examples.network_partial
           "roc2310" "F100" "-" ["8080"] []).
Defined.



(** X17. When every destination is already a port the mapper is never
    contacted: a run with a valid mapper port is the run with the mapper
    [-], connection for connection and byte for byte. *)
Theorem ports_need_no_mapper (net : Network)
    (program aircraftID mapperPort : string) (args : list string) :
  is_unsigned_short mapperPort = true ->
  Forall (fun arg => is_unsigned_short arg = true) args ->
  main net (program :: aircraftID :: mapperPort :: args)
  = main net (program :: aircraftID :: "-" :: args).
Proof.
  intros Hmapper Hargs. unfold main.
  destruct (copy_destinations args) as [destinations| |]; [|done..]. cbn [bind].
  rewrite (mapper_not_required args Hargs), Hmapper.
  by rewrite !andb_false_r.
Qed.

Lemma ports_need_no_mapper_witness :
  main Examples.network_partial ["roc2310"; "F100"; "3000"; "8080"; "8082"]
  = main Examples.network_partial ["roc2310"; "F100"; "-"; "8080"; "8082"].
Proof.
  apply (ports_need_no_mapper Examples.network_partial "roc2310" "F100" "3000"
           ["8080"; "8082"]); [reflexivity|].
  repeat constructor.
Defined.

(** X18. Let the mapper port be a valid port and let every destination
    argument be shorter than six bytes (a longer one overflows its copy
    before any check, X15).  When a name has to be resolved and the
    connection to the mapper fails, the client tries that one connection
    and stops: it reports ROC_ERROR_CONNECTING_MAPPER with its message,
    prints nothing on [stdout] and connects to no destination. *)
Theorem unreachable_mapper_is_final (net : Network)
    (program aircraftID mapperPort : string) (args : list string) :
  is_unsigned_short mapperPort = true ->
  Forall (fun arg => strlen arg < PORT_NUMBER_LENGTH) args ->
  names_of args <> [] ->
  mapper_connection net mapperPort = None ->
  main net (program :: aircraftID :: mapperPort :: args)
  = Done {| status := ROC_ERROR_CONNECTING_MAPPER;
            stdout := EmptyString;
            stderr := "Failed to connect to mapper" +:+ String LF EmptyString;
            trace := [ConnectFailed mapperPort] |}.
Proof.
  intros Hmapper Hargs Hnames Hconn. unfold main.
  rewrite (copy_destinations_short args Hargs). cbn [bind].
  apply mapper_required_iff in Hnames as ->.
  rewrite Hmapper. rewrite andb_false_r, andb_true_r.
  rewrite specified_iff.
  rewrite bool_decide_eq_false_2 by (intros ->; discriminate).
  cbn [negb]. unfold resolve_destinations.
  rewrite (connect_to_port_checked _ _ _ Hmapper), Hconn. reflexivity.
Qed.

Lemma unreachable_mapper_is_final_witness :
  main Examples.network_partial ["roc2310"; "F100"; "3000"; "BNE"; "8080"]
  = Done {| status := ROC_ERROR_CONNECTING_MAPPER;
            stdout := EmptyString;
            stderr := "Failed to connect to mapper" +:+ String LF EmptyString;
            trace := [ConnectFailed "3000"] |}.
Proof.
  apply (unreachable_mapper_is_final Examples.network_partial
           "roc2310" "F100" "3000" ["BNE"; "8080"]).
  - reflexivity.
  - repeat constructor.
  - discriminate.
  - reflexivity.
Defined.

(** X19. Let the mapper port be a valid port, let the mapper accept
    the connection, let every destination argument and every reply of the
    mapper, trimmed, be shorter than six bytes, and let every name get a
    reply other than [;].  Then the client sends one query for each name,
    in order, and then visits the itinerary in which the k-th name is
    replaced by the k-th reply of the mapper, trimmed, and the ports stand
    as they were given.  The reply is taken as it comes: nothing checks
    that it is a port.  When one of the replies is a text for which
    [getaddrinfo] finds no service, [connect_to_port] reads through the
    null address list and the run leaves defined behaviour. *)
Theorem resolution_substitutes (net : Network)
    (program aircraftID mapperPort : string) (args stream : list string) :
  is_unsigned_short mapperPort = true ->
  Forall (fun arg => strlen arg < PORT_NUMBER_LENGTH) args ->
  names_of args <> [] ->
  mapper_connection net mapperPort = Some stream ->
  Forall (fun reply => strlen (trim_newline reply) < PORT_NUMBER_LENGTH) stream ->
  all_resolved (names_of args) stream = true ->
  main net (program :: aircraftID :: mapperPort :: args)
  = (let! visit := visit_destinations net (destination <$> resolved args stream)
                     aircraftID in
     Done (exit_with
             (if visit.1.1 then ROC_NORMAL_OPERATION else ROC_FAILED_TO_CONNECT)
             (print_destination_info visit.1.2)
             (Connected mapperPort :: (query mapperPort <$> names_of args)
              ++ visit.2))) /\
  (Exists (fun t => is_unsigned_short t = false /\ unknown_service net t = true)
     (resolved args stream) ->
   main net (program :: aircraftID :: mapperPort :: args) = MemoryFault).
Proof.
  intros Hmapper Hargs Hnames Hconn Hstream Hall.
  pose proof (main_resolved net program aircraftID mapperPort args stream
                Hmapper Hargs Hnames Hconn Hstream Hall) as Hmain.
  split; [exact Hmain|]. intros Hex. rewrite Hmain.
  unfold visit_destinations. rewrite visit_loop_unknown; [done|].
  apply Exists_fmap. exact Hex.
Qed.

Lemma resolution_substitutes_witness :
  main Examples.network_resolving ["roc2310"; "F100"; "3000"; "BNE"]
  = Done {| status := ROC_NORMAL_OPERATION;
            stdout := Examples.line "Brisbane";
            stderr := EmptyString;
            trace := [Connected "3000"; Sent "3000" (Examples.line "?BNE");
                      Connected "8080"; Sent "8080" (Examples.line "F100")] |} /\
  main Examples.network_misdirecting ["roc2310"; "F100"; "3000"; "BNE"]
  = MemoryFault.
Proof.
  split.
  - refine (eq_trans (proj1 (resolution_substitutes Examples.network_resolving
                               "roc2310" "F100" "3000" ["BNE"] [Examples.line "8080"]
                               eq_refl _ _ eq_refl _ eq_refl)) eq_refl).
    + repeat constructor.
    + discriminate.
    + repeat constructor.
  - apply (proj2 (resolution_substitutes Examples.network_misdirecting
                    "roc2310" "F100" "3000" ["BNE"] [Examples.line "north"]
                    eq_refl ltac:(repeat constructor) ltac:(discriminate) eq_refl
                    ltac:(repeat constructor) eq_refl)).
    apply Exists_cons_hd. split; reflexivity.
Defined.

(** X20. A visit, seen from both ends.  Let a service node hold an
    information that its [main] accepts (no line feed, carriage return or
    colon) and that fits one [fgets] of the client, and let a client carry
    an identity without line feed, other than [log], that fits one [fgets]
    of the node.  The line that the client sends makes the node record
    exactly the identity and reply with its information on one line; and a
    client that gets this reply from its one destination prints exactly
    the information on a line and reports a normal run. *)
Theorem visit_round_trip (net : Network) (info : string) (v : Control.Visitors)
    (program aircraftID port : string) :
  count_occurrences info Node.illegal = 0 ->
  S (strlen info) < RESPONSE_BUFFER_SIZE ->
  contains LF aircraftID = false ->
  aircraftID <> "log" ->
  S (strlen aircraftID) < Control.COMMAND_BUFFER_SIZE ->
  Control.visitorCount v < length (Control.entries v) ->
  is_unsigned_short port = true ->
  strlen port < PORT_NUMBER_LENGTH ->
  Control.dispatch info v (aircraftID +:+ String LF EmptyString)
  = Done (Node.push v aircraftID, info +:+ String LF EmptyString) /\
  (control_connection net 0 port = Some [info +:+ String LF EmptyString] ->
   main net [program; aircraftID; "-"; port]
   = Done {| status := ROC_NORMAL_OPERATION;
             stdout := info +:+ String LF EmptyString;
             stderr := EmptyString;
             trace := [Connected port;
                       Sent port (aircraftID +:+ String LF EmptyString)] |}).
Proof.
  intros Hinfo Hilen Hid Hlog Hidlen Hfree Hport Hplen. split.
  - apply ControlFacts.node_dispatch_step.
    assert (trim_newline (aircraftID +:+ String LF EmptyString) = aircraftID) as Et
      by (by apply trim_newline_line).
    rewrite <- Et at 2. apply Node.step_visit; rewrite ?Et; auto.
    unfold Control.COMMAND_BUFFER_SIZE, Control.MAX_AIRCRAFT_NAME_LENGTH in *. lia.
  - intros Hconn. rewrite main_ports; auto.
    unfold visit_destinations. cbn [fmap list_fmap visit_loop text destination].
    rewrite (connect_to_port_checked net _ port Hport). cbn [bind].
    rewrite Hconn.
    cbn [fgets]. unfold strcpy. rewrite strlen_line.
    unfold MAX_DEST_INFO_LENGTH. unfold RESPONSE_BUFFER_SIZE in Hilen.
    apply Nat.ltb_lt in Hilen as ->. cbn [bind fst snd].
    apply LaunchFacts.illegal_zero in Hinfo as (Hlf & _ & _).
    rewrite (trim_newline_line info Hlf).
    unfold exit_with, print_destination_info.
    cbn [omap list_omap roc_error fst snd id Mapper.print_lines].
    by rewrite append_empty_r.
Qed.

Lemma visit_round_trip_witness :
  Control.dispatch "Brisbane" Examples.fresh_node (Examples.line "F100")
  = Done (Node.push Examples.fresh_node "F100", Examples.line "Brisbane") /\
  main Examples.network_partial ["roc2310"; "F100"; "-"; "8080"]
  = Done {| status := ROC_NORMAL_OPERATION;
            stdout := Examples.line "Brisbane";
            stderr := EmptyString;
            trace := [Connected "8080"; Sent "8080" (Examples.line "F100")] |}.
Proof.
  destruct (visit_round_trip Examples.network_partial "Brisbane" Examples.fresh_node
              "roc2310" "F100" "8080") as [Hnode Hclient];
    try (vm_compute; reflexivity); try (vm_compute; lia); try discriminate.
  split; [exact Hnode|]. apply Hclient. reflexivity.
Defined.

(** X21. [visit_destinations] does not look at the result of [fgets].
    When the first destination answers and the second accepts the
    connection but closes it without a reply, the response buffer still
    holds the first reply, which is copied again: the client prints the
    first reply twice and reports a normal run. *)
Theorem silent_node_repeats_reply (net : Network)
    (program aircraftID mapperPort A B rA : string) (moreA : list string) :
  mapperPort = "-" \/ is_unsigned_short mapperPort = true ->
  is_unsigned_short A = true -> strlen A < PORT_NUMBER_LENGTH ->
  is_unsigned_short B = true -> strlen B < PORT_NUMBER_LENGTH ->
  control_connection net 0 A = Some (rA :: moreA) ->
  strlen rA < RESPONSE_BUFFER_SIZE ->
  control_connection net 1 B = Some [] ->
  main net [program; aircraftID; mapperPort; A; B]
  = Done {| status := ROC_NORMAL_OPERATION;
            stdout := (trim_newline rA +:+ String LF EmptyString)
                      +:+ (trim_newline rA +:+ String LF EmptyString);
            stderr := EmptyString;
            trace := [Connected A; Sent A (aircraftID +:+ String LF EmptyString);
                      Connected B; Sent B (aircraftID +:+ String LF EmptyString)] |}.
Proof.
  intros Hmapper HA HlA HB HlB HcA HrA HcB.
  unfold RESPONSE_BUFFER_SIZE in HrA. apply Nat.ltb_lt in HrA.
  rewrite main_ports; auto.
  unfold visit_destinations. cbn [fmap list_fmap visit_loop text destination].
  rewrite (connect_to_port_checked net _ A HA), (connect_to_port_checked net _ B HB).
  cbn [bind]. rewrite HcA, HcB. cbn [fgets]. unfold strcpy, MAX_DEST_INFO_LENGTH.
  rewrite HrA. cbn [bind fst snd].
  unfold exit_with, print_destination_info.
  cbn [omap list_omap roc_error fst snd id Mapper.print_lines].
  by rewrite append_empty_r.
Qed.

Lemma silent_node_repeats_reply_witness :
  main Examples.network_silent ["roc2310"; "F100"; "-"; "8080"; "8081"]
  = Done {| status := ROC_NORMAL_OPERATION;
            stdout := Examples.line "Brisbane" +:+ Examples.line "Brisbane";
            stderr := EmptyString;
            trace := [Connected "8080"; Sent "8080" (Examples.line "F100");
                      Connected "8081"; Sent "8081" (Examples.line "F100")] |}.
Proof.
  apply (silent_node_repeats_reply Examples.network_silent
           "roc2310" "F100" "-" "8080" "8081" (Examples.line "Brisbane") []);
    try reflexivity; try (vm_compute; lia).
  by left.
Defined.

End ClientProperties.

(** ** The client and the registry together *)

Module ResolveFacts.
Import Libc Util Roc Order Bytes Client Registry.
Import LibcFacts UtilFacts RocFacts MapperFacts StringFacts TableFacts ItineraryFacts.

Lemma query_line_trim (name : string) :
  contains LF name = false -> trim_newline (query_line name) = String "?" name.
Proof.
  intros Hlf.
  change (query_line name) with (String "?" name +:+ String LF EmptyString).
  by apply trim_newline_line.
Qed.

Lemma serve_queries (m : Mapper.Mapping) (names : list string) :
  Forall (fun name => contains LF name = false) names ->
  Mapper.serve m (query_line <$> names) = Done (m, query_reply m <$> names).
Proof.
  induction 1 as [|name names Hlf _ IH]; [done|].
  cbn [fmap list_fmap Mapper.serve].
  rewrite (dispatch_query m _ name (query_line_trim name Hlf)). cbn [bind fst snd].
  by rewrite IH.
Qed.

Lemma present_registered (m : Mapper.Mapping) (name : string) :
  unique_names m -> ~ absent m name -> exists port, registered m name port.
Proof.
  intros Hu Ha.
  assert (exists e, e ∈ live m /\ Mapper.airportName e = name) as (e & He & <-).
  { destruct (decide (name ∈ Mapper.airportName <$> live m)) as [Hin|Hn].
    - apply list_elem_of_fmap in Hin as (e & -> & He). eauto.
    - by apply absent_iff in Hn. }
  exists (Mapper.portNumber e). destruct e as [n p]. split; [done|].
  intros e' He' Hn. simpl in *.
  apply list_elem_of_lookup in He as [i Hi], He' as [j Hj].
  assert (i = j) as ->.
  { apply (NoDup_lookup _ i j n Hu); rewrite list_lookup_fmap.
    - by rewrite Hi.
    - rewrite Hj. simpl. by rewrite Hn. }
  congruence.
Qed.

Lemma registered_reply (m : Mapper.Mapping) (name port : string) :
  Forall well_formed (live m) -> registered m name port ->
  trim_newline (query_reply m name) = port /\
  strlen port < PORT_NUMBER_LENGTH /\ port <> ";".
Proof.
  intros Hwf Hr. rewrite (registered_query_reply m name port Hr).
  destruct Hr as [Hin _]. rewrite Forall_forall in Hwf.
  destruct (Hwf _ Hin) as (_ & _ & _ & _ & _ & [Hnum Hv] & Hl). simpl in *.
  split; [|split; [done|]].
  - apply trim_newline_line. by apply is_numeric_contains.
  - intros ->. discriminate.
Qed.

Lemma resolved_registered (m : Mapper.Mapping) (args : list string) :
  unique_names m -> Forall well_formed (live m) ->
  (forall name, name ∈ names_of args -> ~ absent m name) ->
  all_resolved (names_of args) (query_reply m <$> names_of args) = true /\
  Forall (fun reply => strlen (trim_newline reply) < PORT_NUMBER_LENGTH)
    (query_reply m <$> names_of args) /\
  Forall2 (fun arg port => if is_unsigned_short arg then port = arg
                           else registered m arg port)
    args (resolved args (query_reply m <$> names_of args)).
Proof.
  intros Hu Hwf. unfold names_of.
  induction args as [|arg args IH]; intros Hpresent.
  - repeat split; constructor.
  - rewrite filter_cons in *. cbn [resolved].
    destruct (is_unsigned_short arg) eqn:Hp.
    + rewrite decide_False in * by done.
      destruct (IH Hpresent) as (Hall & Hshort & Hrel).
      repeat split; auto. constructor; [by rewrite Hp|done].
    + rewrite decide_True in * by done.
      destruct (present_registered m arg Hu) as [port Hr].
      { apply Hpresent. left. }
      destruct (registered_reply m arg port Hwf Hr) as (Et & Hl & Hne).
      destruct IH as (Hall & Hshort & Hrel).
      { intros name Hin. apply Hpresent. by right. }
      cbn [fmap list_fmap all_resolved]. rewrite Et.
      repeat split.
      * rewrite bool_decide_eq_false_2 by done. done.
      * constructor; [by rewrite Et|done].
      * constructor; [by rewrite Hp|done].
Qed.

End ResolveFacts.

Section ResolutionProperties.
Import Libc Util Roc Order Bytes Client Registry.
Import LibcFacts UtilFacts RocFacts MapperFacts StringFacts TableFacts ItineraryFacts.
Import ResolveFacts.

(** X22. Names resolve to the registered ports.  Let the registry be
    in any state that it reaches, let the mapper port of the client be a
    valid port, let every destination argument be shorter than six bytes
    and hold no line feed, and let every name of the itinerary be in the
    table.  (The registry takes names of up to 489 bytes; the client
    cannot ask for one of six bytes or more, which overflows its copy of
    the argument, X15.)  Then the registry answers the queries that the
    client sends, in order and without changing its table; and a client
    that gets these replies from its mapper goes on to visit the itinerary
    in which every name is replaced by the port registered for it and
    every port stands as it was given. *)
Theorem names_resolve_to_registered_ports (garbage : nat -> Mapper.MapEntry)
    (messages history : list string) (m : Mapper.Mapping) (net : Network)
    (program aircraftID mapperPort : string) (args : list string) :
  Mapper.serve (Mapper.handle_connections garbage) messages = Done (m, history) ->
  is_unsigned_short mapperPort = true ->
  Forall (fun arg => strlen arg < PORT_NUMBER_LENGTH /\ contains LF arg = false) args ->
  names_of args <> [] ->
  (forall name, name ∈ names_of args -> ~ absent m name) ->
  exists replies ports,
    Mapper.serve m (query_line <$> names_of args) = Done (m, replies) /\
    Forall2 (fun arg port => if is_unsigned_short arg then port = arg
                             else registered m arg port) args ports /\
    (mapper_connection net mapperPort = Some replies ->
     main net (program :: aircraftID :: mapperPort :: args)
     = let! visit := visit_destinations net (destination <$> ports) aircraftID in
       Done (exit_with
               (if visit.1.1 then ROC_NORMAL_OPERATION else ROC_FAILED_TO_CONNECT)
               (print_destination_info visit.1.2)
               (Connected mapperPort :: (query mapperPort <$> names_of args)
                ++ visit.2))).
Proof.
  intros Hs Hmapper Hargs Hnames Hpresent.
  pose proof (reachable_unique_names _ _ _ _ Hs) as Hu.
  pose proof (reachable_well_formed _ _ _ _ Hs) as Hwf.
  destruct (resolved_registered m args Hu Hwf Hpresent) as (Hall & Hshort & Hrel).
  exists (query_reply m <$> names_of args),
         (resolved args (query_reply m <$> names_of args)).
  split; [|split; [done|]].
  - apply serve_queries. apply Forall_forall. intros name Hin.
    apply list_elem_of_filter in Hin as [_ Hin].
    rewrite Forall_forall in Hargs. by destruct (Hargs name Hin).
  - intros Hconn. apply main_resolved; auto.
    eapply Forall_impl; [exact Hargs|]. by intros arg [Hl _].
Qed.

Lemma names_resolve_to_registered_ports_witness :
  exists replies ports,
    Mapper.serve Examples.registry_bne (query_line <$> names_of ["BNE"; "8080"])
    = Done (Examples.registry_bne, replies) /\
    Forall2 (fun arg port => if is_unsigned_short arg then port = arg
                             else registered Examples.registry_bne arg port)
      ["BNE"; "8080"] ports /\
    (mapper_connection Examples.network_resolving "3000" = Some replies ->
     main Examples.network_resolving ["roc2310"; "F100"; "3000"; "BNE"; "8080"]
     = let! visit := visit_destinations Examples.network_resolving
                       (destination <$> ports) "F100" in
       Done (exit_with
               (if visit.1.1 then ROC_NORMAL_OPERATION else ROC_FAILED_TO_CONNECT)
               (print_destination_info visit.1.2)
               (Connected "3000" :: (query "3000" <$> names_of ["BNE"; "8080"])
                ++ visit.2))).
Proof.
  apply (names_resolve_to_registered_ports Examples.stale_entry
           [Examples.line "!BNE:8080"] [EmptyString] Examples.registry_bne
           Examples.network_resolving "roc2310" "F100" "3000" ["BNE"; "8080"]).
  - vm_compute. reflexivity.
  - reflexivity.
  - repeat constructor.
  - discriminate.
  - intros name Hin Ha.
    change (names_of ["BNE"; "8080"]) with ["BNE"] in Hin.
    apply list_elem_of_singleton in Hin as ->. vm_compute in Ha. discriminate.
Defined.

End ResolutionProperties.

(** ** The memory that is not in use *)

Module ObservationFacts.
Import Libc Util Order Bytes LibcFacts UtilFacts.

Lemma sorted_tables_agree (m m' : Mapper.Mapping) :
  Registry.unique_names m -> Registry.live m = Registry.live m' ->
  Registry.live (Mapper.sort_mapping m) = Registry.live (Mapper.sort_mapping m').
Proof.
  intros Hu Hl.
  apply (StronglySorted_unique_strong (key_lt Mapper.airportName)).
  - intros x y _ _. apply key_lt_asym.
  - apply sorted_lt_of_le_nodup; [apply MapperFacts.live_sort_sorted|].
    by rewrite (MapperFacts.live_sort_perm m).
  - apply sorted_lt_of_le_nodup; [apply MapperFacts.live_sort_sorted|].
    rewrite (MapperFacts.live_sort_perm m'), <- Hl. exact Hu.
  - by rewrite !MapperFacts.live_sort_perm, Hl.
Qed.

Lemma step_same_table (m m' m1 : Mapper.Mapping) (line sent : string) :
  Registry.unique_names m -> Registry.same_table m m' ->
  Registry.step m line m1 sent ->
  exists m1', Registry.step m' line m1' sent /\ Registry.same_table m1 m1'.
Proof.
  intros Hu (Hc & Hl & Hn) Hstep.
  destruct Hstep as [Et|name Et|name port Hcmd Hp Hname Hport Ha Hfree
                    |name port Hcmd Hp Hname Hport Ha|name port Hcmd Hp|Hunk].
  - exists (Mapper.sort_mapping m').
    pose proof (sorted_tables_agree m m' Hu Hl) as Hs. split.
    + assert ((Mapper.print_mappings m).2 = (Mapper.print_mappings m').2) as ->.
      { unfold Mapper.print_mappings. simpl. f_equal. exact Hs. }
      by apply Registry.step_list.
    + repeat split; auto. simpl. by rewrite !exchange_sort_length.
  - exists m'. split; [|done].
    assert (Registry.query_reply m name = Registry.query_reply m' name) as ->.
    { unfold Registry.query_reply. by rewrite Hl. }
    by apply Registry.step_query.
  - exists (Registry.push m' name port). split.
    + apply Registry.step_add_new; auto; [|lia].
      apply MapperFacts.absent_iff. rewrite <- Hl. by apply MapperFacts.absent_iff.
    + repeat split.
      * simpl. lia.
      * rewrite !MapperFacts.live_push by lia. by rewrite Hl.
      * simpl. by rewrite !length_insert.
  - exists m'. split; [|done]. eapply Registry.step_add_known; eauto.
    intros Ha'. apply Ha. apply MapperFacts.absent_iff. rewrite Hl.
    by apply MapperFacts.absent_iff.
  - exists m'. split; [|done]. by eapply Registry.step_add_bad_port.
  - exists m'. split; [|done]. by apply Registry.step_unknown.
Qed.

Lemma serve_same_table (messages : list string) (m m' m2 : Mapper.Mapping)
    (replies : list string) :
  Registry.unique_names m -> Registry.same_table m m' ->
  Mapper.serve m messages = Done (m2, replies) ->
  exists m2', Mapper.serve m' messages = Done (m2', replies) /\ Registry.same_table m2 m2'.
Proof.
  revert m m' replies. induction messages as [|line rest IH];
    intros m m' replies Hu Hsame Hs.
  - injection Hs as <- <-. by exists m'.
  - apply MapperFacts.serve_cons_inv in Hs as (m1 & sent & r' & Hd & Hs & ->).
    apply MapperFacts.dispatch_step in Hd.
    destruct (step_same_table m m' m1 line sent Hu Hsame Hd) as (m1' & Hd' & Hsame').
    destruct (IH m1 m1' r') as (m2' & Hs' & Hsame2); auto.
    { by eapply MapperFacts.step_unique_names. }
    exists m2'. split; [|done]. cbn [Mapper.serve].
    apply MapperFacts.dispatch_step in Hd'. rewrite Hd'. cbn [bind fst snd].
    by rewrite Hs'.
Qed.

Lemma sorted_logs_agree (v v' : Control.Visitors) :
  Node.live v = Node.live v' ->
  Node.live (Control.sort_visitors v) = Node.live (Control.sort_visitors v').
Proof.
  intros Hl.
  apply (StronglySorted_unique_strong (key_le Control.aircraftID)).
  - intros x y _ _. apply visitor_le_antisym.
  - apply ControlFacts.live_sort_visitors_sorted.
  - apply ControlFacts.live_sort_visitors_sorted.
  - by rewrite !ControlFacts.live_sort_visitors_perm, Hl.
Qed.

Lemma step_same_log (info : string) (v v' v1 : Control.Visitors) (line sent : string) :
  Node.same_log v v' ->
  Node.step info v line v1 sent ->
  exists v1', Node.step info v' line v1' sent /\ Node.same_log v1 v1'.
Proof.
  intros (Hc & Hl & Hn) [Et|Hne Hlen Hfree].
  - exists (Control.sort_visitors v').
    pose proof (sorted_logs_agree v v' Hl) as Hs. split.
    + assert ((Control.print_all_visitors v).2 = (Control.print_all_visitors v').2)
        as ->.
      { unfold Control.print_all_visitors. simpl. f_equal. f_equal. exact Hs. }
      by apply Node.step_log.
    + repeat split; auto. simpl. by rewrite !exchange_sort_length.
  - exists (Node.push v' (trim_newline line)). split.
    + apply Node.step_visit; auto. lia.
    + repeat split.
      * simpl. lia.
      * rewrite !ControlFacts.live_push_visit by lia. by rewrite Hl.
      * simpl. by rewrite !length_insert.
Qed.

Lemma serve_same_log (info : string) (messages : list string)
    (v v' v2 : Control.Visitors) (replies : list string) :
  Node.same_log v v' ->
  Control.serve info v messages = Done (v2, replies) ->
  exists v2', Control.serve info v' messages = Done (v2', replies) /\ Node.same_log v2 v2'.
Proof.
  revert v v' replies. induction messages as [|line rest IH];
    intros v v' replies Hsame Hs.
  - injection Hs as <- <-. by exists v'.
  - apply ControlFacts.node_serve_cons_inv in Hs as (v1 & sent & r' & Hd & Hs & ->).
    apply ControlFacts.node_dispatch_step in Hd.
    destruct (step_same_log info v v' v1 line sent Hsame Hd) as (v1' & Hd' & Hsame').
    destruct (IH v1 v1' r') as (v2' & Hs' & Hsame2); auto.
    exists v2'. split; [|done]. cbn [Control.serve].
    apply ControlFacts.node_dispatch_step in Hd'. rewrite Hd'. cbn [bind fst snd].
    by rewrite Hs'.
Qed.

End ObservationFacts.

Section ObservationProperties.
Import Libc Util Order Bytes LibcFacts UtilFacts ObservationFacts.

(** X23. The blocks of both servers come from [malloc] and are never
    initialised; nothing a client can see depends on what they held.  Two
    registries, or two service nodes, that start on blocks with different
    contents and are sent the same messages give the same replies, byte
    for byte, and end with the same entries in use: the code never reads
    a slot at or after the entry count. *)
Theorem uninitialised_slots_are_never_observed :
  (forall (garbage garbage' : nat -> Mapper.MapEntry) (messages : list string)
          (m : Mapper.Mapping) (replies : list string),
      Mapper.serve (Mapper.handle_connections garbage) messages = Done (m, replies) ->
      exists m',
        Mapper.serve (Mapper.handle_connections garbage') messages
        = Done (m', replies) /\
        Registry.live m' = Registry.live m) /\
  (forall (info : string) (garbage garbage' : nat -> Control.VisitorEntry)
          (messages : list string) (v : Control.Visitors) (replies : list string),
      Control.serve info (Control.handle_connections garbage) messages
      = Done (v, replies) ->
      exists v',
        Control.serve info (Control.handle_connections garbage') messages
        = Done (v', replies) /\
        Node.live v' = Node.live v).
Proof.
  split.
  - intros garbage garbage' messages m replies Hs.
    assert (Registry.unique_names (Mapper.handle_connections garbage)) as Hu.
    { unfold Registry.unique_names. rewrite MapperFacts.handle_connections_live.
      constructor. }
    assert (Registry.same_table (Mapper.handle_connections garbage)
              (Mapper.handle_connections garbage')) as Hsame.
    { split; [done|]. split; [done|].
      by rewrite !MapperFacts.handle_connections_length. }
    destruct (serve_same_table messages _ _ m replies Hu Hsame Hs)
      as (m' & Hs' & _ & Hl & _).
    by exists m'.
  - intros info garbage garbage' messages v replies Hs.
    assert (Node.same_log (Control.handle_connections garbage)
              (Control.handle_connections garbage')) as Hsame.
    { split; [done|]. split; [done|].
      by rewrite !ControlFacts.node_block_length. }
    destruct (serve_same_log info messages _ _ v replies Hsame Hs)
      as (v' & Hs' & _ & Hl & _).
    by exists v'.
Qed.

Lemma uninitialised_slots_are_never_observed_witness :
  exists m',
    Mapper.serve (Mapper.handle_connections Examples.numbered_entry)
      (Examples.line "!BNE:8080" :: Examples.later_messages)
    = Done (m', Examples.replies_of
                  (Mapper.serve Examples.fresh_registry
                     (Examples.line "!BNE:8080" :: Examples.later_messages))) /\
    Registry.live m' = Registry.live Examples.registry_later.
Proof.
  apply (proj1 uninitialised_slots_are_never_observed
           Examples.stale_entry
           Examples.numbered_entry
           (Examples.line "!BNE:8080" :: Examples.later_messages)
           Examples.registry_later).
  vm_compute. reflexivity.
Defined.

End ObservationProperties.

(** ** The workers and the lock *)



Section WorkersProgress.
Context {T : Type} (dispatch : T -> string -> outcome (T * string)).
Hypothesis not_killed : forall t line, dispatch t line <> BrokenPipe.





End WorkersProgress.

Section LockProperties.



End LockProperties.

(** ** One connection

    [command_listener] writes every reply to the connection as soon as its
    dispatch ends; the runs of dispatches above keep the replies apart.
    The two agree on the final structure, and what the connection carries
    is the replies one after the other. *)

Module ConnectionFacts.
Import Libc Util UtilFacts.

Lemma registry_connection (m : Mapper.Mapping) (receiveStream : list string) :
  Mapper.command_listener m receiveStream
  = let! served := Mapper.serve m receiveStream in
    Done (served.1, foldr String.append EmptyString served.2).
Proof.
  revert m. induction receiveStream as [|line rest IH]; intros m; [done|].
  cbn [Mapper.command_listener Mapper.serve].
  destruct (Mapper.dispatch m line) as [[m1 sent]| |]; [|done..]. cbn [bind fst snd].
  rewrite IH. by destruct (Mapper.serve m1 rest) as [[m2 replies]| |].
Qed.

Lemma node_connection (info : string) (v : Control.Visitors)
    (receiveStream : list string) :
  Control.command_listener info v receiveStream
  = let! served := Control.serve info v receiveStream in
    Done (served.1, foldr String.append EmptyString served.2).
Proof.
  revert v. induction receiveStream as [|line rest IH]; intros v; [done|].
  cbn [Control.command_listener Control.serve].
  destruct (Control.dispatch info v line) as [[v1 sent]| |]; [|done..]. cbn [bind fst snd].
  rewrite IH. by destruct (Control.serve info v1 rest) as [[v2 replies]| |].
Qed.

End ConnectionFacts.

